(** * Device inventory tool (task-3/inventory_tool.py)

    A shallow embedding of the inventory tool and of the parts of the
    Python standard library it drives (text files, [csv], [json],
    [argparse]), followed by the properties of the Loader, Finder, JSON
    formatter, Mutator, Persister and command-line front end.

    Conventions.
    - Text is [string]; a character is an [ascii].  The encoding layer of
      Python text files is taken as the identity on characters.
    - A Python exception is a value of [exn]; a computation that may raise
      returns a [result].
    - The file system is a finite map from paths to file contents.
      Opening a path for reading fails when the map has no file there;
      opening for writing and writing succeed.  The other failures of
      the operating system and of the encoding layer (a directory, a
      file that may not be read or written, bytes that are no text) are
      not modelled, and no property below is about them.
    - A list is an object on a heap, a finite map from addresses to
      lists, because [add_device] changes the list it is given.  A dict
      is a value: the program never changes a dict it has built.
    - The library models follow CPython 3.11: [Lib/csv.py],
      [Modules/_csv.c] with the [excel] dialect, [Lib/json/encoder.py]
      and [Lib/argparse.py].
    - [format_inventory_yaml] hands the inventory to [yaml.dump] of
      PyYAML, whose emitter is not modelled here: the function is left
      out. *)

From Stdlib Require Import ZArith NArith Ascii String List Bool Lia.
From stdpp Require Import gmap strings list fin_maps.

Local Open Scope N_scope.

(** ** Exceptions and results *)

Inductive exn : Type :=
  | FileNotFoundError   (* open(..., "r") on a path that does not exist *)
  | KeyError            (* device["Name"] on a dict without that key *)
  | ValueError          (* DictWriter: dict contains fields not in fieldnames *)
  | CsvError.           (* _csv.Error raised by the reader *)

Inductive result (A : Type) : Type :=
  | Ok (a : A)
  | Raise (e : exn).
Arguments Ok {A} a.
Arguments Raise {A} e.

(** Sequencing: the first exception raised aborts what follows.  The
    notation [x ← m; k] is that of stdpp's [MBind]. *)
#[global] Instance result_bind : MBind result := fun A B k m =>
  match m with
  | Ok a => k a
  | Raise e => Raise e
  end.

(** ** Characters of the excel dialect *)

Definition LF : ascii := "010"%char.
Definition CR : ascii := "013"%char.
Definition delimiter : ascii := ","%char.
Definition quotechar : ascii := "034"%char.
Definition lineterminator : string := String CR (String LF "").

Definition ch_eqb (a b : ascii) : bool := Ascii.eqb a b.

Fixpoint str_contains (c : ascii) (s : string) : bool :=
  match s with
  | EmptyString => false
  | String a t => ch_eqb a c || str_contains c t
  end.

Definition strlen (s : string) : N := N.of_nat (String.length s).

(** ** Device records

    A record is a Python [dict] kept in insertion order.  The entries the
    program can build are of two shapes: a column name bound to a value,
    and the key [None] (the [restkey] of [csv.DictReader]) bound to the
    list of surplus cells of a long row.  A value is a text, [None] (the
    [restval] of [csv.DictReader]) or the empty list (what argparse
    stores for [--name=--], see [_get_values]). *)

Inductive value : Type :=
  | VNone
  | VStr (s : string)
  | VEmptyList.

Inductive entry : Type :=
  | Field (k : string) (v : value)
  | Rest (vs : list string).

Definition record : Type := list entry.

(** A dict key: [Some k] is the text [k], [None] is Python's [None]. *)
Definition entry_key (e : entry) : option string :=
  match e with
  | Field k _ => Some k
  | Rest _ => None
  end.

Definition dict_keys (d : record) : list (option string) := map entry_key d.

(** [d.get(k)] for a text key: [None] when absent, else the bound value. *)
Fixpoint dict_lookup (k : string) (d : record) : option value :=
  match d with
  | [] => None
  | Field k' v :: d' => if String.eqb k' k then Some v else dict_lookup k d'
  | Rest _ :: d' => dict_lookup k d'
  end.

(** [d[None]] when present. *)
Fixpoint dict_rest (d : record) : option (list string) :=
  match d with
  | [] => None
  | Rest vs :: _ => Some vs
  | Field _ _ :: d' => dict_rest d'
  end.

(** [d[k] = v]: an existing key keeps its position, a new key goes last. *)
Fixpoint dict_set (k : string) (v : value) (d : record) : record :=
  match d with
  | [] => [Field k v]
  | Field k' v' :: d' =>
      if String.eqb k' k then Field k' v :: d' else Field k' v' :: dict_set k v d'
  | Rest vs :: d' => Rest vs :: dict_set k v d'
  end.

Fixpoint dict_set_rest (vs : list string) (d : record) : record :=
  match d with
  | [] => [Rest vs]
  | Rest _ :: d' => Rest vs :: d'
  | Field k v :: d' => Field k v :: dict_set_rest vs d'
  end.

(** Python's [d1 == d2] on dicts with distinct keys: the same keys bound
    to the same values, whatever the insertion order. *)
Definition dict_eq (d1 d2 : record) : Prop :=
  (forall k, dict_lookup k d1 = dict_lookup k d2) /\ dict_rest d1 = dict_rest d2.

(** The five column names, in the order [save_inventory] fixes. *)
Definition fieldnames : list string :=
  ["Name"; "Management IP"; "Username"; "Password"; "Description"]%string.

Definition is_fieldname (k : option string) : bool :=
  match k with
  | Some s => existsb (String.eqb s) fieldnames
  | None => false
  end.

(** ** csv.writer ([Modules/_csv.c], excel dialect, QUOTE_MINIMAL) *)

(** A character that forces the field to be quoted: the delimiter, the
    quote character, or a character of the line terminator. *)
Definition is_special (c : ascii) : bool :=
  ch_eqb c delimiter || ch_eqb c quotechar || str_contains c lineterminator.

(** [join_append_data], counting pass: does the field get quoted? *)
Fixpoint field_quoted (s : string) : bool :=
  match s with
  | EmptyString => false
  | String c t => is_special c || field_quoted t
  end.

(** [join_append_data], copy pass: every quote character is doubled. *)
Fixpoint copy_field (s : string) : string :=
  match s with
  | EmptyString => EmptyString
  | String c t =>
      if ch_eqb c quotechar then String quotechar (String c (copy_field t))
      else String c (copy_field t)
  end.

(** [join_append]: add one field to the record buffer [rec]. *)
Definition join_append (rec : string) (num_fields : nat) (field : string)
    (quoted : bool) : string :=
  let quoted := quoted || field_quoted field in
  let sep := match num_fields with O => EmptyString | S _ => String delimiter "" end in
  let body := copy_field field in
  rec +:+ sep +:+
  (if quoted then String quotechar (body +:+ String quotechar "") else body).

(** The text of a cell: a text is taken as it is, [None] is written as
    the empty text, anything else goes through [str()]. *)
Definition cell_text (v : value) : string :=
  match v with
  | VNone => EmptyString
  | VStr s => s
  | VEmptyList => "[]"
  end.

(** The loop of [csv_writerow] over the cells. *)
Fixpoint join_fields (rec : string) (num_fields : nat) (cells : list value)
    : string * nat :=
  match cells with
  | [] => (rec, num_fields)
  | c :: cells' =>
      join_fields (join_append rec num_fields (cell_text c) false)
                  (S num_fields) cells'
  end.

(** [csv_writerow]: the line handed to the file's [write]. *)
Definition writer_writerow (cells : list value) : string :=
  let '(rec, num_fields) := join_fields EmptyString 0 cells in
  let rec' :=
    match num_fields, rec with
    | S n, EmptyString => join_append EmptyString n EmptyString true
    | _, _ => rec
    end in
  rec' +:+ lineterminator.

(** ** csv.DictWriter ([Lib/csv.py], restval="", extrasaction="raise") *)

(** [rowdict.keys() - self.fieldnames] *)
Definition wrong_fields (rowdict : record) : list (option string) :=
  List.filter (fun k => negb (is_fieldname k)) (dict_keys rowdict).

(** [rowdict.get(key, self.restval)] *)
Definition dict_get (rowdict : record) (key : string) : value :=
  match dict_lookup key rowdict with
  | Some v => v
  | None => VStr EmptyString
  end.

Definition _dict_to_list (rowdict : record) : result (list value) :=
  match wrong_fields rowdict with
  | [] => Ok (map (dict_get rowdict) fieldnames)
  | _ :: _ => Raise ValueError
  end.

(** [DictWriter.writerow]; [file] is the text written so far. *)
Definition DictWriter_writerow (file : string) (rowdict : record)
    : string * result unit :=
  match _dict_to_list rowdict with
  | Ok cells => (file +:+ writer_writerow cells, Ok tt)
  | Raise e => (file, Raise e)
  end.

(** [dict(zip(self.fieldnames, self.fieldnames))] *)
Definition header_dict : record :=
  fold_left (fun d k => dict_set k (VStr k) d) fieldnames [].

Definition DictWriter_writeheader (file : string) : string * result unit :=
  DictWriter_writerow file header_dict.

(** [DictWriter.writerows]: the rows are converted and written one by
    one, so the rows before a failing one have reached the file. *)
Fixpoint DictWriter_writerows (file : string) (rowdicts : list record)
    : string * result unit :=
  match rowdicts with
  | [] => (file, Ok tt)
  | d :: ds =>
      match DictWriter_writerow file d with
      | (file', Ok _) => DictWriter_writerows file' ds
      | (file', Raise e) => (file', Raise e)
      end
  end.

(** ** Text files read with [open(filename, "r")]

    The default [newline=None] turns on universal newlines: on input,
    CR LF and a lone CR both become LF, and iterating over the file
    yields the lines, each with its closing LF (the last line may lack
    one). *)

(** The newline decoder: [pendingcr] tells that the character before was
    a CR, whose LF, if one follows, has already been given. *)
Fixpoint translate_newlines (pendingcr : bool) (s : string) : string :=
  match s with
  | EmptyString => EmptyString
  | String c t =>
      if ch_eqb c CR then String LF (translate_newlines true t)
      else if ch_eqb c LF then
        if pendingcr then translate_newlines false t
        else String LF (translate_newlines false t)
      else String c (translate_newlines false t)
  end.

Definition universal_newlines (s : string) : string := translate_newlines false s.

(** [lines_of cur s]: the lines of [s], where [cur] is the part of the
    current line already seen. *)
Fixpoint lines_of (cur : string) (s : string) : list string :=
  match s with
  | EmptyString =>
      match cur with
      | EmptyString => []
      | String _ _ => [cur]
      end
  | String c t =>
      if ch_eqb c LF then (cur +:+ String c "") :: lines_of EmptyString t
      else lines_of (cur +:+ String c "") t
  end.

Definition file_lines (content : string) : list string :=
  lines_of EmptyString (universal_newlines content).

(** ** csv.reader ([Modules/_csv.c], excel dialect)

    The excel dialect sets no escape character, so the three escape
    states of the parser are never entered and are left out. *)

Inductive ParserState : Type :=
  | START_RECORD | START_FIELD | IN_FIELD | IN_QUOTED_FIELD
  | QUOTE_IN_QUOTED_FIELD | EAT_CRNL.

Definition state_eqb (a b : ParserState) : bool :=
  match a, b with
  | START_RECORD, START_RECORD | START_FIELD, START_FIELD | IN_FIELD, IN_FIELD
  | IN_QUOTED_FIELD, IN_QUOTED_FIELD
  | QUOTE_IN_QUOTED_FIELD, QUOTE_IN_QUOTED_FIELD | EAT_CRNL, EAT_CRNL => true
  | _, _ => false
  end.

Record ReaderObj : Type := mkReader {
  rd_fields : list string;   (* fields of the record being read *)
  rd_field : string;         (* the field being read *)
  rd_field_len : N;          (* its length *)
  rd_state : ParserState
}.

(** What [parse_process_char] is fed: a character of the line, or the
    end-of-line mark sent after the last character of each line. *)
Inductive pchar : Type :=
  | Ch (c : ascii)
  | EOL.

(** [csv.field_size_limit()], by default 128 * 1024. *)
Definition field_limit : N := 131072.

Definition set_state (st : ParserState) (r : ReaderObj) : ReaderObj :=
  mkReader (rd_fields r) (rd_field r) (rd_field_len r) st.

Definition parse_reset : ReaderObj := mkReader [] EmptyString 0 START_RECORD.

Definition parse_save_field (r : ReaderObj) : ReaderObj :=
  mkReader (rd_fields r ++ [rd_field r]) EmptyString 0 (rd_state r).

Definition parse_add_char (r : ReaderObj) (c : ascii) : result ReaderObj :=
  if field_limit <=? rd_field_len r then Raise CsvError
  else Ok (mkReader (rd_fields r) (rd_field r +:+ String c "")
                    (rd_field_len r + 1) (rd_state r)).

Definition is_newline (c : ascii) : bool := ch_eqb c LF || ch_eqb c CR.

(** The [START_FIELD] case, which [START_RECORD] falls through to. *)
Definition parse_start_field (r : ReaderObj) (c : pchar) : result ReaderObj :=
  match c with
  | EOL => Ok (set_state START_RECORD (parse_save_field r))
  | Ch a =>
      if is_newline a then Ok (set_state EAT_CRNL (parse_save_field r))
      else if ch_eqb a quotechar then Ok (set_state IN_QUOTED_FIELD r)
      else if ch_eqb a delimiter then Ok (parse_save_field r)
      else r' ← parse_add_char r a; Ok (set_state IN_FIELD r')
  end.

Definition parse_process_char (r : ReaderObj) (c : pchar) : result ReaderObj :=
  match rd_state r with
  | START_RECORD =>
      match c with
      | EOL => Ok r
      | Ch a =>
          if is_newline a then Ok (set_state EAT_CRNL r)
          else parse_start_field (set_state START_FIELD r) c
      end
  | START_FIELD => parse_start_field r c
  | IN_FIELD =>
      match c with
      | EOL => Ok (set_state START_RECORD (parse_save_field r))
      | Ch a =>
          if is_newline a then Ok (set_state EAT_CRNL (parse_save_field r))
          else if ch_eqb a delimiter then Ok (set_state START_FIELD (parse_save_field r))
          else parse_add_char r a
      end
  | IN_QUOTED_FIELD =>
      match c with
      | EOL => Ok r
      | Ch a =>
          if ch_eqb a quotechar then Ok (set_state QUOTE_IN_QUOTED_FIELD r)
          else parse_add_char r a
      end
  | QUOTE_IN_QUOTED_FIELD =>
      match c with
      | EOL => Ok (set_state START_RECORD (parse_save_field r))
      | Ch a =>
          if ch_eqb a quotechar then
            r' ← parse_add_char r a; Ok (set_state IN_QUOTED_FIELD r')
          else if ch_eqb a delimiter then Ok (set_state START_FIELD (parse_save_field r))
          else if is_newline a then Ok (set_state EAT_CRNL (parse_save_field r))
          else r' ← parse_add_char r a; Ok (set_state IN_FIELD r')
      end
  | EAT_CRNL =>
      match c with
      | EOL => Ok (set_state START_RECORD r)
      | Ch a => if is_newline a then Ok r else Raise CsvError
      end
  end.

(** The characters of a line, without the end-of-line mark. *)
Fixpoint parse_chars (r : ReaderObj) (s : string) : result ReaderObj :=
  match s with
  | EmptyString => Ok r
  | String c t => r' ← parse_process_char r (Ch c); parse_chars r' t
  end.

(** One line: its characters, then the end-of-line mark. *)
Definition parse_line (r : ReaderObj) (line : string) : result ReaderObj :=
  r' ← parse_chars r line; parse_process_char r' EOL.

(** [Reader_iternext], called until the input is exhausted: a record is
    complete when a line leaves the parser in [START_RECORD]; at the end
    of the input a pending field closes the last record. *)
Fixpoint reader_rows (r : ReaderObj) (lines : list string) : result (list (list string)) :=
  match lines with
  | [] =>
      if negb (rd_field_len r =? 0) || state_eqb (rd_state r) IN_QUOTED_FIELD
      then Ok [rd_fields (parse_save_field r)]
      else Ok []
  | line :: lines' =>
      r' ← parse_line r line;
      if state_eqb (rd_state r') START_RECORD
      then rows ← reader_rows parse_reset lines'; Ok (rd_fields r' :: rows)
      else reader_rows r' lines'
  end.

(** ** csv.DictReader ([Lib/csv.py], restkey=None, restval=None) *)

(** [dict(zip(names, row))] *)
Definition dict_zip (names row : list string) : record :=
  fold_left (fun d kv => dict_set (fst kv) (VStr (snd kv)) d) (combine names row) [].

(** The dict built by [DictReader.__next__] from a row that is not []. *)
Definition DictReader_row (names row : list string) : record :=
  let d := dict_zip names row in
  let lf := length names in
  let lr := length row in
  if (lf <? lr)%nat then dict_set_rest (drop lf row) d
  else if (lr <? lf)%nat then fold_left (fun d key => dict_set key VNone d) (drop lr names) d
  else d.

Definition row_is_empty (row : list string) : bool :=
  match row with
  | [] => true
  | _ :: _ => false
  end.

(** Iterating a [DictReader] to the end: the first row read gives the
    field names, rows equal to [] are skipped. *)
Definition DictReader_rows (lines : list string) : result (list record) :=
  rows ← reader_rows parse_reset lines;
  match rows with
  | [] => Ok []
  | names :: rows' =>
      Ok (map (DictReader_row names)
              (List.filter (fun row => negb (row_is_empty row)) rows'))
  end.

(** ** json.dumps with [indent=4] ([Lib/json/encoder.py])

    The defaults are kept: [ensure_ascii] is on, and with an indent the
    item separator is [","], the key separator [": "], and the encoder
    is the one [_make_iterencode] builds.  A character stands for the
    code point of its number. *)

Definition backslash : ascii := "092"%char.

(** A digit of [format(n, "04x")]. *)
Definition hex_digit (n : N) : ascii :=
  ascii_of_N (if n <? 10 then 48 + n else 87 + n).

(** [ESCAPE_DCT], the [\uXXXX] form of every other character outside
    the range from the space to the tilde, and the characters of that
    range as they are. *)
Definition escape_char (c : ascii) : string :=
  let n := N_of_ascii c in
  if ch_eqb c backslash then String backslash (String backslash "")
  else if ch_eqb c quotechar then String backslash (String quotechar "")
  else if n =? 8 then String backslash "b"
  else if n =? 12 then String backslash "f"
  else if n =? 10 then String backslash "n"
  else if n =? 13 then String backslash "r"
  else if n =? 9 then String backslash "t"
  else if (32 <=? n) && (n <=? 126) then String c ""
  else String backslash
         ("u00" +:+ String (hex_digit (n / 16)) (String (hex_digit (n mod 16)) "")).

Fixpoint escape_ascii (s : string) : string :=
  match s with
  | EmptyString => EmptyString
  | String c t => escape_char c +:+ escape_ascii t
  end.

(** [encode_basestring_ascii]: the text between quotes. *)
Definition encode_basestring_ascii (s : string) : string :=
  String quotechar (escape_ascii s +:+ String quotechar "").

Definition _indent : string := "    ".

Definition item_separator : string := ",".

Definition key_separator : string := ": ".

(** [_indent * level] *)
Fixpoint indent_times (level : nat) : string :=
  match level with
  | O => EmptyString
  | S level' => _indent +:+ indent_times level'
  end.

Definition newline_indent (level : nat) : string := String LF (indent_times level).

(** The loop over the items of a list or of a dict: the separator comes
    before every item but the first. *)
Fixpoint join_items (separator : string) (first : bool) (items : list string) : string :=
  match items with
  | [] => EmptyString
  | item :: items' =>
      (if first then EmptyString else separator) +:+ item
      +:+ join_items separator false items'
  end.

(** [_iterencode_list], for a list whose items [encode] encodes. *)
Definition _iterencode_list {A : Type} (encode : A → nat → string) (lst : list A)
    (level : nat) : string :=
  match lst with
  | [] => "[]"
  | _ :: _ =>
      let level' := S level in
      "[" +:+ newline_indent level' +:+
      join_items (item_separator +:+ newline_indent level') true
        (map (fun v => encode v level') lst) +:+
      newline_indent level +:+ "]"
  end.

Definition encode_str (s : string) (level : nat) : string := encode_basestring_ascii s.

(** A value of a dict: [None] is [null], a text is encoded, a list goes
    through [_iterencode_list]. *)
Definition encode_value (v : value) (level : nat) : string :=
  match v with
  | VNone => "null"
  | VStr s => encode_basestring_ascii s
  | VEmptyList => _iterencode_list encode_str [] level
  end.

(** A key with its value; the key [None] is written as the text [null]. *)
Definition encode_item (e : entry) (level : nat) : string :=
  match e with
  | Field k v => encode_basestring_ascii k +:+ key_separator +:+ encode_value v level
  | Rest vs =>
      encode_basestring_ascii "null" +:+ key_separator +:+
      _iterencode_list encode_str vs level
  end.

(** [_iterencode_dict] *)
Definition _iterencode_dict (dct : record) (level : nat) : string :=
  match dct with
  | [] => "{}"
  | _ :: _ =>
      let level' := S level in
      "{" +:+ newline_indent level' +:+
      join_items (item_separator +:+ newline_indent level') true
        (map (fun e => encode_item e level') dct) +:+
      newline_indent level +:+ "}"
  end.

(** [json.dumps(obj, indent=4)] of a list of dicts. *)
Definition json_dumps (obj : list record) : string :=
  _iterencode_list _iterencode_dict obj 0.

(** ** The functions of inventory_tool.py *)

Definition read_inventory (fs : gmap string string) (filename : string)
    : result (list record) :=
  match fs !! filename with
  | None => Raise FileNotFoundError
  | Some content => DictReader_rows (file_lines content)
  end.

(** [v == s] for a text [s]: only an equal text compares equal. *)
Definition value_eqb (v : value) (s : string) : bool :=
  match v with
  | VStr t => String.eqb t s
  | VNone | VEmptyList => false
  end.

Fixpoint get_device_data (inventory : list record) (device_name : string)
    : result (option record) :=
  match inventory with
  | [] => Ok None
  | device :: inventory' =>
      match dict_lookup "Name" device with
      | None => Raise KeyError
      | Some v =>
          if value_eqb v device_name then Ok (Some device)
          else get_device_data inventory' device_name
      end
  end.

Definition format_inventory_json (inventory_data : list record) : string :=
  json_dumps inventory_data.

(** Lists are objects on a heap; a variable holds the address of its
    list, and [inventory.append(new_device)] changes the object. *)
Definition add_device (h : gmap nat (list record)) (inventory : nat)
    (new_device : record) : gmap nat (list record) :=
  alter (fun l => l ++ [new_device]) inventory h.

(** [open(filename, "w", newline="")] empties the file; what the writer
    hands to it is stored as it is, and the [with] block closes the file
    also when [writerows] raises. *)
Definition save_inventory (fs : gmap string string) (filename : string)
    (inventory : list record) : gmap string string * result unit :=
  match DictWriter_writeheader EmptyString with
  | (file, Ok _) =>
      let '(file', res) := DictWriter_writerows file inventory in
      (<[filename := file']> fs, res)
  | (file, Raise e) => (<[filename := file]> fs, Raise e)
  end.

(** ** argparse ([Lib/argparse.py]), as far as [setup_cli] uses it

    [parse_args] either returns a namespace or ends the process through
    [SystemExit]: with status 0 after printing the help on standard
    output, or with status 2 after printing the usage and an error
    message on standard error ([ArgumentParser.error]). *)

Inductive Dest : Type := d_name | d_ip | d_user | d_password | d_desc.

Definition dest_eqb (a b : Dest) : bool :=
  match a, b with
  | d_name, d_name | d_ip, d_ip | d_user, d_user
  | d_password, d_password | d_desc, d_desc => true
  | _, _ => false
  end.

Inductive Action : Type :=
  | HelpAction                  (* -h/--help: nargs=0 *)
  | StoreAction (dest : Dest).  (* add_argument("--x", required=True): nargs=None *)

(** The number of argument strings an optional takes. *)
Definition nargs (a : Action) : nat :=
  match a with
  | HelpAction => 0
  | StoreAction _ => 1
  end.

(** A parser without positionals: its [_option_string_actions]. *)
Record ArgumentParser : Type := mkParser {
  option_string_actions : list (string * Action)
}.

(** The top-level parser: its options and the map of its sub-parsers. *)
Record TopParser : Type := mkTop {
  top_parser : ArgumentParser;
  name_parser_map : list (string * ArgumentParser)
}.

Record Namespace : Type := mkNs {
  ns_command : option string;
  ns_name : value;
  ns_ip : value;
  ns_user : value;
  ns_password : value;
  ns_desc : value
}.

Definition ns_default : Namespace := mkNs None VNone VNone VNone VNone VNone.

Definition ns_set (d : Dest) (v : value) (ns : Namespace) : Namespace :=
  match d with
  | d_name => mkNs (ns_command ns) v (ns_ip ns) (ns_user ns) (ns_password ns) (ns_desc ns)
  | d_ip => mkNs (ns_command ns) (ns_name ns) v (ns_user ns) (ns_password ns) (ns_desc ns)
  | d_user => mkNs (ns_command ns) (ns_name ns) (ns_ip ns) v (ns_password ns) (ns_desc ns)
  | d_password => mkNs (ns_command ns) (ns_name ns) (ns_ip ns) (ns_user ns) v (ns_desc ns)
  | d_desc => mkNs (ns_command ns) (ns_name ns) (ns_ip ns) (ns_user ns) (ns_password ns) v
  end.

Definition ns_set_command (c : string) (ns : Namespace) : Namespace :=
  mkNs (Some c) (ns_name ns) (ns_ip ns) (ns_user ns) (ns_password ns) (ns_desc ns).

Inductive usage_error : Type :=
  | ErrRequired (names : list string)        (* the following arguments are required *)
  | ErrUnrecognized (argv : list string)     (* unrecognized arguments *)
  | ErrInvalidChoice (choice : string)       (* argument command: invalid choice *)
  | ErrExpectedOneArgument (option_string : string)
  | ErrIgnoredExplicit (explicit_arg : string)
  | ErrAmbiguous (arg_string : string) (matches : list string).

Inductive parsing (A : Type) : Type :=
  | Got (a : A)
  | ExitHelp
  | ExitError (e : usage_error).
Arguments Got {A} a.
Arguments ExitHelp {A}.
Arguments ExitError {A} e.

Fixpoint lookup_option (tbl : list (string * Action)) (s : string) : option Action :=
  match tbl with
  | [] => None
  | (os, a) :: tbl' => if String.eqb os s then Some a else lookup_option tbl' s
  end.

(** [s.split('=', 1)] when ['=' in s]. *)
Fixpoint split_eq (s : string) : option (string * string) :=
  match s with
  | EmptyString => None
  | String c t =>
      if ch_eqb c "="%char then Some (EmptyString, t)
      else match split_eq t with
           | Some (a, b) => Some (String c a, b)
           | None => None
           end
  end.

Definition is_dash (c : ascii) : bool := ch_eqb c "-"%char.

Definition second_is_dash (s : string) : bool :=
  match s with
  | String _ (String c _) => is_dash c
  | _ => false
  end.

Definition str_take2 (s : string) : string :=
  match s with
  | String a (String b _) => String a (String b EmptyString)
  | _ => s
  end.

Definition str_drop2 (s : string) : string :=
  match s with
  | String _ (String _ t) => t
  | _ => EmptyString
  end.

Definition is_digit (c : ascii) : bool :=
  (48 <=? N_of_ascii c) && (N_of_ascii c <=? 57).

Fixpoint all_digits (s : string) : bool :=
  match s with
  | EmptyString => true
  | String c t => is_digit c && all_digits t
  end.

Definition digits1 (s : string) : bool :=
  match s with
  | EmptyString => false
  | String _ _ => all_digits s
  end.

(** What follows the leading digits of [s]. *)
Fixpoint after_digits (s : string) : string :=
  match s with
  | EmptyString => EmptyString
  | String c t => if is_digit c then after_digits t else s
  end.

(** [s] without its last character when that is a line feed: in a
    regular expression [$] also matches just before a final newline. *)
Fixpoint strip_final_newline (s : string) : string :=
  match s with
  | EmptyString => EmptyString
  | String c EmptyString => if ch_eqb c LF then EmptyString else s
  | String c t => String c (strip_final_newline t)
  end.

(** [_negative_number_matcher]: [^-\d+$|^-\d*\.\d+$]. *)
Definition negative_number (s : string) : bool :=
  match s with
  | String c t =>
      is_dash c &&
      (let t' := strip_final_newline t in
       digits1 t' ||
       match after_digits t' with
       | String d r => ch_eqb d "."%char && digits1 r
       | EmptyString => false
       end)
  | EmptyString => false
  end.

(** [_get_option_tuples], called on a string of two characters or more
    that starts with a dash; abbreviations are allowed. *)
Definition _get_option_tuples (tbl : list (string * Action)) (option_string : string)
    : list (Action * string * option string) :=
  if second_is_dash option_string then
    let '(option_prefix, explicit_arg) :=
      match split_eq option_string with
      | Some (p, e) => (p, Some e)
      | None => (option_string, None)
      end in
    flat_map (fun '(os, a) =>
      if String.prefix option_prefix os then [(a, os, explicit_arg)] else []) tbl
  else
    let short_option_prefix := str_take2 option_string in
    let short_explicit_arg := str_drop2 option_string in
    flat_map (fun '(os, a) =>
      if String.eqb os short_option_prefix then [(a, os, Some short_explicit_arg)]
      else if String.prefix option_string os then [(a, os, None)]
      else []) tbl.

(** The letter of an arg string in [arg_strings_pattern], with the option
    tuple of an ['O']. *)
Inductive arg_class : Type :=
  | ArgA
  | ArgDash
  | ArgO (action : option Action) (option_string : string) (explicit_arg : option string).

(** [_parse_optional]: [Got None] for a positional, [Got (Some tuple)]
    for an option, an error for an ambiguous abbreviation. *)
Definition _parse_optional (tbl : list (string * Action)) (arg_string : string)
    : parsing (option (option Action * string * option string)) :=
  match arg_string with
  | EmptyString => Got None
  | String c t =>
      if negb (is_dash c) then Got None
      else match lookup_option tbl arg_string with
      | Some a => Got (Some (Some a, arg_string, None))
      | None =>
      match t with
      | EmptyString => Got None
      | String _ _ =>
      match
        match split_eq arg_string with
        | Some (os, e) =>
            match lookup_option tbl os with
            | Some a => Some (Some a, os, Some e)
            | None => None
            end
        | None => None
        end
      with
      | Some tuple => Got (Some tuple)
      | None =>
      match _get_option_tuples tbl arg_string with
      | (_ :: _ :: _) as tuples =>
          ExitError (ErrAmbiguous arg_string (map (fun tu => snd (fst tu)) tuples))
      | [(a, os, e)] => Got (Some (Some a, os, e))
      | [] =>
          if negative_number arg_string then Got None
          else if str_contains " "%char arg_string then Got None
          else Got (Some (None, arg_string, None))
      end end end end
  end.

(** The first loop of [_parse_known_args]: every arg string gets its
    letter; after the first [--] all arg strings are arguments. *)
Fixpoint classify (tbl : list (string * Action)) (after_dashes : bool)
    (arg_strings : list string) : parsing (list (string * arg_class)) :=
  match arg_strings with
  | [] => Got []
  | s :: rest =>
      if after_dashes then
        match classify tbl true rest with
        | Got l => Got ((s, ArgA) :: l)
        | ExitHelp => ExitHelp
        | ExitError e => ExitError e
        end
      else if String.eqb s "--" then
        match classify tbl true rest with
        | Got l => Got ((s, ArgDash) :: l)
        | ExitHelp => ExitHelp
        | ExitError e => ExitError e
        end
      else
        match _parse_optional tbl s with
        | Got o =>
            match classify tbl false rest with
            | Got l =>
                Got ((s, match o with
                         | None => ArgA
                         | Some (a, os, e) => ArgO a os e
                         end) :: l)
            | ExitHelp => ExitHelp
            | ExitError e => ExitError e
            end
        | ExitHelp => ExitHelp
        | ExitError e => ExitError e
        end
  end.

(** What [consume_optional] settles before it takes the actions: the
    action tuples, and whether the next arg string is used up. *)
Inductive consumed : Type :=
  | Take (action_tuples : list (Action * list string)) (uses_next : bool)
  | Bad (e : usage_error).

(** [consume_optional] without an explicit argument: the arguments of
    the option are matched against the arg strings that follow;
    [next_arg] is the next arg string when its letter is ['A']. *)
Definition consume_following (action : Action) (option_string : string)
    (action_tuples : list (Action * list string)) (next_arg : option string) : consumed :=
  match nargs action with
  | O => Take (action_tuples ++ [(action, [])]) false
  | S _ =>
      match next_arg with
      | Some a => Take (action_tuples ++ [(action, [a])]) true
      | None => Bad (ErrExpectedOneArgument option_string)
      end
  end.

(** [consume_optional] with the explicit argument [explicit_arg]: an
    option that takes one argument takes it; a single-dash option that
    takes none is followed by more single-dash options. *)
Fixpoint consume_explicit (tbl : list (string * Action)) (action : Action)
    (option_string : string) (explicit_arg : string)
    (action_tuples : list (Action * list string)) (next_arg : option string) : consumed :=
  match nargs action with
  | S _ => Take (action_tuples ++ [(action, [explicit_arg])]) false
  | O =>
      if second_is_dash option_string then Bad (ErrIgnoredExplicit explicit_arg)
      else
        match explicit_arg with
        | EmptyString => Bad (ErrIgnoredExplicit explicit_arg)
        | String c new_explicit_arg =>
            let option_string' := String "-"%char (String c EmptyString) in
            match lookup_option tbl option_string' with
            | Some action' =>
                match new_explicit_arg with
                | EmptyString =>
                    consume_following action' option_string'
                      (action_tuples ++ [(action, [])]) next_arg
                | String _ _ =>
                    consume_explicit tbl action' option_string' new_explicit_arg
                      (action_tuples ++ [(action, [])]) next_arg
                end
            | None => Bad (ErrIgnoredExplicit explicit_arg)
            end
        end
  end.

Definition consume_optional (tbl : list (string * Action)) (action : Action)
    (option_string : string) (explicit_arg : option string)
    (next_arg : option string) : consumed :=
  match explicit_arg with
  | Some e => consume_explicit tbl action option_string e [] next_arg
  | None => consume_following action option_string [] next_arg
  end.

(** [_get_values] for one argument string of an option with nargs=None:
    the first [--] is stripped before the strings are counted, and no
    string left gives the empty list. *)
Definition _get_values (arg_strings : list string) : value :=
  match arg_strings with
  | [s] => if String.eqb s "--" then VEmptyList else VStr s
  | _ => VEmptyList
  end.

(** [take_action] on the action tuples, in order. *)
Fixpoint take_actions (action_tuples : list (Action * list string))
    (seen_actions : list Dest) (ns : Namespace) : parsing (list Dest * Namespace) :=
  match action_tuples with
  | [] => Got (seen_actions, ns)
  | (HelpAction, _) :: _ => ExitHelp
  | (StoreAction d, args) :: tuples' =>
      take_actions tuples' (d :: seen_actions) (ns_set d (_get_values args) ns)
  end.

(** The main loop of [_parse_known_args] for a parser without
    positionals: an arg string that is not an option of the parser and
    not the argument of one joins the extras. *)
Fixpoint consume_args (tbl : list (string * Action)) (args : list (string * arg_class))
    (seen_actions : list Dest) (ns : Namespace) (extras : list string)
    : parsing (list Dest * Namespace * list string) :=
  match args with
  | [] => Got (seen_actions, ns, extras)
  | (s, ArgA) :: rest | (s, ArgDash) :: rest | (s, ArgO None _ _) :: rest =>
      consume_args tbl rest seen_actions ns (extras ++ [s])
  | (s, ArgO (Some action) option_string explicit_arg) :: rest =>
      let next_arg := match rest with (a, ArgA) :: _ => Some a | _ => None end in
      match consume_optional tbl action option_string explicit_arg next_arg with
      | Bad e => ExitError e
      | Take action_tuples uses_next =>
          match take_actions action_tuples seen_actions ns with
          | Got (seen', ns') =>
              match uses_next, rest with
              | true, _ :: rest' => consume_args tbl rest' seen' ns' extras
              | _, _ => consume_args tbl rest seen' ns' extras
              end
          | ExitHelp => ExitHelp
          | ExitError e => ExitError e
          end
      end
  end.

(** The names of the required options that were not seen. *)
Fixpoint required_actions (tbl : list (string * Action)) (seen_actions : list Dest)
    : list string :=
  match tbl with
  | [] => []
  | (os, StoreAction d) :: tbl' =>
      if existsb (dest_eqb d) seen_actions then required_actions tbl' seen_actions
      else os :: required_actions tbl' seen_actions
  | (_, HelpAction) :: tbl' => required_actions tbl' seen_actions
  end.

(** [parse_known_args] of a parser without positionals. *)
Definition parse_known_args (p : ArgumentParser) (arg_strings : list string)
    : parsing (Namespace * list string) :=
  let tbl := option_string_actions p in
  match classify tbl false arg_strings with
  | Got args =>
      match consume_args tbl args [] ns_default [] with
      | Got (seen_actions, ns, extras) =>
          match required_actions tbl seen_actions with
          | [] => Got (ns, extras)
          | (_ :: _) as names => ExitError (ErrRequired names)
          end
      | ExitHelp => ExitHelp
      | ExitError e => ExitError e
      end
  | ExitHelp => ExitHelp
  | ExitError e => ExitError e
  end.

Fixpoint lookup_parser (m : list (string * ArgumentParser)) (s : string)
    : option ArgumentParser :=
  match m with
  | [] => None
  | (n, p) :: m' => if String.eqb n s then Some p else lookup_parser m' s
  end.

(** The sub-parsers action, called on the arg strings from the command
    name on: the name is checked against the choices, the sub-parser
    parses the rest, and what it did not recognise is handed back. *)
Definition subparsers_action (top : TopParser) (parser_name : string)
    (arg_strings : list string) : parsing (Namespace * list string) :=
  match lookup_parser (name_parser_map top) parser_name with
  | None => ExitError (ErrInvalidChoice parser_name)
  | Some p =>
      match parse_known_args p arg_strings with
      | Got (ns, extras) => Got (ns_set_command parser_name ns, extras)
      | ExitHelp => ExitHelp
      | ExitError e => ExitError e
      end
  end.

(** [parse_args]: unrecognised arguments are an error. *)
Definition finish_parse (r : Namespace * list string) : parsing Namespace :=
  match snd r with
  | [] => Got (fst r)
  | (_ :: _) as argv => ExitError (ErrUnrecognized argv)
  end.

(** The main loop of the top-level parser, whose one positional is the
    sub-parsers action (nargs=PARSER): it takes the first arg string
    that is not an option together with everything after it. *)
Fixpoint top_consume (top : TopParser) (args : list (string * arg_class))
    (extras : list string) : parsing Namespace :=
  match args with
  | [] => finish_parse (ns_default, extras)
  | (s, ArgO None _ _) :: rest => top_consume top rest (extras ++ [s])
  | (s, ArgO (Some action) option_string explicit_arg) :: rest =>
      let next_arg := match rest with (a, ArgA) :: _ => Some a | _ => None end in
      match consume_optional (option_string_actions (top_parser top))
              action option_string explicit_arg next_arg with
      | Bad e => ExitError e
      | Take action_tuples uses_next =>
          match take_actions action_tuples [] ns_default with
          | Got _ =>
              match uses_next, rest with
              | true, _ :: rest' => top_consume top rest' extras
              | _, _ => top_consume top rest extras
              end
          | ExitHelp => ExitHelp
          | ExitError e => ExitError e
          end
      end
  | (s, ArgDash) :: [] => finish_parse (ns_default, extras ++ [s])
  | (s, ArgA) :: rest | (s, ArgDash) :: rest =>
      match subparsers_action top s (map fst rest) with
      | Got (ns, extras') => finish_parse (ns, extras ++ extras')
      | ExitHelp => ExitHelp
      | ExitError e => ExitError e
      end
  end.

Definition parse_args (top : TopParser) (argv : list string) : parsing Namespace :=
  match classify (option_string_actions (top_parser top)) false argv with
  | Got args => top_consume top args []
  | ExitHelp => ExitHelp
  | ExitError e => ExitError e
  end.

(** ** The command line of the tool *)

Definition add_parser : ArgumentParser :=
  mkParser [("-h", HelpAction); ("--help", HelpAction);
            ("--name", StoreAction d_name); ("--ip", StoreAction d_ip);
            ("--user", StoreAction d_user); ("--password", StoreAction d_password);
            ("--desc", StoreAction d_desc)]%string.

Definition setup_cli : TopParser :=
  mkTop (mkParser [("-h", HelpAction); ("--help", HelpAction)]%string)
        [("add"%string, add_parser)].

(** ** The program ([if __name__ == "__main__":])

    What a run leaves behind: the file system, what was printed on the
    two streams, and the exit status.  The text of [print(inventory_data)]
    (the [repr] of a list of dicts), of the help and of the usage and
    traceback messages is not spelled out. *)

Inductive output : Type :=
  | PrintInventory (inventory : list record)   (* print(inventory_data) *)
  | PrintText (s : string)
  | PrintHelp.

Inductive diagnostic : Type :=
  | UsageError (e : usage_error)   (* usage and error message of argparse *)
  | Traceback (e : exn).           (* an exception nobody caught *)

Record outcome : Type := mkOutcome {
  final_fs : gmap string string;
  stdout : list output;
  stderr : list diagnostic;
  exit_status : Z
}.

Definition inventory_csv : string := "inventory.csv".

(** [str(v)], as the f-string of the success message formats a value. *)
Definition py_str (v : value) : string :=
  match v with
  | VNone => "None"
  | VStr s => s
  | VEmptyList => "[]"
  end.

Definition new_device_of (args : Namespace) : record :=
  [Field "Name" (ns_name args);
   Field "Management IP" (ns_ip args);
   Field "Username" (ns_user args);
   Field "Password" (ns_password args);
   Field "Description" (ns_desc args)].

Definition main (fs : gmap string string) (argv : list string) : outcome :=
  match read_inventory fs inventory_csv with
  | Raise e => mkOutcome fs [] [Traceback e] 1
  | Ok inventory =>
      (* the variable inventory_data holds the address of the list *)
      let inventory_data := 0%nat in
      let h : gmap nat (list record) := {[ inventory_data := inventory ]} in
      match parse_args setup_cli argv with
      | ExitHelp => mkOutcome fs [PrintHelp] [] 0
      | ExitError e => mkOutcome fs [] [UsageError e] 2
      | Got args =>
          match ns_command args with
          | None => mkOutcome fs [PrintInventory (default [] (h !! inventory_data))] [] 0
          | Some command =>
              if String.eqb command "add" then
                let new_device := new_device_of args in
                let h' := add_device h inventory_data new_device in
                match save_inventory fs inventory_csv (default [] (h' !! inventory_data)) with
                | (fs', Ok _) =>
                    mkOutcome fs'
                      [PrintText ("Device '" +:+ py_str (ns_name args) +:+ "' added and saved!")]
                      [] 0
                | (fs', Raise e) => mkOutcome fs' [] [Traceback e] 1
                end
              else mkOutcome fs [] [] 0
          end
      end
  end.

(** * Properties *)

(** [simpl] may compute the append of a text that starts with a known
    character. *)
#[local] Arguments String.append !_ _ / : simpl nomatch.

(** ** Specification vocabulary *)

(** *** Shapes of records *)

(** The record [d] has a ["Name"] key. *)
Definition has_name (d : record) : Prop := is_Some (dict_lookup "Name" d).

(** The ["Name"] of [d] is the text [s], character for character. *)
Definition name_is (d : record) (s : string) : Prop :=
  dict_lookup "Name" d = Some (VStr s).

(** The keys of [d] are exactly the five column names, in any order. *)
Definition has_exactly_five (d : record) : Prop :=
  dict_keys d ≡ₚ map Some fieldnames.

(** [d] lacks the column [k]. *)
Definition lacks_key (d : record) (k : string) : Prop := dict_lookup k d = None.

(** [d] has a key that is not one of the five column names. *)
Definition has_extra_key (d : record) : Prop :=
  ∃ k, k ∈ dict_keys d ∧ is_fieldname k = false.

(** Every column of [d] is bound to a text. *)
Definition text_valued (d : record) : Prop :=
  Forall (λ e, match e with Field _ v => ∃ s, v = VStr s | Rest _ => True end) d.

(** Texts that survive a save and a load: no carriage return (the
    Loader reads with universal newlines) and no more characters than
    the reader's field size limit. *)
Definition no_cr (s : string) : Prop := str_contains CR s = false.

Definition within_limit (s : string) : Prop := strlen s ≤ field_limit.

Definition clean (s : string) : Prop := no_cr s ∧ within_limit s.

(** Every text bound in an entry of [d] is [clean]. *)
Definition entries_clean (d : record) : Prop :=
  Forall (λ e, match e with Field _ (VStr s) => clean s | _ => True end) d.

(** Every text that a key of [d] is bound to is [clean]. *)
Definition values_clean (d : record) : Prop :=
  ∀ k s, dict_lookup k d = Some (VStr s) → clean s.

(** *** The file of an inventory *)

(** The file [save_inventory] is to leave: the header line, then one
    line per record, the cells in the order of [fieldnames]. *)
Definition header_line : string :=
  "Name,Management IP,Username,Password,Description" +:+ lineterminator.

(** The cell of column [k]: its value in [d], the empty text when [d]
    has no such key. *)
Definition cell_of (d : record) (k : string) : value :=
  match dict_lookup k d with
  | Some v => v
  | None => VStr ""
  end.

Definition row_cells (d : record) : list value :=
  [cell_of d "Name"; cell_of d "Management IP"; cell_of d "Username";
   cell_of d "Password"; cell_of d "Description"].

Definition row_line (d : record) : string := writer_writerow (row_cells d).

Fixpoint rows_text (inventory : list record) : string :=
  match inventory with
  | [] => ""
  | d :: inventory' => row_line d +:+ rows_text inventory'
  end.

(** The texts of the cells of the row of [d]. *)
Definition row_texts (d : record) : list string := map cell_text (row_cells d).

(** The record as [read_inventory] gives it back after a save: the five
    columns in the order of the header, each bound to the text of its
    cell. *)
Definition reloaded (d : record) : record :=
  [Field "Name" (VStr (cell_text (cell_of d "Name")));
   Field "Management IP" (VStr (cell_text (cell_of d "Management IP")));
   Field "Username" (VStr (cell_text (cell_of d "Username")));
   Field "Password" (VStr (cell_text (cell_of d "Password")));
   Field "Description" (VStr (cell_text (cell_of d "Description")))].

(** [add_device], then [save_inventory], then [read_inventory], on the
    list at address [inventory_data] and the file [filename]: the
    result of the save and the result of the load. *)
Definition add_save_load (fs : gmap string string) (filename : string)
    (h : gmap nat (list record)) (inventory_data : nat) (new_device : record)
    : result unit * result (list record) :=
  let h' := add_device h inventory_data new_device in
  let saved := save_inventory fs filename (default [] (h' !! inventory_data)) in
  (snd saved, read_inventory (fst saved) filename).

(** *** Arg strings *)

Definition action_eqb (a b : Action) : bool :=
  match a, b with
  | HelpAction, HelpAction => true
  | StoreAction d, StoreAction d' => dest_eqb d d'
  | _, _ => false
  end.

(** The arg string [s] is an option string of the [add] parser for the
    action [a]: written in full, abbreviated, or with [=value]. *)
Definition names_action (a : Action) (s : string) : bool :=
  match _parse_optional (option_string_actions add_parser) s with
  | Got (Some (Some a', _, _)) => action_eqb a a'
  | _ => false
  end.

(** The arg strings after [add] do not give the flag of [d]. *)
Definition omits (d : Dest) (arg_strings : list string) : Prop :=
  Forall (λ s, names_action (StoreAction d) s = false) arg_strings.

(** One of the arg strings after [add] is a help flag. *)
Definition asks_help (arg_strings : list string) : Prop :=
  Exists (λ s, names_action HelpAction s = true) arg_strings.

(** Among classified arg strings, one is an option for the action [a]. *)
Definition has_option (a : Action) (l : list (string * arg_class)) : Prop :=
  ∃ s os e, (s, ArgO (Some a) os e) ∈ l.

(** *** Sample data *)

Definition router1 : record :=
  [Field "Name" (VStr "Router1"); Field "Management IP" (VStr "10.0.0.1");
   Field "Username" (VStr "admin"); Field "Password" (VStr "pass123");
   Field "Description" (VStr "Core router")].

(** A second record named Router1. *)
Definition router1_again : record :=
  [Field "Name" (VStr "Router1"); Field "Management IP" (VStr "10.0.0.9");
   Field "Username" (VStr "root"); Field "Password" (VStr "pass789");
   Field "Description" (VStr "Spare router")].

Definition switch1 : record :=
  [Field "Name" (VStr "Switch1"); Field "Management IP" (VStr "10.0.0.2");
   Field "Username" (VStr "admin"); Field "Password" (VStr "pass456");
   Field "Description" (VStr "Access switch")].

(** A record without the ["Name"] column, as a file whose header lacks
    it gives. *)
Definition nameless : record :=
  [Field "Management IP" (VStr "10.0.0.3"); Field "Username" (VStr "admin")].

(** [router1] without its ["Password"]. *)
Definition router1_no_password : record :=
  [Field "Name" (VStr "Router1"); Field "Management IP" (VStr "10.0.0.1");
   Field "Username" (VStr "admin"); Field "Description" (VStr "Core router")].

(** [switch1] with a key that is no column. *)
Definition switch1_with_location : record :=
  switch1 ++ [Field "Location" (VStr "Lab")].

(** [router1], its keys inserted in another order. *)
Definition router1_shuffled : record :=
  [Field "Description" (VStr "Core router"); Field "Password" (VStr "pass123");
   Field "Name" (VStr "Router1"); Field "Username" (VStr "admin");
   Field "Management IP" (VStr "10.0.0.1")].

(** A backing file with the one row of [router1]. *)
Definition sample_fs : gmap string string :=
  {[ inventory_csv := header_line +:+ row_line router1 ]}.

(** A backing file whose one data row stops after the second cell, the
    record the Loader makes of it, and the record that comes back once
    that one is saved. *)
Definition short_row_fs : gmap string string :=
  {[ inventory_csv := header_line +:+ "Router2,10.0.0.7" +:+ lineterminator ]}.

Definition router2_short : record :=
  [Field "Name" (VStr "Router2"); Field "Management IP" (VStr "10.0.0.7");
   Field "Username" VNone; Field "Password" VNone; Field "Description" VNone].

Definition router2_blank : record :=
  [Field "Name" (VStr "Router2"); Field "Management IP" (VStr "10.0.0.7");
   Field "Username" (VStr ""); Field "Password" (VStr ""); Field "Description" (VStr "")].

(** A description of two lines, the first ended by a carriage return or
    by a line feed, and a record that carries it. *)
Definition two_lines_cr : string := "rack 1" +:+ String CR "row 2".

Definition two_lines_lf : string := "rack 1" +:+ String LF "row 2".

Definition switch2 (description : string) : record :=
  [Field "Name" (VStr "Switch2"); Field "Management IP" (VStr "10.0.0.4");
   Field "Username" (VStr "admin"); Field "Password" (VStr "pass000");
   Field "Description" (VStr description)].

(** A backing file that shows the corners of the format: a quoted cell
    with a delimiter, a doubled quote and a line break, a blank line, a
    short row and a long row. *)
Definition corner_csv : string :=
  header_line +:+
  "Router1,10.0.0.1,admin,pass123," +:+
    String quotechar ("Core, " +:+ String quotechar (String quotechar ("main" +:+
    String quotechar (String quotechar (lineterminator +:+ "router" +:+
    String quotechar lineterminator))))) +:+
  lineterminator +:+
  "Router2,10.0.0.7" +:+ lineterminator +:+
  "Router3,10.0.0.8,admin,pass,Edge,spare,more" +:+ lineterminator.

Definition corner_description : string :=
  "Core, " +:+ String quotechar ("main" +:+ String quotechar (String LF "router")).

(** *** The writer and the reader, for the proofs *)

(** The written form of one cell, of the cells after the first, and of a
    row without its line terminator. *)
Definition enc_field (s : string) : string :=
  if field_quoted s then String quotechar (copy_field s +:+ String quotechar "")
  else copy_field s.

Fixpoint enc_rest (cells : list string) : string :=
  match cells with
  | [] => ""
  | c :: cs => String delimiter (enc_field c +:+ enc_rest cs)
  end.

Definition enc_row (cells : list string) : string :=
  match cells with
  | [] => ""
  | c :: cs =>
      match enc_field c +:+ enc_rest cs with
      | EmptyString => String quotechar (String quotechar "")
      | String a t => String a t
      end
  end.

(** A file of rows as the writer leaves it, and as the reader sees it
    through universal newlines. *)
Fixpoint crlf_rows (rows : list (list string)) : string :=
  match rows with
  | [] => ""
  | r :: rs => enc_row r +:+ lineterminator +:+ crlf_rows rs
  end.

Fixpoint lf_rows (rows : list (list string)) : string :=
  match rows with
  | [] => ""
  | r :: rs => enc_row r +:+ String LF (lf_rows rs)
  end.

(** The reader fed character by character: the end-of-line mark follows
    each line feed.  On a text that is empty or ends with a line feed
    this is [reader_rows] on the lines of the text. *)
Fixpoint stream_rows (r : ReaderObj) (s : string) : result (list (list string)) :=
  match s with
  | EmptyString => reader_rows r []
  | String c t =>
      r1 ← parse_process_char r (Ch c);
      if ch_eqb c LF then
        r2 ← parse_process_char r1 EOL;
        if state_eqb (rd_state r2) START_RECORD
        then rows ← stream_rows parse_reset t; Ok (rd_fields r2 :: rows)
        else stream_rows r2 t
      else stream_rows r1 t
  end.

Fixpoint ends_with_lf (s : string) : bool :=
  match s with
  | EmptyString => false
  | String c EmptyString => ch_eqb c LF
  | String _ t => ends_with_lf t
  end.

(** The reader holds the complete field [f] after the fields [fs], and
    waits for a delimiter or an end of line. *)
Definition pending (r : ReaderObj) (f : string) (fs : list string) : Prop :=
  rd_fields r = fs ∧ rd_field r = f ∧ rd_field_len r = strlen f ∧
  (rd_state r = IN_FIELD ∨ rd_state r = QUOTE_IN_QUOTED_FIELD ∨
   (rd_state r = START_FIELD ∧ f = ""%string)).

(** What the reader keeps true on input without carriage return. *)
Definition reader_inv (r : ReaderObj) : Prop :=
  Forall clean (rd_fields r) ∧ no_cr (rd_field r) ∧
  rd_field_len r = strlen (rd_field r) ∧ rd_field_len r ≤ field_limit.

(** *** Loaded records *)

(** What an entry of a loaded record can be: a column bound to [None]
    or to a [clean] text, or the key [None] bound to a list, not empty,
    of [clean] texts. *)
Definition entry_loaded (e : entry) : Prop :=
  match e with
  | Field _ VNone => True
  | Field _ (VStr s) => clean s
  | Field _ VEmptyList => False
  | Rest vs => vs ≠ [] ∧ Forall clean vs
  end.

(** A backing file whose header has the columns in another order and
    lacks two of them. *)
Definition three_columns_fs : gmap string string :=
  {[ inventory_csv :=
       "Management IP,Name,Username" +:+ lineterminator +:+
       "10.0.0.1,Router1,admin" +:+ lineterminator +:+
       "10.0.0.2,Switch1" +:+ lineterminator ]}.

Definition three_columns_inventory : list record :=
  [[Field "Management IP" (VStr "10.0.0.1"); Field "Name" (VStr "Router1");
    Field "Username" (VStr "admin")];
   [Field "Management IP" (VStr "10.0.0.2"); Field "Name" (VStr "Switch1");
    Field "Username" VNone]].

(** *** Command lines of [add] *)

(** The option string of each flag, written in full. *)
Definition flag_of (d : Dest) : string :=
  match d with
  | d_name => "--name"
  | d_ip => "--ip"
  | d_user => "--user"
  | d_password => "--password"
  | d_desc => "--desc"
  end.

Definition all_dests : list Dest := [d_name; d_ip; d_user; d_password; d_desc].

(** An arg string that does not start with a dash. *)
Definition plain (s : string) : Prop :=
  match s with
  | EmptyString => True
  | String c _ => is_dash c = false
  end.

(** Flags in any order and any number, each followed by its value. *)
Definition flag_args (flags : list (Dest * string)) : list string :=
  flat_map (λ f, [flag_of (fst f); snd f]) flags.

(** The attribute of a flag in a namespace. *)
Definition ns_get (d : Dest) (ns : Namespace) : value :=
  match d with
  | d_name => ns_name ns
  | d_ip => ns_ip ns
  | d_user => ns_user ns
  | d_password => ns_password ns
  | d_desc => ns_desc ns
  end.

(** The namespace with the values of the flags stored from left to
    right: the last value of a flag stays. *)
Definition ns_of (flags : list (Dest * string)) : Namespace :=
  fold_left (λ ns f, ns_set (fst f) (VStr (snd f)) ns) flags ns_default.

(** Whether the flag of [d] is among the flags. *)
Definition given (flags : list (Dest * string)) (d : Dest) : bool :=
  existsb (dest_eqb d) (map fst flags).

(** The option strings of the flags that are not given, in the order of
    [add_argument]. *)
Definition missing_flags (flags : list (Dest * string)) : list string :=
  map flag_of (List.filter (λ d, negb (given flags d)) all_dests).

Definition switch1_flags : list (Dest * string) :=
  [(d_name, "Switch1"); (d_ip, "10.0.0.2"); (d_user, "admin");
   (d_password, "pass456"); (d_desc, "Access switch")]%string.

(** The records of [corner_csv]: the first with the quoted description,
    [router2_short], and one of a row that is longer than the header. *)
Definition router1_corner : record :=
  [Field "Name" (VStr "Router1"); Field "Management IP" (VStr "10.0.0.1");
   Field "Username" (VStr "admin"); Field "Password" (VStr "pass123");
   Field "Description" (VStr corner_description)].

Definition router3_long : record :=
  [Field "Name" (VStr "Router3"); Field "Management IP" (VStr "10.0.0.8");
   Field "Username" (VStr "admin"); Field "Password" (VStr "pass");
   Field "Description" (VStr "Edge"); Rest ["spare"; "more"]%string].

Definition corner_fs : gmap string string := {[ inventory_csv := corner_csv ]}.

(** The message of a successful [add]. *)
Definition added_message (name : value) : output :=
  PrintText ("Device '" +:+ py_str name +:+ "' added and saved!").

(** *** Lines, for the proofs *)

(** A line feed in [s] is its last character. *)
Fixpoint lf_at_end (s : string) : Prop :=
  match s with
  | EmptyString => True
  | String c t => (ch_eqb c LF = true → t = EmptyString) ∧ lf_at_end t
  end.

(** The number of characters of some lines. *)
Fixpoint lines_len (lines : list string) : N :=
  match lines with
  | [] => 0
  | line :: lines' => strlen line + lines_len lines'
  end.

(** *** JSON texts *)

(** A character of a JSON text that is plain ASCII: a line feed or a
    character from the space to the tilde. *)
Definition json_char (c : ascii) : bool :=
  ch_eqb c LF || ((32 <=? N_of_ascii c) && (N_of_ascii c <=? 126)).

Fixpoint str_forallb (p : ascii → bool) (s : string) : bool :=
  match s with
  | EmptyString => true
  | String c t => p c && str_forallb p t
  end.




(** *** The CSV text of a row

    The format of the file, stated on its own.  A cell is written
    between quotes, with every quote in it doubled, when it holds a
    comma, a quote, a carriage return or a line feed, and as it is
    otherwise; the five cells of a row are separated by commas, and the
    row ends with carriage return and line feed. *)

Definition crlf : string := String "013"%char (String "010"%char "").

Fixpoint must_be_quoted (s : string) : bool :=
  match s with
  | EmptyString => false
  | String c t =>
      Ascii.eqb c ","%char || Ascii.eqb c "034"%char || Ascii.eqb c "013"%char
      || Ascii.eqb c "010"%char || must_be_quoted t
  end.

Fixpoint quotes_doubled (s : string) : string :=
  match s with
  | EmptyString => EmptyString
  | String c t =>
      if Ascii.eqb c "034"%char
      then String "034"%char (String "034"%char (quotes_doubled t))
      else String c (quotes_doubled t)
  end.

Definition csv_cell (s : string) : string :=
  if must_be_quoted s
  then String "034"%char (quotes_doubled s +:+ String "034"%char "")
  else s.

(** The text written for a value: a text as it is, nothing for [None],
    and [str()] of anything else. *)
Definition written_text (v : value) : string :=
  match v with
  | VStr s => s
  | VNone => ""
  | VEmptyList => "[]"
  end.

(** The text of the column [k] of [d]. *)
Definition column_text (d : record) (k : string) : string :=
  match dict_lookup k d with
  | Some v => written_text v
  | None => ""
  end.

Definition csv_header : string :=
  "Name,Management IP,Username,Password,Description" +:+ crlf.

Definition csv_row (d : record) : string :=
  csv_cell (column_text d "Name") +:+ "," +:+
  csv_cell (column_text d "Management IP") +:+ "," +:+
  csv_cell (column_text d "Username") +:+ "," +:+
  csv_cell (column_text d "Password") +:+ "," +:+
  csv_cell (column_text d "Description") +:+ crlf.

Fixpoint csv_rows (inventory : list record) : string :=
  match inventory with
  | [] => ""
  | d :: inventory' => csv_row d +:+ csv_rows inventory'
  end.

(** What separates the cells and the rows of a CSV text: its commas,
    carriage returns and line feeds that are not between quotes;
    [quoted] tells whether a quote is open. *)
Fixpoint separators (quoted : bool) (s : string) : string :=
  match s with
  | EmptyString => EmptyString
  | String c t =>
      if Ascii.eqb c "034"%char then separators (negb quoted) t
      else if quoted then separators quoted t
      else if Ascii.eqb c ","%char || Ascii.eqb c "013"%char || Ascii.eqb c "010"%char
      then String c (separators quoted t)
      else separators quoted t
  end.

(** The separators of a row of five cells. *)
Definition five_cells : string := ",,,," +:+ crlf.

Fixpoint times (n : nat) (s : string) : string :=
  match n with
  | O => ""
  | S n' => s +:+ times n' s
  end.

(** [router1] with its keys in another order, a quote in its password
    and a comma and a line feed in its description; [switch1] with an
    empty description. *)
Definition router1_quoted : record :=
  [Field "Description" (VStr ("Core, main" +:+ String "010"%char "router"));
   Field "Password" (VStr ("pa" +:+ String "034"%char "ss"));
   Field "Name" (VStr "Router1"); Field "Username" (VStr "admin");
   Field "Management IP" (VStr "10.0.0.1")].

Definition switch1_blank : record :=
  [Field "Name" (VStr "Switch1"); Field "Management IP" (VStr "10.0.0.2");
   Field "Username" (VStr "admin"); Field "Password" (VStr "pass456");
   Field "Description" (VStr "")].

(** A backing file whose header has no ["Name"] column: it loads as
    [[nameless]]. *)
Definition nameless_fs : gmap string string :=
  {[ inventory_csv :=
       "Management IP,Username" +:+ lineterminator +:+
       "10.0.0.3,admin" +:+ lineterminator ]}.

(** ** The models on examples *)

Example read_inventory_corners :
  read_inventory {[ inventory_csv := corner_csv ]} inventory_csv
  = Ok [[Field "Name" (VStr "Router1"); Field "Management IP" (VStr "10.0.0.1");
         Field "Username" (VStr "admin"); Field "Password" (VStr "pass123");
         Field "Description" (VStr corner_description)];
        router2_short;
        [Field "Name" (VStr "Router3"); Field "Management IP" (VStr "10.0.0.8");
         Field "Username" (VStr "admin"); Field "Password" (VStr "pass");
         Field "Description" (VStr "Edge"); Rest ["spare"; "more"]%string]].
Proof. reflexivity. Qed.

Example read_inventory_no_file :
  read_inventory ∅ inventory_csv = Raise FileNotFoundError.
Proof. reflexivity. Qed.

Example parse_args_examples :
  parse_args setup_cli [] = Got ns_default
  ∧ parse_args setup_cli
      ["add"; "--name"; "Switch1"; "--ip"; "10.0.0.2"; "--user"; "admin";
       "--password"; "pass456"; "--desc"; "Access switch"]%string
    = Got (mkNs (Some "add"%string) (VStr "Switch1") (VStr "10.0.0.2") (VStr "admin")
             (VStr "pass456") (VStr "Access switch"))
  ∧ parse_args setup_cli
      ["add"; "--n"; "Switch1"; "--ip=10.0.0.2"; "--u"; "admin"; "--pass"; "pass456";
       "--d=Access switch"]%string
    = Got (mkNs (Some "add"%string) (VStr "Switch1") (VStr "10.0.0.2") (VStr "admin")
             (VStr "pass456") (VStr "Access switch"))
  ∧ parse_args setup_cli
      ["add"; "--name=--"; "--ip"; "10.0.0.2"; "--user"; "admin";
       "--password"; "pass456"; "--desc"; "-5"]%string
    = Got (mkNs (Some "add"%string) VEmptyList (VStr "10.0.0.2") (VStr "admin")
             (VStr "pass456") (VStr "-5"))
  ∧ parse_args setup_cli ["add"; "--name"; "Switch1"; "--desc"; "-x"]%string
    = ExitError (ErrExpectedOneArgument "--desc")
  ∧ parse_args setup_cli ["add"; "--name"; "Switch1"]%string
    = ExitError (ErrRequired ["--ip"; "--user"; "--password"; "--desc"]%string)
  ∧ parse_args setup_cli ["bogus"%string] = ExitError (ErrInvalidChoice "bogus")
  ∧ parse_args setup_cli
      ["add"; "--name"; "Switch1"; "--ip"; "10.0.0.2"; "--user"; "admin";
       "--password"; "pass456"; "--desc"; "Access switch"; "extra"]%string
    = ExitError (ErrUnrecognized ["extra"%string])
  ∧ parse_args setup_cli ["add"; "--=x"]%string
    = ExitError (ErrAmbiguous "--=x"
                   ["--help"; "--name"; "--ip"; "--user"; "--password"; "--desc"]%string)
  ∧ parse_args setup_cli ["-h"%string] = ExitHelp.
Proof. repeat split. Qed.

(** The run of the specification: the file holds [router1]; adding
    Switch1 leaves the two rows, Router1 first, and prints the
    confirmation. *)
Example main_add_switch1 :
  main sample_fs
    ["add"; "--name"; "Switch1"; "--ip"; "10.0.0.2"; "--user"; "admin";
     "--password"; "pass456"; "--desc"; "Access switch"]%string
  = mkOutcome
      {[ inventory_csv :=
           header_line +:+
           ("Router1,10.0.0.1,admin,pass123,Core router" +:+ lineterminator +:+
            "Switch1,10.0.0.2,admin,pass456,Access switch" +:+ lineterminator) ]}
      [PrintText "Device 'Switch1' added and saved!"] [] 0.
Proof. reflexivity. Qed.

(** ** Finder *)

Lemma value_eqb_true (v : value) (s : string) :
  value_eqb v s = true ↔ v = VStr s.
Proof.
  destruct v as [|t|]; simpl; split; try discriminate.
  - intros H. apply String.eqb_eq in H. by subst.
  - intros [= ->]. apply String.eqb_refl.
Qed.

Lemma value_eqb_false (v : value) (s : string) :
  value_eqb v s = false ↔ v ≠ VStr s.
Proof.
  rewrite <- value_eqb_true. destruct (value_eqb v s); split; congruence.
Qed.

Lemma get_device_data_match (d : record) (l : list record) (s : string) :
  name_is d s → get_device_data (d :: l) s = Ok (Some d).
Proof.
  unfold name_is. intros H. simpl. rewrite H. simpl. by rewrite String.eqb_refl.
Qed.

Lemma get_device_data_other (d : record) (l : list record) (s : string) :
  has_name d → ¬ name_is d s → get_device_data (d :: l) s = get_device_data l s.
Proof.
  unfold has_name, name_is. intros [v Hv] Hne. simpl. rewrite Hv.
  assert (value_eqb v s = false) as ->; [|done].
  apply value_eqb_false. congruence.
Qed.

Lemma get_device_data_no_name (d : record) (l : list record) (s : string) :
  dict_lookup "Name" d = None → get_device_data (d :: l) s = Raise KeyError.
Proof. intros H. simpl. by rewrite H. Qed.

Lemma name_is_dec (d : record) (s : string) : {name_is d s} + {¬ name_is d s}.
Proof.
  unfold name_is. destruct (dict_lookup "Name" d) as [v|]; [|right; discriminate].
  destruct (value_eqb v s) eqn:E.
  - left. apply value_eqb_true in E. by subst.
  - right. apply value_eqb_false in E. congruence.
Qed.

(** The refutation of C3 as stated: a record without the ["Name"] key,
    which the Loader gives for a file whose header has no such column,
    makes the Finder raise [KeyError] where a record or [None] is
    promised: before a record that has the target name, and in a list
    where no record has it. *)
Lemma get_device_data_nameless_first :
  read_inventory nameless_fs inventory_csv = Ok [nameless]
  ∧ (name_is router1 "Router1"
     ∧ get_device_data [nameless; router1] "Router1" = Raise KeyError)
  ∧ (Forall (λ d, ¬ name_is d "Router1") [nameless]
     ∧ get_device_data [nameless] "Router1" = Raise KeyError).
Proof.
  split; [reflexivity|]. split; split; try reflexivity.
  constructor; [discriminate | constructor].
Qed.

(** C3, amended. On an inventory whose records all carry a ["Name"],
    the Finder returns a record exactly when that record is the first
    one, in sequence order, whose ["Name"] is the target text itself
    (equality of texts: case matters, nothing is trimmed), so that of
    several records with the target name the earliest is returned; and
    it returns [None] exactly when no record has the target name. *)
Theorem get_device_data_first_match (inventory : list record) (device_name : string) :
  Forall has_name inventory →
  (∀ device,
     get_device_data inventory device_name = Ok (Some device) ↔
     ∃ before after,
       inventory = before ++ device :: after ∧
       name_is device device_name ∧
       Forall (λ d, ¬ name_is d device_name) before)
  ∧ (get_device_data inventory device_name = Ok None ↔
     Forall (λ d, ¬ name_is d device_name) inventory).
Proof.
  induction 1 as [|d l Hd Hl [IHsome IHnone]].
  - split.
    + intros device. simpl. split; [discriminate|].
      intros (before & after & E & _). by destruct before.
    + simpl. split; [constructor | done].
  - destruct (name_is_dec d device_name) as [Hm|Hm].
    + rewrite (get_device_data_match _ _ _ Hm). split.
      * intros device. split.
        -- intros [= <-]. exists [], l. repeat split; [done | constructor].
        -- intros (before & after & E & Hdev & Hbefore).
           destruct before as [|b before]; simpl in E.
           ++ by injection E as -> _.
           ++ injection E as -> _. by inversion Hbefore.
      * split; [discriminate|]. intros H. by inversion H.
    + rewrite (get_device_data_other _ _ _ Hd Hm). split.
      * intros device. rewrite IHsome. split.
        -- intros (before & after & -> & Hdev & Hbefore).
           exists (d :: before), after. repeat split; [done | by constructor].
        -- intros (before & after & E & Hdev & Hbefore).
           destruct before as [|b before]; simpl in E.
           ++ injection E as -> _. done.
           ++ injection E as -> ->. inversion Hbefore; subst.
              by exists before, after.
      * rewrite IHnone. split; [by constructor | by inversion 1].
Qed.

Lemma get_device_data_first_match_witness :
  Forall has_name [router1; switch1; router1_again] ∧
  get_device_data [router1; switch1; router1_again] "Router1" = Ok (Some router1) ∧
  get_device_data [router1; switch1; router1_again] "router1" = Ok None.
Proof.
  assert (Forall has_name [router1; switch1; router1_again]) as H
    by (repeat constructor; by eexists).
  split; [exact H|]. split.
  - apply (get_device_data_first_match _ "Router1" H).
    exists [], [switch1; router1_again]. repeat split. constructor.
  - apply (get_device_data_first_match _ "router1" H).
    repeat constructor; discriminate.
Defined.

(** The comparison is on the texts as they are: another case or a
    surrounding blank is another name. *)
Example get_device_data_is_exact :
  get_device_data [router1; switch1] "switch1" = Ok None ∧
  get_device_data [router1; switch1] "Switch1 " = Ok None ∧
  get_device_data [router1; switch1] " Switch1" = Ok None ∧
  get_device_data [router1; switch1] "Switch1" = Ok (Some switch1).
Proof. repeat split. Qed.

(** C9. When a record without the ["Name"] key comes before any record
    with the target name, the Finder raises [KeyError]: it returns
    neither a record nor [None]. *)
Theorem get_device_data_missing_name (before after : list record) (device : record)
    (device_name : string) :
  Forall (λ d, ¬ name_is d device_name) before →
  dict_lookup "Name" device = None →
  get_device_data (before ++ device :: after) device_name = Raise KeyError.
Proof.
  intros Hbefore Hnone. induction Hbefore as [|b before Hb _ IH]; simpl.
  - by rewrite Hnone.
  - destruct (dict_lookup "Name" b) as [v|] eqn:Ev; [|done].
    assert (value_eqb v device_name = false) as ->; [|exact IH].
    apply value_eqb_false. unfold name_is in Hb. congruence.
Qed.

Lemma get_device_data_missing_name_witness :
  get_device_data ([switch1] ++ nameless :: [router1]) "Router1" = Raise KeyError.
Proof.
  apply get_device_data_missing_name.
  - repeat constructor. discriminate.
  - reflexivity.
Defined.

(** ** Mutator *)

(** C4. After [add_device] the list object the caller passed holds its
    former records, unchanged and in their order, followed by the new
    record; no other object changes.  Nothing is asked of the new record:
    one whose ["Name"] is already in the list is appended like any other. *)
Theorem add_device_appends (h : gmap nat (list record)) (inventory : nat)
    (old : list record) (new_device : record) :
  h !! inventory = Some old →
  add_device h inventory new_device !! inventory = Some (old ++ [new_device])
  ∧ (∀ other, other ≠ inventory →
       add_device h inventory new_device !! other = h !! other).
Proof.
  intros H. unfold add_device. split.
  - by rewrite lookup_alter_eq, H.
  - intros other Hne. by rewrite lookup_alter_ne.
Qed.

Lemma add_device_appends_witness :
  add_device {[ 0%nat := [router1; switch1] ]} 0%nat router1_again !! 0%nat
  = Some ([router1; switch1] ++ [router1_again]).
Proof.
  apply (add_device_appends {[ 0%nat := [router1; switch1] ]} 0%nat
           [router1; switch1] router1_again).
  reflexivity.
Defined.

(** Two variables bound to the same list see the same change. *)
Lemma add_device_aliased (h : gmap nat (list record)) (inventory alias : nat)
    (old : list record) (new_device : record) :
  alias = inventory →
  h !! inventory = Some old →
  add_device h inventory new_device !! alias = Some (old ++ [new_device]).
Proof. intros -> H. unfold add_device. by rewrite lookup_alter_eq, H. Qed.

(** ** Texts *)

Lemma str_app_assoc (a b c : string) : (a +:+ b) +:+ c = a +:+ (b +:+ c).
Proof. induction a as [|x a IH]; simpl; [done | by f_equal]. Qed.

Lemma str_app_nil_r (a : string) : a +:+ "" = a.
Proof. induction a as [|x a IH]; simpl; [done | by f_equal]. Qed.

Lemma ch_eqb_eq (a b : ascii) : ch_eqb a b = true ↔ a = b.
Proof. apply Ascii.eqb_eq. Qed.

Lemma ch_eqb_refl (a : ascii) : ch_eqb a a = true.
Proof. by apply ch_eqb_eq. Qed.

Lemma strlen_app (a b : string) : strlen (a +:+ b) = strlen a + strlen b.
Proof.
  unfold strlen. induction a as [|x a IH]; simpl String.length; [lia|].
  rewrite !Nat2N.inj_succ. lia.
Qed.

(** ** Dictionaries *)

Lemma dict_lookup_elem (k : string) (v : value) (d : record) :
  dict_lookup k d = Some v → Field k v ∈ d.
Proof.
  induction d as [|[k' v'|vs] d IH]; simpl; [done| |].
  - destruct (String.eqb k' k) eqn:E.
    + apply String.eqb_eq in E. intros [= ->]. subst. left.
    + intros H. right. auto.
  - intros H. right. auto.
Qed.

Lemma dict_lookup_None (k : string) (d : record) :
  dict_lookup k d = None ↔ Some k ∉ dict_keys d.
Proof.
  induction d as [|[k' v'|vs] d IH]; simpl.
  - split; [intros _; apply not_elem_of_nil | done].
  - rewrite not_elem_of_cons. destruct (String.eqb k' k) eqn:E.
    + apply String.eqb_eq in E. subst. split; [discriminate | intros [? _]; done].
    + apply String.eqb_neq in E. rewrite IH. split; [|tauto].
      intros H. split; [congruence | done].
  - rewrite not_elem_of_cons. rewrite IH. split; [|tauto]. intros H. split; done.
Qed.

Lemma dict_lookup_NoDup (k : string) (v : value) (d : record) :
  NoDup (dict_keys d) → Field k v ∈ d → dict_lookup k d = Some v.
Proof.
  induction d as [|e d IH]; simpl; [by intros _ ?%elem_of_nil|].
  intros [Hnot Hnd]%NoDup_cons [<-|Hin]%elem_of_cons.
  - simpl. by rewrite String.eqb_refl.
  - destruct e as [k' v'|vs]; [|by apply IH].
    destruct (String.eqb k' k) eqn:E; [|by apply IH].
    apply String.eqb_eq in E. subst. exfalso. apply Hnot. simpl.
    apply (list_elem_of_fmap_2 entry_key) in Hin. exact Hin.
Qed.

(** Two dicts with the same entries, inserted in different orders, bind
    every key to the same value. *)
Lemma dict_lookup_perm (d d' : record) (k : string) :
  NoDup (dict_keys d) → d ≡ₚ d' → dict_lookup k d = dict_lookup k d'.
Proof.
  intros Hnd Hp.
  assert (NoDup (dict_keys d')) as Hnd'.
  { unfold dict_keys in *. by rewrite <- Hp. }
  destruct (dict_lookup k d) as [v|] eqn:E.
  - symmetry. apply dict_lookup_NoDup; [done|]. rewrite <- Hp.
    by apply dict_lookup_elem.
  - symmetry. apply dict_lookup_None. apply dict_lookup_None in E.
    unfold dict_keys in *. by rewrite <- Hp.
Qed.

Lemma text_valued_lookup (d : record) (k : string) (v : value) :
  text_valued d → dict_lookup k d = Some v → ∃ s, v = VStr s.
Proof.
  unfold text_valued. intros H Hk%dict_lookup_elem.
  rewrite Forall_forall in H. by apply (H _ Hk).
Qed.

Lemma has_exactly_five_NoDup (d : record) :
  has_exactly_five d → NoDup (dict_keys d).
Proof.
  unfold has_exactly_five. intros ->. simpl.
  repeat (apply NoDup_cons; split;
    [rewrite ?not_elem_of_cons; repeat split; (discriminate || apply not_elem_of_nil)|]).
  apply NoDup_nil_2.
Qed.

Lemma has_exactly_five_perm (d d' : record) :
  has_exactly_five d → d ≡ₚ d' → has_exactly_five d'.
Proof. unfold has_exactly_five, dict_keys. by intros H <-. Qed.

Lemma wrong_fields_nil (d : record) : wrong_fields d = [] ↔ ¬ has_extra_key d.
Proof.
  unfold wrong_fields, has_extra_key.
  induction (dict_keys d) as [|k ks IH]; simpl.
  - split; [|done]. intros _ (k & Hk%elem_of_nil & _). done.
  - destruct (is_fieldname k) eqn:E; simpl.
    + rewrite IH. split.
      * intros H (k' & [->|Hin]%elem_of_cons & Hk'); [congruence|].
        apply H. by exists k'.
      * intros H (k' & Hin & Hk'). apply H. exists k'. split; [by right | done].
    + split; [discriminate|]. intros H. exfalso. apply H. exists k. split; [left | done].
Qed.

Lemma has_exactly_five_no_extra (d : record) :
  has_exactly_five d → ¬ has_extra_key d.
Proof.
  unfold has_exactly_five. intros Hp (k & Hin & Hk).
  rewrite Hp in Hin. revert Hk.
  repeat (apply elem_of_cons in Hin as [->|Hin]; [discriminate|]).
  by apply elem_of_nil in Hin.
Qed.

Lemma has_exactly_five_lookup (d : record) (k : string) :
  has_exactly_five d → k ∈ fieldnames → is_Some (dict_lookup k d).
Proof.
  unfold has_exactly_five. intros Hp Hk.
  destruct (dict_lookup k d) as [v|] eqn:E; [by eexists|].
  apply dict_lookup_None in E. exfalso. apply E. rewrite Hp.
  by apply list_elem_of_fmap_2.
Qed.

(** ** Persister *)

Lemma writeheader_line : DictWriter_writeheader "" = (header_line, Ok tt).
Proof. reflexivity. Qed.

Lemma dict_to_list_ok (d : record) :
  ¬ has_extra_key d → _dict_to_list d = Ok (row_cells d).
Proof.
  intros H%wrong_fields_nil. unfold _dict_to_list. by rewrite H.
Qed.

Lemma dict_to_list_raise (d : record) :
  has_extra_key d → _dict_to_list d = Raise ValueError.
Proof.
  intros H. unfold _dict_to_list.
  destruct (wrong_fields d) eqn:E; [|done].
  by apply wrong_fields_nil in E.
Qed.

Lemma has_extra_key_dec (d : record) : {has_extra_key d} + {¬ has_extra_key d}.
Proof.
  destruct (wrong_fields d) eqn:E.
  - right. by apply wrong_fields_nil.
  - left. exists o.
    assert (In o (wrong_fields d)) as H by (rewrite E; by left).
    apply filter_In in H as [H1 H2]. split.
    + by apply list_elem_of_In.
    + by apply negb_true_iff.
Qed.

Lemma writerows_ok (file : string) (inventory : list record) :
  Forall (λ d, ¬ has_extra_key d) inventory →
  DictWriter_writerows file inventory = (file +:+ rows_text inventory, Ok tt).
Proof.
  intros H. revert file. induction H as [|d l Hd _ IH]; intros file; simpl.
  - by rewrite str_app_nil_r.
  - unfold DictWriter_writerow. rewrite (dict_to_list_ok d Hd).
    rewrite IH. by rewrite str_app_assoc.
Qed.

Lemma writerows_raise (file : string) (before after : list record) (d : record) :
  Forall (λ d, ¬ has_extra_key d) before →
  has_extra_key d →
  DictWriter_writerows file (before ++ d :: after)
  = (file +:+ rows_text before, Raise ValueError).
Proof.
  intros H Hd. revert file. induction H as [|b l Hb _ IH]; intros file; simpl.
  - unfold DictWriter_writerow. rewrite (dict_to_list_raise d Hd).
    by rewrite str_app_nil_r.
  - unfold DictWriter_writerow. rewrite (dict_to_list_ok b Hb).
    rewrite IH. by rewrite str_app_assoc.
Qed.

Lemma save_inventory_ok (fs : gmap string string) (filename : string)
    (inventory : list record) :
  Forall (λ d, ¬ has_extra_key d) inventory →
  save_inventory fs filename inventory
  = (<[filename := header_line +:+ rows_text inventory]> fs, Ok tt).
Proof.
  intros H. unfold save_inventory. rewrite writeheader_line.
  by rewrite (writerows_ok _ _ H).
Qed.

Lemma save_inventory_raise (fs : gmap string string) (filename : string)
    (before after : list record) (d : record) :
  Forall (λ d, ¬ has_extra_key d) before →
  has_extra_key d →
  save_inventory fs filename (before ++ d :: after)
  = (<[filename := header_line +:+ rows_text before]> fs, Raise ValueError).
Proof.
  intros H Hd. unfold save_inventory. rewrite writeheader_line.
  by rewrite (writerows_raise _ _ _ _ H Hd).
Qed.

(** The first record with an extra key. *)
Lemma first_extra_key (inventory : list record) :
  Exists has_extra_key inventory →
  ∃ before d after,
    inventory = before ++ d :: after ∧
    Forall (λ d, ¬ has_extra_key d) before ∧ has_extra_key d.
Proof.
  induction inventory as [|x l IH]; [by intros ?%Exists_nil|].
  intros H. destruct (has_extra_key_dec x) as [Hx|Hx].
  - exists [], x, l. repeat split; [constructor | done].
  - apply Exists_cons in H as [H|H]; [done|].
    destruct (IH H) as (before & d & after & -> & Hb & Hd).
    exists (x :: before), d, after. repeat split; [by constructor | done].
Qed.

(** C2. When some record has a key that is not one of the five column
    names, [save_inventory] raises [ValueError], the field-mapping error
    of [csv.DictWriter]; this happens while writing: the file has been
    opened and holds the header and the rows of the records that come
    before the first such record. *)
Theorem save_inventory_extra_key (fs : gmap string string) (filename : string)
    (inventory : list record) :
  Exists has_extra_key inventory →
  snd (save_inventory fs filename inventory) = Raise ValueError
  ∧ ∃ before d after,
      inventory = before ++ d :: after ∧
      Forall (λ d, ¬ has_extra_key d) before ∧ has_extra_key d ∧
      fst (save_inventory fs filename inventory)
      = <[filename := header_line +:+ rows_text before]> fs.
Proof.
  intros (before & d & after & -> & Hb & Hd)%first_extra_key.
  rewrite (save_inventory_raise _ _ _ _ _ Hb Hd). split; [done|].
  by exists before, d, after.
Qed.

Lemma save_inventory_extra_key_witness :
  snd (save_inventory ∅ inventory_csv [router1; switch1_with_location; router1_again])
  = Raise ValueError.
Proof.
  apply (save_inventory_extra_key ∅ inventory_csv
           [router1; switch1_with_location; router1_again]).
  apply Exists_cons_tl, Exists_cons_hd.
  exists (Some "Location"%string). split; [|reflexivity].
  unfold switch1_with_location, dict_keys. simpl. repeat constructor.
Defined.

(** The key [None] of a row with too many cells is an extra key too. *)
Example rest_is_extra_key (d : record) (vs : list string) :
  has_extra_key (d ++ [Rest vs]).
Proof.
  exists None. split; [|done]. unfold dict_keys. rewrite map_app.
  apply elem_of_app. right. simpl. left.
Qed.

(** The refutation of C1 as stated: a record without its ["Password"]
    is written, without any error, as a row whose password cell is
    blank. *)
Lemma save_inventory_missing_password_blank :
  lacks_key router1_no_password "Password" ∧
  save_inventory ∅ inventory_csv [router1_no_password]
  = (<[inventory_csv :=
         header_line +:+ ("Router1,10.0.0.1,admin,,Core router" +:+ lineterminator)]> ∅,
     Ok tt).
Proof. split; reflexivity. Qed.

(** C1, amended. A missing key is no error for [save_inventory]: when no
    record has a key other than the five column names, every record is
    written, and a record that lacks a column gets the empty text in the
    cell of that column, the other cells staying in their columns. *)
Theorem save_inventory_missing_keys_blank (fs : gmap string string) (filename : string)
    (inventory : list record) :
  Forall (λ d, ¬ has_extra_key d) inventory →
  save_inventory fs filename inventory
  = (<[filename := header_line +:+ rows_text inventory]> fs, Ok tt)
  ∧ (∀ d k, d ∈ inventory → lacks_key d k → cell_of d k = VStr "")
  ∧ (∀ d k v, d ∈ inventory → dict_lookup k d = Some v → cell_of d k = v).
Proof.
  intros H. split; [by apply save_inventory_ok|]. split.
  - intros d k _ Hk. unfold cell_of. by rewrite Hk.
  - intros d k v _ Hk. unfold cell_of. by rewrite Hk.
Qed.

Lemma save_inventory_missing_keys_blank_witness :
  save_inventory ∅ inventory_csv [router1_no_password; switch1]
  = (<[inventory_csv :=
         header_line +:+ rows_text [router1_no_password; switch1]]> ∅, Ok tt).
Proof.
  apply (save_inventory_missing_keys_blank ∅ inventory_csv [router1_no_password; switch1]).
  repeat constructor; apply wrong_fields_nil; reflexivity.
Defined.

Lemma row_cells_bound (d : record) :
  has_exactly_five d →
  Forall2 (λ k v, dict_lookup k d = Some v) fieldnames (row_cells d).
Proof.
  intros H. unfold fieldnames, row_cells, cell_of.
  repeat (apply Forall2_cons; split;
    [match goal with |- dict_lookup ?k d = _ =>
       destruct (has_exactly_five_lookup d k H) as [? ->];
       [unfold fieldnames; rewrite !elem_of_cons; tauto | done]
     end|]).
  apply Forall2_nil_2.
Qed.

Lemma row_line_perm (d d' : record) :
  has_exactly_five d → d ≡ₚ d' → row_line d = row_line d'.
Proof.
  intros H Hp. unfold row_line, row_cells, cell_of.
  by rewrite !(dict_lookup_perm d d' _ (has_exactly_five_NoDup d H) Hp).
Qed.

Lemma rows_text_perm (inventory inventory' : list record) :
  Forall has_exactly_five inventory →
  Forall2 (λ d d', d ≡ₚ d') inventory inventory' →
  rows_text inventory = rows_text inventory'.
Proof.
  intros H H2. induction H2 as [|d d' l l' Hp _ IH]; [done|].
  apply Forall_cons in H as [Hd Hl]. simpl.
  by rewrite (row_line_perm d d' Hd Hp), (IH Hl).
Qed.

(** C10. With an empty inventory [save_inventory] still rewrites the
    file, which then holds the header line and nothing else, and
    [read_inventory] on that file returns the empty list. *)
Theorem save_inventory_empty (fs : gmap string string) (filename : string) :
  save_inventory fs filename [] = (<[filename := header_line]> fs, Ok tt)
  ∧ read_inventory (fst (save_inventory fs filename [])) filename = Ok [].
Proof.
  assert (save_inventory fs filename [] = (<[filename := header_line]> fs, Ok tt)) as E.
  { rewrite (save_inventory_ok fs filename []); [|constructor].
    unfold rows_text. by rewrite str_app_nil_r. }
  split; [exact E|]. rewrite E. unfold read_inventory, fst.
  rewrite lookup_insert_eq. reflexivity.
Qed.

(** ** Command line *)

Example names_action_examples :
  names_action (StoreAction d_name) "--name" = true ∧
  names_action (StoreAction d_name) "--na" = true ∧
  names_action (StoreAction d_name) "--n=Switch1" = true ∧
  names_action (StoreAction d_name) "Switch1" = false ∧
  names_action (StoreAction d_name) "--desc" = false ∧
  names_action HelpAction "-h" = true ∧
  names_action HelpAction "--he" = true.
Proof. repeat split. Qed.

Lemma dest_eqb_eq (a b : Dest) : dest_eqb a b = true ↔ a = b.
Proof. destruct a, b; simpl; split; congruence. Qed.

Lemma action_eqb_eq (a b : Action) : action_eqb a b = true ↔ a = b.
Proof.
  destruct a as [|d], b as [|d']; simpl; try (split; congruence).
  rewrite dest_eqb_eq. split; congruence.
Qed.

Lemma classify_spec (tbl : list (string * Action)) (after_dashes : bool)
    (arg_strings : list string) (l : list (string * arg_class)) :
  classify tbl after_dashes arg_strings = Got l →
  map fst l = arg_strings ∧
  ∀ s a os e, (s, ArgO a os e) ∈ l → _parse_optional tbl s = Got (Some (a, os, e)).
Proof.
  revert after_dashes l.
  induction arg_strings as [|x xs IH]; intros after_dashes l; simpl.
  - intros [= <-]. split; [done|]. by intros ???? ?%elem_of_nil.
  - destruct after_dashes.
    + destruct (classify tbl true xs) as [l'| |] eqn:E; try discriminate.
      intros [= <-]. destruct (IH _ _ E) as [E1 E2]. simpl. split; [by f_equal|].
      intros s a os e [[=]|Hin]%elem_of_cons. eauto.
    + destruct (String.eqb x "--").
      * destruct (classify tbl true xs) as [l'| |] eqn:E; try discriminate.
        intros [= <-]. destruct (IH _ _ E) as [E1 E2]. simpl. split; [by f_equal|].
        intros s a os e [[=]|Hin]%elem_of_cons. eauto.
      * destruct (_parse_optional tbl x) as [o| |] eqn:Ex; try discriminate.
        destruct (classify tbl false xs) as [l'| |] eqn:E; try discriminate.
        intros [= <-]. destruct (IH _ _ E) as [E1 E2]. simpl. split; [by f_equal|].
        intros s a os e [Heq|Hin]%elem_of_cons; [|eauto].
        destruct o as [[[a' os'] e']|]; [|discriminate].
        by injection Heq as -> -> -> ->.
Qed.

Lemma parse_optional_not_help (tbl : list (string * Action)) (s : string) :
  _parse_optional tbl s ≠ ExitHelp.
Proof. unfold _parse_optional. repeat case_match; done. Qed.

Lemma classify_not_help (tbl : list (string * Action)) (after_dashes : bool)
    (arg_strings : list string) :
  classify tbl after_dashes arg_strings ≠ ExitHelp.
Proof.
  revert after_dashes. induction arg_strings as [|x xs IH]; intros b; simpl; [done|].
  pose proof (IH true) as IHt. pose proof (IH false) as IHf.
  pose proof (parse_optional_not_help tbl x) as Hx.
  repeat case_match; done.
Qed.

Lemma consume_following_prefix (action : Action) (os : string)
    (tuples0 tuples : list (Action * list string)) (next : option string) (u : bool) :
  consume_following action os tuples0 next = Take tuples u →
  ∃ args, tuples = tuples0 ++ [(action, args)].
Proof.
  unfold consume_following. repeat case_match; intros [= <- <-]; by eexists.
Qed.

Lemma consume_explicit_prefix (tbl : list (string * Action)) (explicit_arg : string) :
  ∀ action os tuples0 next tuples u,
    consume_explicit tbl action os explicit_arg tuples0 next = Take tuples u →
    ∃ args k, tuples = tuples0 ++ (action, args) :: k.
Proof.
  induction explicit_arg as [|c t IH]; intros action os tuples0 next tuples u.
  - destruct action; simpl.
    + destruct (second_is_dash os); discriminate.
    + intros [= <- <-]. by exists [""%string], [].
  - destruct action; simpl.
    + destruct (second_is_dash os); [discriminate|].
      destruct (lookup_option tbl _) as [action'|]; [|discriminate].
      destruct t as [|c' t'].
      * intros [args ->]%consume_following_prefix.
        rewrite <- app_assoc. by eexists _, _.
      * intros (args & k & ->)%IH. rewrite <- app_assoc. by eexists _, _.
    + intros [= <- <-]. by eexists _, [].
Qed.

Lemma consume_explicit_store (tbl : list (string * Action)) (d : Dest)
    (os explicit_arg : string) (tuples0 : list (Action * list string))
    (next : option string) :
  consume_explicit tbl (StoreAction d) os explicit_arg tuples0 next
  = Take (tuples0 ++ [(StoreAction d, [explicit_arg])]) false.
Proof. by destruct explicit_arg. Qed.

(** What taking the actions of one option leads to: a help option ends
    the run, a store option joins the seen actions. *)
Lemma consume_optional_take (tbl : list (string * Action)) (action : Action)
    (os : string) (e next : option string) (tuples : list (Action * list string))
    (u : bool) (seen : list Dest) (ns : Namespace) :
  consume_optional tbl action os e next = Take tuples u →
  match action with
  | HelpAction => take_actions tuples seen ns = ExitHelp
  | StoreAction d => ∃ ns', take_actions tuples seen ns = Got (d :: seen, ns')
  end.
Proof.
  unfold consume_optional. destruct action as [|d].
  - destruct e as [x|].
    + by intros (args & k & ->)%consume_explicit_prefix.
    + by intros [args ->]%consume_following_prefix.
  - destruct e as [x|].
    + rewrite consume_explicit_store. intros [= <- <-]. by eexists.
    + unfold consume_following. simpl. destruct next; [|discriminate].
      intros [= <- <-]. by eexists.
Qed.

Lemma has_option_cons (a : Action) (x : string * arg_class)
    (l : list (string * arg_class)) :
  has_option a l → has_option a (x :: l).
Proof. intros (s & os & e & H). exists s, os, e. by right. Qed.

Lemma has_option_here (a : Action) (s os : string) (e : option string)
    (l : list (string * arg_class)) :
  has_option a ((s, ArgO (Some a) os e) :: l).
Proof. exists s, os, e. left. Qed.

(** The actions seen at the end of the main loop were seen before it or
    belong to an option among the arg strings; the loop ends with the
    help only at a help option. *)
Lemma consume_args_spec (tbl : list (string * Action)) (n : nat) :
  ∀ (l : list (string * arg_class)) (seen : list Dest) (ns : Namespace)
    (extras : list string),
    (length l ≤ n)%nat →
    match consume_args tbl l seen ns extras with
    | Got (seen', _, _) =>
        ∀ d, d ∈ seen' → d ∈ seen ∨ has_option (StoreAction d) l
    | ExitHelp => has_option HelpAction l
    | ExitError _ => True
    end.
Proof.
  induction n as [|n IH]; intros l seen ns extras Hlen.
  { destruct l; [|simpl in Hlen; lia]. simpl. auto. }
  destruct l as [|[s c] rest]; [simpl; auto|].
  simpl in Hlen.
  assert (∀ seen ns extras,
    match consume_args tbl rest seen ns extras with
    | Got (seen', _, _) =>
        ∀ d, d ∈ seen' → d ∈ seen ∨ has_option (StoreAction d) ((s, c) :: rest)
    | ExitHelp => has_option HelpAction ((s, c) :: rest)
    | ExitError _ => True
    end) as Hrest.
  { intros seen0 ns0 extras0.
    pose proof (IH rest seen0 ns0 extras0 ltac:(lia)) as H.
    destruct (consume_args tbl rest seen0 ns0 extras0) as [[[seen' ?] ?]| |]; [| |done].
    - intros d Hd. destruct (H d Hd); [by left | right; by apply has_option_cons].
    - by apply has_option_cons. }
  destruct c as [| |[action|] os e]; simpl; try apply Hrest.
  destruct (consume_optional tbl action os e _) as [tuples u|] eqn:Ec; [|done].
  pose proof (consume_optional_take _ _ _ _ _ _ _ seen ns Ec) as Ht.
  destruct action as [|d0].
  - rewrite Ht. apply has_option_here.
  - destruct Ht as [ns' ->].
    assert (∀ rest', (length rest' ≤ n)%nat →
      (∀ a, has_option a rest' → has_option a rest) →
      match consume_args tbl rest' (d0 :: seen) ns' extras with
      | Got (seen', _, _) =>
          ∀ d, d ∈ seen' →
            d ∈ seen ∨ has_option (StoreAction d) ((s, ArgO (Some (StoreAction d0)) os e) :: rest)
      | ExitHelp => has_option HelpAction ((s, ArgO (Some (StoreAction d0)) os e) :: rest)
      | ExitError _ => True
      end) as Hgo.
    { intros rest' Hlen' Hsub.
      pose proof (IH rest' (d0 :: seen) ns' extras Hlen') as H.
      destruct (consume_args tbl rest' (d0 :: seen) ns' extras) as [[[seen' ?] ?]| |];
        [| |done].
      - intros d Hd. destruct (H d Hd) as [[->|Hin]%elem_of_cons|Hopt].
        + right. apply has_option_here.
        + by left.
        + right. by apply has_option_cons, Hsub.
      - by apply has_option_cons, Hsub. }
    destruct u, rest as [|x rest']; try (apply Hgo; [simpl in *; lia | done]).
    apply Hgo; [simpl in *; lia|]. intros a. apply has_option_cons.
Qed.

Lemma required_actions_nil (tbl : list (string * Action)) (seen : list Dest) :
  required_actions tbl seen = [] →
  ∀ os d, (os, StoreAction d) ∈ tbl → d ∈ seen.
Proof.
  induction tbl as [|[os' a] tbl IH]; simpl; [by intros _ ?? ?%elem_of_nil|].
  destruct a as [|d'].
  - intros H os d [[=]|Hin]%elem_of_cons. eauto.
  - destruct (existsb (dest_eqb d') seen) eqn:E; [|discriminate].
    intros H os d [[= -> ->]|Hin]%elem_of_cons; [|eauto].
    apply existsb_exists in E as (x & Hx & ->%dest_eqb_eq).
    by apply list_elem_of_In.
Qed.

Lemma has_option_names (a : Action) (arg_strings : list string)
    (l : list (string * arg_class)) :
  classify (option_string_actions add_parser) false arg_strings = Got l →
  has_option a l →
  Exists (λ s, names_action a s = true) arg_strings.
Proof.
  intros [Hfst Hcls]%classify_spec (s & os & e & Hin).
  apply Exists_exists. exists s. split.
  - rewrite <- Hfst. by apply (list_elem_of_fmap_2 fst) in Hin.
  - unfold names_action. rewrite (Hcls _ _ _ _ Hin). by apply action_eqb_eq.
Qed.

(** The [add] parser returns a namespace only when each of the five
    flags is among its arg strings, and ends with the help only when a
    help flag is. *)
Lemma parse_known_args_add (arg_strings : list string) :
  match parse_known_args add_parser arg_strings with
  | Got _ => ∀ d, Exists (λ s, names_action (StoreAction d) s = true) arg_strings
  | ExitHelp => asks_help arg_strings
  | ExitError _ => True
  end.
Proof.
  unfold parse_known_args.
  destruct (classify _ false arg_strings) as [l| |] eqn:Ec; [| |done].
  2: { by apply classify_not_help in Ec. }
  pose proof (consume_args_spec (option_string_actions add_parser) (length l)
                l [] ns_default [] ltac:(lia)) as H.
  destruct (consume_args _ l [] ns_default []) as [[[seen ns] extras]| |]; [| |done].
  - destruct (required_actions _ seen) eqn:Er; [|done].
    intros d. apply (has_option_names _ _ _ Ec).
    pose proof (required_actions_nil _ _ Er) as Hreq.
    assert (d ∈ seen) as Hd.
    { destruct d; eapply Hreq; simpl; rewrite !elem_of_cons; eauto 10. }
    destruct (H d Hd) as [Hnil%elem_of_nil|]; done.
  - by apply (has_option_names _ _ _ Ec).
Qed.

Lemma parse_args_add (rest : list string) :
  parse_args setup_cli ("add"%string :: rest) =
  match classify (option_string_actions (top_parser setup_cli)) false rest with
  | Got _ =>
      match parse_known_args add_parser rest with
      | Got (ns, extras) => finish_parse (ns_set_command "add" ns, extras)
      | ExitHelp => ExitHelp
      | ExitError e => ExitError e
      end
  | ExitHelp => ExitHelp
  | ExitError e => ExitError e
  end.
Proof.
  unfold parse_args. simpl.
  destruct (classify _ false rest) as [l| |] eqn:Ec; [|done|done].
  apply classify_spec in Ec as [<- _]. simpl.
  unfold subparsers_action. simpl.
  by destruct (parse_known_args add_parser (map fst l)) as [[ns extras]| |].
Qed.

(** With a flag left out, [parse_args] does not return. *)
Lemma parse_args_add_omits (rest : list string) (d : Dest) :
  omits d rest →
  match parse_args setup_cli ("add"%string :: rest) with
  | Got _ => False
  | ExitHelp => asks_help rest
  | ExitError _ => True
  end.
Proof.
  intros Homits. rewrite parse_args_add.
  destruct (classify _ false rest) as [l| |] eqn:Ec; [| |done].
  2: { by apply classify_not_help in Ec. }
  pose proof (parse_known_args_add rest) as H.
  destruct (parse_known_args add_parser rest) as [[ns extras]| |]; [| |done].
  - exfalso. specialize (H d). apply Exists_exists in H as (s & Hin & Hs).
    unfold omits in Homits. rewrite Forall_forall in Homits.
    specialize (Homits s Hin). congruence.
  - exact H.
Qed.

(** The refutation of C7 as stated: [add] without any flag, run where
    there is no backing file, ends with the traceback of the Loader and
    not with a usage error, because the inventory is loaded before the
    arguments are parsed; and [add -h], which also gives none of the five
    flags, prints the help and exits with status 0. *)
Lemma main_add_missing_flag_not_usage_error :
  (omits d_name [] ∧
   main ∅ ["add"%string] = mkOutcome ∅ [] [Traceback FileNotFoundError] 1)
  ∧ (omits d_name ["-h"%string] ∧
     main sample_fs ["add"; "-h"]%string = mkOutcome sample_fs [PrintHelp] [] 0).
Proof.
  split; split.
  - constructor.
  - reflexivity.
  - by repeat constructor.
  - reflexivity.
Qed.

(** C7, amended. An [add] command line that leaves out one of the five
    flags never changes a file.  The inventory is loaded first; when the
    Loader fails, its exception ends the run.  When the inventory loads,
    the run ends in the argument parser, before the Mutator and the
    Persister: with a usage error on standard error and exit status 2,
    or, when a help flag is among the arguments, possibly with the help
    on standard output and exit status 0. *)
Theorem main_add_missing_flag (fs : gmap string string) (rest : list string) (d : Dest) :
  omits d rest →
  final_fs (main fs ("add"%string :: rest)) = fs
  ∧ (∀ e, read_inventory fs inventory_csv = Raise e →
       main fs ("add"%string :: rest) = mkOutcome fs [] [Traceback e] 1)
  ∧ (∀ inventory, read_inventory fs inventory_csv = Ok inventory →
       (∃ e, main fs ("add"%string :: rest) = mkOutcome fs [] [UsageError e] 2)
       ∨ (asks_help rest ∧
          main fs ("add"%string :: rest) = mkOutcome fs [PrintHelp] [] 0)).
Proof.
  intros Homits. pose proof (parse_args_add_omits rest d Homits) as H.
  unfold main.
  destruct (read_inventory fs inventory_csv) as [inventory|e0].
  - destruct (parse_args setup_cli ("add"%string :: rest)) as [args| |e]; [done| |].
    + split; [done|]. split; [discriminate|]. intros _ _. by right.
    + split; [done|]. split; [discriminate|]. intros _ _. left. by exists e.
  - split; [done|]. split; [by intros e [= ->]|]. discriminate.
Qed.

Lemma main_add_missing_flag_witness :
  final_fs (main sample_fs ["add"; "--name"; "Switch1"; "--ip"; "10.0.0.2"]%string)
  = sample_fs.
Proof.
  apply (main_add_missing_flag sample_fs
           ["--name"; "Switch1"; "--ip"; "10.0.0.2"]%string d_password).
  by repeat constructor.
Defined.

(** The refutation of C8 as stated: run without arguments where there is
    no backing file, the program prints nothing on standard output and
    ends with the traceback of the Loader and exit status 1. *)
Lemma main_no_arguments_no_file :
  main ∅ [] = mkOutcome ∅ [] [Traceback FileNotFoundError] 1.
Proof. reflexivity. Qed.

(** C8, amended. Run without arguments, the program leaves every file
    as it was.  When the Loader returns the inventory, the program
    prints the loaded list on standard output, prints nothing on
    standard error and exits with status 0.  When the Loader raises, the
    program prints nothing on standard output and ends with the
    traceback of that exception and exit status 1. *)
Theorem main_no_arguments (fs : gmap string string) :
  final_fs (main fs []) = fs
  ∧ (∀ inventory, read_inventory fs inventory_csv = Ok inventory →
       main fs [] = mkOutcome fs [PrintInventory inventory] [] 0)
  ∧ (∀ e, read_inventory fs inventory_csv = Raise e →
       main fs [] = mkOutcome fs [] [Traceback e] 1).
Proof.
  unfold main. destruct (read_inventory fs inventory_csv) as [inventory|e].
  - simpl. rewrite lookup_singleton_eq. split; [done|].
    split; [by intros ? [= ->] | discriminate].
  - split; [done|]. split; [discriminate | by intros ? [= ->]].
Qed.

Lemma main_no_arguments_witness :
  main sample_fs [] = mkOutcome sample_fs [PrintInventory [router1]] [] 0.
Proof.
  apply (main_no_arguments sample_fs). reflexivity.
Defined.

(** ** The written rows *)

Lemma join_append_next (rec : string) (n : nat) (s : string) :
  join_append rec (S n) s false = rec +:+ String delimiter (enc_field s).
Proof. unfold join_append, enc_field. by destruct (field_quoted s). Qed.

Lemma join_fields_next (cells : list value) (rec : string) (n : nat) :
  join_fields rec (S n) cells
  = (rec +:+ enc_rest (map cell_text cells), (S n + length cells)%nat).
Proof.
  revert rec n. induction cells as [|c cs IH]; intros rec n; simpl.
  - rewrite str_app_nil_r. f_equal. lia.
  - rewrite IH, join_append_next, str_app_assoc. simpl. f_equal. lia.
Qed.

Lemma writer_writerow_enc (cells : list value) :
  writer_writerow cells = enc_row (map cell_text cells) +:+ lineterminator.
Proof.
  unfold writer_writerow. destruct cells as [|c cs]; [done|].
  simpl join_fields.
  replace (join_append "" 0 (cell_text c) false) with (enc_field (cell_text c)).
  2: { unfold join_append, enc_field. by destruct (field_quoted (cell_text c)). }
  rewrite join_fields_next. simpl.
  destruct (enc_field (cell_text c) +:+ enc_rest (map cell_text cs)) eqn:E; [|done].
  destruct cs as [|c' cs]; [done|].
  simpl in E. by destruct (enc_field (cell_text c)).
Qed.

(** ** Universal newlines *)

Lemma str_contains_app (c : ascii) (a b : string) :
  str_contains c (a +:+ b) = str_contains c a || str_contains c b.
Proof.
  induction a as [|x a IH]; simpl; [done|]. by rewrite IH, orb_assoc.
Qed.

Lemma translate_newlines_no_cr (b : bool) (s : string) :
  no_cr (translate_newlines b s).
Proof.
  unfold no_cr. revert b. induction s as [|c t IH]; intros b; simpl; [done|].
  destruct (ch_eqb c CR) eqn:Ecr; simpl; [apply IH|].
  destruct (ch_eqb c LF) eqn:Elf.
  - destruct b; simpl; apply IH.
  - simpl. rewrite Ecr. apply IH.
Qed.

Lemma universal_newlines_app (a b : string) :
  no_cr a → universal_newlines (a +:+ b) = a +:+ universal_newlines b.
Proof.
  unfold no_cr, universal_newlines. induction a as [|c a IH]; simpl; [done|].
  intros [Hc Ha]%orb_false_elim. rewrite Hc.
  destruct (ch_eqb c LF) eqn:E; rewrite (IH Ha); [|done].
  apply ch_eqb_eq in E. by subst.
Qed.

Lemma universal_newlines_crlf (b : string) :
  universal_newlines (lineterminator +:+ b) = String LF (universal_newlines b).
Proof. done. Qed.

Lemma copy_field_no_cr (s : string) : no_cr s → no_cr (copy_field s).
Proof.
  unfold no_cr. induction s as [|c t IH]; simpl; [done|].
  intros [Hc Ht]%orb_false_elim.
  destruct (ch_eqb c quotechar) eqn:E; simpl; rewrite ?Hc, (IH Ht); [|done].
  apply ch_eqb_eq in E. by subst.
Qed.

Lemma enc_field_no_cr (s : string) : no_cr s → no_cr (enc_field s).
Proof.
  intros H%copy_field_no_cr. unfold enc_field, no_cr in *.
  destruct (field_quoted s); [|done].
  simpl. rewrite str_contains_app, H. done.
Qed.

Lemma enc_rest_no_cr (cells : list string) :
  Forall no_cr cells → no_cr (enc_rest cells).
Proof.
  induction 1 as [|c cs Hc _ IH]; [done|].
  unfold no_cr in *. simpl. rewrite str_contains_app.
  by rewrite (enc_field_no_cr c Hc), IH.
Qed.

Lemma enc_row_no_cr (cells : list string) :
  Forall no_cr cells → no_cr (enc_row cells).
Proof.
  destruct 1 as [|c cs Hc Hcs]; [done|].
  unfold enc_row.
  assert (no_cr (enc_field c +:+ enc_rest cs)) as H.
  { unfold no_cr. rewrite str_contains_app.
    by rewrite (enc_field_no_cr c Hc), (enc_rest_no_cr cs Hcs). }
  by destruct (enc_field c +:+ enc_rest cs).
Qed.

(** Reading turns the line terminators of a written file into line
    feeds and changes nothing else, when no cell holds a carriage
    return. *)
Lemma universal_newlines_rows (rows : list (list string)) :
  Forall (Forall no_cr) rows →
  universal_newlines (crlf_rows rows) = lf_rows rows.
Proof.
  induction 1 as [|r rs Hr _ IH]; [done|].
  cbn [crlf_rows lf_rows]. rewrite universal_newlines_app by by apply enc_row_no_cr.
  by rewrite universal_newlines_crlf, IH.
Qed.

(** ** The reader, character by character *)

#[local] Arguments field_limit : simpl never.

Lemma str_app_cons (a : ascii) (s t : string) :
  String a s +:+ t = String a (s +:+ t).
Proof. done. Qed.

Lemma strlen_cons (a : ascii) (s : string) : strlen (String a s) = 1 + strlen s.
Proof. unfold strlen. simpl String.length. lia. Qed.

Lemma strlen_nil : strlen "" = 0.
Proof. done. Qed.

Lemma ch_eqb_sym (a b : ascii) : ch_eqb a b = ch_eqb b a.
Proof.
  destruct (ch_eqb a b) eqn:E; symmetry.
  - apply ch_eqb_eq in E. subst. apply ch_eqb_refl.
  - destruct (ch_eqb b a) eqn:E'; [|done].
    apply ch_eqb_eq in E'. subst. by rewrite ch_eqb_refl in E.
Qed.

(** A character that does not force quoting is no delimiter, no quote
    and no newline. *)
Lemma is_special_false (a : ascii) :
  is_special a = false →
  ch_eqb a delimiter = false ∧ ch_eqb a quotechar = false ∧
  ch_eqb a LF = false ∧ ch_eqb a CR = false.
Proof.
  unfold is_special, lineterminator, str_contains.
  rewrite (ch_eqb_sym CR a), (ch_eqb_sym LF a).
  destruct (ch_eqb a delimiter), (ch_eqb a quotechar), (ch_eqb a CR), (ch_eqb a LF);
    simpl; intros; done.
Qed.

Lemma copy_field_plain (s : string) : field_quoted s = false → copy_field s = s.
Proof.
  induction s as [|a t IH]; simpl; [done|].
  intros [Ha Ht]%orb_false_elim.
  apply is_special_false in Ha as (_ & -> & _). by rewrite (IH Ht).
Qed.

Lemma parse_add_char_ok (fs : list string) (f : string) (n : N) (st : ParserState)
    (a : ascii) :
  n < field_limit →
  parse_add_char (mkReader fs f n st) a
  = Ok (mkReader fs (f +:+ String a "") (n + 1) st).
Proof.
  intros H. unfold parse_add_char. simpl. by rewrite (proj2 (N.leb_gt _ _) H).
Qed.

Lemma pp_in_field_plain (fs : list string) (f : string) (n : N) (a : ascii) :
  is_special a = false → n < field_limit →
  parse_process_char (mkReader fs f n IN_FIELD) (Ch a)
  = Ok (mkReader fs (f +:+ String a "") (n + 1) IN_FIELD).
Proof.
  intros (Hd & _ & Hlf & Hcr)%is_special_false Hn.
  unfold parse_process_char, is_newline. simpl. rewrite Hlf, Hcr, Hd. simpl.
  by apply parse_add_char_ok.
Qed.

Lemma pp_start_field_plain (fs : list string) (a : ascii) :
  is_special a = false → 0 < field_limit →
  parse_process_char (mkReader fs "" 0 START_FIELD) (Ch a)
  = Ok (mkReader fs (String a "") 1 IN_FIELD).
Proof.
  intros (Hd & Hq & Hlf & Hcr)%is_special_false Hn.
  unfold parse_process_char, parse_start_field, is_newline. simpl.
  by rewrite Hlf, Hcr, Hq, Hd.
Qed.

Lemma pp_in_quoted_other (fs : list string) (f : string) (n : N) (a : ascii) :
  ch_eqb a quotechar = false → n < field_limit →
  parse_process_char (mkReader fs f n IN_QUOTED_FIELD) (Ch a)
  = Ok (mkReader fs (f +:+ String a "") (n + 1) IN_QUOTED_FIELD).
Proof.
  intros Hq Hn. unfold parse_process_char. simpl. rewrite Hq.
  by apply parse_add_char_ok.
Qed.

Lemma pp_quote_quote (fs : list string) (f : string) (n : N) :
  n < field_limit →
  parse_process_char (mkReader fs f n QUOTE_IN_QUOTED_FIELD) (Ch quotechar)
  = Ok (mkReader fs (f +:+ String quotechar "") (n + 1) IN_QUOTED_FIELD).
Proof.
  intros Hn. unfold parse_process_char. simpl.
  by rewrite (parse_add_char_ok _ _ _ _ _ Hn).
Qed.

Lemma stream_rows_step (r r1 : ReaderObj) (a : ascii) (X : string) :
  parse_process_char r (Ch a) = Ok r1 → ch_eqb a LF = false →
  stream_rows r (String a X) = stream_rows r1 X.
Proof. intros H Ha. simpl. rewrite H. simpl. by rewrite Ha. Qed.

Lemma stream_rows_step_lf (r r1 r2 : ReaderObj) (X : string) :
  parse_process_char r (Ch LF) = Ok r1 →
  parse_process_char r1 EOL = Ok r2 →
  stream_rows r (String LF X) =
  if state_eqb (rd_state r2) START_RECORD
  then rows ← stream_rows parse_reset X; Ok (rd_fields r2 :: rows)
  else stream_rows r2 X.
Proof. intros H1 H2. simpl. rewrite H1. simpl. by rewrite H2. Qed.

(** The characters of an unquoted field join the field being read. *)
Lemma stream_in_field (s : string) :
  ∀ (fs : list string) (f : string) (n : N) (X : string),
    field_quoted s = false → n + strlen s ≤ field_limit →
    stream_rows (mkReader fs f n IN_FIELD) (s +:+ X)
    = stream_rows (mkReader fs (f +:+ s) (n + strlen s) IN_FIELD) X.
Proof.
  induction s as [|a t IH]; intros fs f n X Hq Hn.
  - simpl. by rewrite str_app_nil_r, strlen_nil, N.add_0_r.
  - simpl in Hq. apply orb_false_elim in Hq as [Ha Ht].
    rewrite strlen_cons in Hn. rewrite str_app_cons.
    rewrite (stream_rows_step _ _ _ _ (pp_in_field_plain fs f n a Ha ltac:(lia)))
      by (by apply is_special_false in Ha as (_ & _ & -> & _)).
    rewrite IH by (done || lia).
    rewrite str_app_assoc, strlen_cons, str_app_cons. do 2 f_equal. lia.
Qed.

(** Inside the quotes every character joins the field, a doubled quote
    as one quote; a line feed does not end the record. *)
Lemma stream_in_quoted (s : string) :
  ∀ (fs : list string) (f : string) (n : N) (X : string),
    n + strlen s ≤ field_limit →
    stream_rows (mkReader fs f n IN_QUOTED_FIELD) (copy_field s +:+ X)
    = stream_rows (mkReader fs (f +:+ s) (n + strlen s) IN_QUOTED_FIELD) X.
Proof.
  induction s as [|a t IH]; intros fs f n X Hn.
  - simpl. by rewrite str_app_nil_r, strlen_nil, N.add_0_r.
  - rewrite strlen_cons in Hn. cbn [copy_field].
    assert (stream_rows (mkReader fs (f +:+ String a "") (n + 1) IN_QUOTED_FIELD)
              (copy_field t +:+ X)
            = stream_rows (mkReader fs (f +:+ String a t) (n + strlen (String a t))
                             IN_QUOTED_FIELD) X) as Hgo.
    { rewrite IH by lia. rewrite str_app_assoc, strlen_cons, str_app_cons.
      do 2 f_equal. lia. }
    destruct (ch_eqb a quotechar) eqn:Eq.
    + apply ch_eqb_eq in Eq. subst a. rewrite !str_app_cons.
      rewrite (stream_rows_step _ (mkReader fs f n QUOTE_IN_QUOTED_FIELD)) by done.
      rewrite (stream_rows_step _ _ _ _ (pp_quote_quote fs f n ltac:(lia))) by done.
      exact Hgo.
    + rewrite str_app_cons. destruct (ch_eqb a LF) eqn:Elf.
      * apply ch_eqb_eq in Elf. subst a.
        rewrite (stream_rows_step_lf _ _ _ _
                   (pp_in_quoted_other fs f n LF Eq ltac:(lia)) eq_refl).
        exact Hgo.
      * rewrite (stream_rows_step _ _ _ _
                   (pp_in_quoted_other fs f n a Eq ltac:(lia)) Elf).
        exact Hgo.
Qed.

(** From the start of a field, the written form of a cell brings the
    reader to hold that cell as its complete field. *)
Lemma stream_field (c : string) (fs : list string) :
  within_limit c →
  ∃ r', pending r' c fs ∧
    ∀ X, stream_rows (mkReader fs "" 0 START_FIELD) (enc_field c +:+ X)
         = stream_rows r' X.
Proof.
  unfold within_limit. intros Hc. unfold enc_field.
  destruct (field_quoted c) eqn:Q.
  - exists (mkReader fs c (strlen c) QUOTE_IN_QUOTED_FIELD).
    split; [repeat split; auto|]. intros X. rewrite str_app_cons.
    rewrite (stream_rows_step _ (mkReader fs "" 0 IN_QUOTED_FIELD)) by done.
    rewrite str_app_assoc, stream_in_quoted by (rewrite N.add_0_l; exact Hc).
    rewrite str_app_cons, N.add_0_l.
    by rewrite (stream_rows_step _ (mkReader fs c (strlen c) QUOTE_IN_QUOTED_FIELD)).
  - rewrite (copy_field_plain c Q). destruct c as [|a t].
    + exists (mkReader fs "" 0 START_FIELD). split; [repeat split; auto|]. done.
    + exists (mkReader fs (String a t) (strlen (String a t)) IN_FIELD).
      split; [repeat split; auto|]. intros X.
      simpl in Q. apply orb_false_elim in Q as [Ha Ht].
      rewrite strlen_cons in Hc. rewrite str_app_cons.
      rewrite (stream_rows_step _ _ _ _ (pp_start_field_plain fs a Ha ltac:(lia)))
        by (by apply is_special_false in Ha as (_ & _ & -> & _)).
      rewrite stream_in_field by (done || lia).
      by rewrite strlen_cons.
Qed.

(** A delimiter closes the pending field. *)
Lemma stream_delimiter (r : ReaderObj) (f : string) (fs : list string) (X : string) :
  pending r f fs →
  stream_rows r (String delimiter X)
  = stream_rows (mkReader (fs ++ [f]) "" 0 START_FIELD) X.
Proof.
  destruct r as [fs' f' n st]. unfold pending.
  cbn [rd_fields rd_field rd_field_len rd_state].
  intros (Hfs & Hf & Hn & Hst). subst fs' f' n.
  destruct Hst as [->|[->|[-> Hf]]]; [| |subst f];
    by erewrite (stream_rows_step _ (mkReader (fs ++ [_]) "" 0 START_FIELD)).
Qed.

(** A line feed closes the pending field and the record. *)
Lemma stream_end_of_row (r : ReaderObj) (f : string) (fs : list string) (X : string) :
  pending r f fs →
  stream_rows r (String LF X)
  = rows ← stream_rows parse_reset X; Ok ((fs ++ [f]) :: rows).
Proof.
  destruct r as [fs' f' n st]. unfold pending.
  cbn [rd_fields rd_field rd_field_len rd_state].
  intros (Hfs & Hf & Hn & Hst). subst fs' f' n.
  destruct Hst as [->|[->|[-> Hf]]]; [| |subst f];
    by erewrite (stream_rows_step_lf _ (mkReader (fs ++ [_]) "" 0 EAT_CRNL)
                   (mkReader (fs ++ [_]) "" 0 START_RECORD)).
Qed.

Lemma stream_rest (cs : list string) :
  ∀ (r : ReaderObj) (f : string) (fs : list string) (X : string),
    pending r f fs → Forall within_limit cs →
    stream_rows r (enc_rest cs +:+ String LF X)
    = rows ← stream_rows parse_reset X; Ok ((fs ++ f :: cs) :: rows).
Proof.
  induction cs as [|c cs IH]; intros r f fs X Hp Hcs.
  - by apply stream_end_of_row.
  - apply Forall_cons in Hcs as [Hc Hcs]. cbn [enc_rest]. rewrite str_app_cons.
    rewrite (stream_delimiter r f fs _ Hp).
    destruct (stream_field c (fs ++ [f]) Hc) as (r' & Hp' & Hr').
    rewrite str_app_assoc, Hr'. rewrite (IH r' c (fs ++ [f]) X Hp' Hcs).
    by rewrite <- app_assoc.
Qed.

(** At the start of a record a character that is no newline is handled
    as at the start of a field. *)
Lemma stream_start_record (a : ascii) (Y : string) :
  is_newline a = false →
  stream_rows parse_reset (String a Y)
  = stream_rows (mkReader [] "" 0 START_FIELD) (String a Y).
Proof.
  intros H. cbn [stream_rows]. unfold parse_process_char, parse_reset.
  cbn [rd_state]. by rewrite H.
Qed.

Lemma enc_row_first_char (c : string) (cs : list string) (a : ascii) (t : string) :
  enc_field c +:+ enc_rest cs = String a t → is_newline a = false.
Proof.
  unfold enc_field. destruct (field_quoted c) eqn:Q.
  - rewrite str_app_cons. by intros [= <- _].
  - rewrite (copy_field_plain c Q). destruct c as [|a' t'].
    + destruct cs as [|c' cs]; [done|]. cbn [enc_rest]. by intros [= <- _].
    + rewrite str_app_cons. intros [= <- _].
      simpl in Q. apply orb_false_elim in Q as [Ha _].
      apply is_special_false in Ha as (_ & _ & Hlf & Hcr).
      unfold is_newline. by rewrite Hlf, Hcr.
Qed.

Lemma enc_row_empty (c : string) (cs : list string) :
  enc_field c +:+ enc_rest cs = ""%string → c = ""%string ∧ cs = [].
Proof.
  unfold enc_field. destruct (field_quoted c) eqn:Q; [done|].
  rewrite (copy_field_plain c Q). destruct c as [|a' t']; [|done].
  by destruct cs.
Qed.

(** One written row, read back. *)
Lemma stream_row (cells : list string) (X : string) :
  Forall within_limit cells →
  stream_rows parse_reset (enc_row cells +:+ String LF X)
  = rows ← stream_rows parse_reset X; Ok (cells :: rows).
Proof.
  intros H. destruct H as [|c cs Hc Hcs].
  - change (enc_row [] +:+ String LF X) with (String LF X).
    by rewrite (stream_rows_step_lf _ (mkReader [] "" 0 EAT_CRNL) parse_reset).
  - unfold enc_row. destruct (enc_field c +:+ enc_rest cs) as [|a t] eqn:E.
    + apply enc_row_empty in E as [-> ->]. reflexivity.
    + rewrite str_app_cons, (stream_start_record a _ (enc_row_first_char _ _ _ _ E)).
      rewrite <- str_app_cons, <- E, str_app_assoc.
      destruct (stream_field c [] Hc) as (r' & Hp & ->).
      by rewrite (stream_rest cs r' c [] X Hp Hcs).
Qed.

(** A written file, read back. *)
Lemma stream_file (rows : list (list string)) :
  Forall (Forall within_limit) rows →
  stream_rows parse_reset (lf_rows rows) = Ok rows.
Proof.
  induction 1 as [|r rs Hr _ IH]; [done|].
  cbn [lf_rows]. by rewrite (stream_row r _ Hr), IH.
Qed.

(** ** From characters to lines *)

Lemma parse_chars_snoc (cur : string) (c : ascii) (r0 : ReaderObj) :
  parse_chars r0 (cur +:+ String c "")
  = r ← parse_chars r0 cur; parse_process_char r (Ch c).
Proof.
  revert r0. induction cur as [|a cur IH]; intros r0.
  - simpl. by destruct (parse_process_char r0 (Ch c)).
  - rewrite str_app_cons. cbn [parse_chars].
    destruct (parse_process_char r0 (Ch a)) as [r1|]; [|done]. apply IH.
Qed.

Lemma ends_with_lf_tail (c : ascii) (t : string) :
  ends_with_lf (String c t) = true → t ≠ ""%string → ends_with_lf t = true.
Proof. by destruct t. Qed.

(** On a text that is empty or ends with a line feed, what the reader
    makes of the lines is what it makes of the characters. *)
Lemma reader_rows_lines (s : string) :
  ∀ (cur : string) (r0 r : ReaderObj) (rows : list (list string)),
    parse_chars r0 cur = Ok r →
    ends_with_lf s = true ∨ (s = ""%string ∧ cur = ""%string) →
    stream_rows r s = Ok rows →
    reader_rows r0 (lines_of cur s) = Ok rows.
Proof.
  induction s as [|c t IH]; intros cur r0 r rows Hcur Hend H.
  - destruct Hend as [|[_ ->]]; [done|]. simpl in Hcur. by injection Hcur as ->.
  - destruct Hend as [Hend|[? _]]; [|done].
    cbn [stream_rows] in H.
    destruct (parse_process_char r (Ch c)) as [r1|] eqn:E1; [|done].
    assert (parse_chars r0 (cur +:+ String c "") = Ok r1) as Hcur1.
    { by rewrite parse_chars_snoc, Hcur. }
    cbn [lines_of]. simpl in H. destruct (ch_eqb c LF) eqn:Elf.
    + destruct (parse_process_char r1 EOL) as [r2|] eqn:E2; [|done].
      cbn [reader_rows]. unfold parse_line. rewrite Hcur1. simpl. rewrite E2. simpl.
      simpl in H.
      assert (ends_with_lf t = true ∨ t = ""%string ∧ ""%string = ""%string) as Hend'.
      { destruct t; [by right | left; by apply (ends_with_lf_tail c)]. }
      destruct (state_eqb (rd_state r2) START_RECORD).
      * destruct (stream_rows parse_reset t) as [rows'|] eqn:Et; [|done].
        by rewrite (IH "" parse_reset parse_reset rows' eq_refl Hend' Et).
      * by apply (IH "" r2 r2 rows eq_refl Hend').
    + apply (IH _ r0 r1 rows Hcur1); [|done]. left.
      apply (ends_with_lf_tail c); [done|]. intros ->.
      simpl in Hend. congruence.
Qed.

Lemma ends_with_lf_app (a b : string) :
  b ≠ ""%string → ends_with_lf (a +:+ b) = ends_with_lf b.
Proof.
  intros Hb. induction a as [|x a IH]; [done|].
  rewrite str_app_cons. cbn [ends_with_lf].
  destruct (a +:+ b) eqn:E; [|done].
  destruct a; [|done]. simpl in E. done.
Qed.

Lemma lf_rows_ends (rows : list (list string)) :
  ends_with_lf (lf_rows rows) = true ∨ lf_rows rows = ""%string.
Proof.
  induction rows as [|r rs IH]; [by right|]. left.
  cbn [lf_rows]. rewrite ends_with_lf_app by done.
  destruct IH as [IH| ->]; [|done].
  cbn [ends_with_lf]. by destruct (lf_rows rs).
Qed.

(** The rows of a written file, as the reader returns them. *)
Lemma reader_rows_written (rows : list (list string)) :
  Forall (Forall clean) rows →
  reader_rows parse_reset (file_lines (crlf_rows rows)) = Ok rows.
Proof.
  intros H. unfold file_lines.
  rewrite universal_newlines_rows.
  2: { eapply Forall_impl; [exact H|]. intros r Hr.
       eapply Forall_impl; [exact Hr|]. by intros s [? _]. }
  apply (reader_rows_lines _ "" parse_reset parse_reset); [done| |].
  - destruct (lf_rows_ends rows) as [|E]; [by left | by right].
  - apply stream_file.
    eapply Forall_impl; [exact H|]. intros r Hr.
    eapply Forall_impl; [exact Hr|]. by intros s [_ ?].
Qed.

(** ** The text of the file *)

Lemma field_quoted_spec (s : string) : field_quoted s = must_be_quoted s.
Proof.
  induction s as [|c t IH]; [done|].
  cbn [field_quoted must_be_quoted]. rewrite IH. f_equal.
  unfold is_special, lineterminator, delimiter, quotechar. cbn [str_contains].
  rewrite (ch_eqb_sym CR c), (ch_eqb_sym LF c), orb_false_r.
  unfold ch_eqb, CR, LF. by rewrite !orb_assoc.
Qed.

Lemma copy_field_spec (s : string) : copy_field s = quotes_doubled s.
Proof.
  induction s as [|c t IH]; [done|].
  cbn [copy_field quotes_doubled]. rewrite IH. unfold ch_eqb, quotechar.
  destruct (Ascii.eqb_spec c "034"%char) as [->|]; done.
Qed.

Lemma enc_field_spec (s : string) : enc_field s = csv_cell s.
Proof.
  unfold enc_field, csv_cell. rewrite field_quoted_spec.
  destruct (must_be_quoted s) eqn:E.
  - by rewrite copy_field_spec.
  - apply copy_field_plain. by rewrite field_quoted_spec.
Qed.

Lemma cell_text_spec (d : record) (k : string) :
  cell_text (cell_of d k) = column_text d k.
Proof.
  unfold cell_of, column_text. destruct (dict_lookup k d) as [[|s|]|]; done.
Qed.

Lemma row_line_spec (d : record) : row_line d = csv_row d.
Proof.
  unfold row_line. rewrite writer_writerow_enc.
  unfold row_cells, csv_row. cbn [map enc_row enc_rest].
  rewrite !cell_text_spec, !enc_field_spec.
  destruct (csv_cell (column_text d "Name")) as [|a t];
    cbn [String.append]; repeat (rewrite str_app_assoc || rewrite str_app_cons);
    reflexivity.
Qed.

Lemma rows_text_spec (inventory : list record) :
  rows_text inventory = csv_rows inventory.
Proof.
  induction inventory as [|d l IH]; [done|].
  cbn [rows_text csv_rows]. by rewrite IH, row_line_spec.
Qed.

Lemma separators_plain (s rest : string) :
  must_be_quoted s = false → separators false (s +:+ rest) = separators false rest.
Proof.
  induction s as [|c t IH]; [done|].
  cbn [must_be_quoted]. rewrite str_app_cons. cbn [separators].
  intros H. repeat (apply orb_false_elim in H as [H ?]).
  repeat match goal with E : _ = false |- _ => rewrite E; clear E end.
  by apply IH.
Qed.

Lemma separators_quoted (s rest : string) :
  separators true (quotes_doubled s +:+ String "034"%char rest)
  = separators false rest.
Proof.
  induction s as [|c t IH]; [done|].
  cbn [quotes_doubled]. destruct (Ascii.eqb c "034"%char) eqn:E.
  - rewrite !str_app_cons. cbn [separators]. exact IH.
  - rewrite str_app_cons. cbn [separators]. by rewrite E.
Qed.

Lemma separators_cell (s rest : string) :
  separators false (csv_cell s +:+ rest) = separators false rest.
Proof.
  unfold csv_cell. destruct (must_be_quoted s) eqn:E.
  - rewrite str_app_cons, str_app_assoc, str_app_cons. cbn [separators].
    change (Ascii.eqb "034" "034") with true. cbn [negb].
    apply separators_quoted.
  - by apply separators_plain.
Qed.

Lemma separators_row (d : record) (rest : string) :
  separators false (csv_row d +:+ rest) = five_cells +:+ separators false rest.
Proof.
  unfold csv_row. rewrite !str_app_assoc.
  rewrite separators_cell. cbn [String.append separators]. cbn.
  rewrite separators_cell. cbn [String.append separators]. cbn.
  rewrite separators_cell. cbn [String.append separators]. cbn.
  rewrite separators_cell. cbn [String.append separators]. cbn.
  rewrite separators_cell. reflexivity.
Qed.

Lemma separators_rows (inventory : list record) :
  separators false (csv_rows inventory) = times (length inventory) five_cells.
Proof.
  induction inventory as [|d l IH]; [done|].
  cbn [csv_rows length times]. by rewrite separators_row, IH.
Qed.

(** C5. For records that each have exactly the five keys,
    [save_inventory] succeeds and the target file then consists,
    whatever it held before, of the header line
    [Name,Management IP,Username,Password,Description] followed by one
    row per record, in sequence order.  The row of a record is made of
    the texts of the values bound to the five names, in that fixed
    order, separated by commas and ended by carriage return and line
    feed; a text that holds a comma, a quote, a carriage return or a
    line feed stands between quotes, its quotes doubled.  So outside
    quotes the file has, for the header and for each record, four commas
    and one line end: one row of five cells per record.  The order in
    which the keys were inserted in the records makes no difference. *)
Theorem save_inventory_fixed_columns (fs : gmap string string) (filename : string)
    (inventory : list record) :
  Forall has_exactly_five inventory →
  save_inventory fs filename inventory
  = (<[filename := csv_header +:+ csv_rows inventory]> fs, Ok tt)
  ∧ (∀ d k, d ∈ inventory → k ∈ fieldnames →
       ∃ v, dict_lookup k d = Some v ∧ column_text d k = written_text v)
  ∧ separators false (csv_header +:+ csv_rows inventory)
    = times (S (length inventory)) five_cells
  ∧ (∀ inventory',
       Forall2 (λ d d', d ≡ₚ d') inventory inventory' →
       save_inventory fs filename inventory' = save_inventory fs filename inventory).
Proof.
  intros H.
  assert (Forall (λ d, ¬ has_extra_key d) inventory) as Hok.
  { eapply Forall_impl; [exact H|]. apply has_exactly_five_no_extra. }
  split; [|split; [|split]].
  - rewrite (save_inventory_ok _ _ _ Hok). by rewrite rows_text_spec.
  - intros d k Hd Hk.
    destruct (has_exactly_five_lookup d k (proj1 (Forall_forall _ _) H d Hd) Hk)
      as [v Hv].
    exists v. split; [done|]. unfold column_text. by rewrite Hv.
  - cbn [times]. rewrite <- separators_rows. reflexivity.
  - intros inventory' Hp.
    assert (Forall (λ d, ¬ has_extra_key d) inventory') as Hok'.
    { clear Hok. induction Hp as [|d d' l l' Hdd _ IH]; [constructor|].
      apply Forall_cons in H as [Hd Hl]. constructor; [|by apply IH].
      apply has_exactly_five_no_extra. by apply (has_exactly_five_perm d d'). }
    rewrite (save_inventory_ok _ _ _ Hok), (save_inventory_ok _ _ _ Hok').
    by rewrite (rows_text_perm _ _ H Hp).
Qed.

Lemma save_inventory_fixed_columns_witness :
  save_inventory ∅ inventory_csv [router1_quoted; switch1_blank]
  = (<[inventory_csv :=
         "Name,Management IP,Username,Password,Description" +:+ crlf +:+
         ("Router1,10.0.0.1,admin," +:+
          String "034" ("pa" +:+ String "034" (String "034" ("ss" +:+
          String "034" ("," +:+
          String "034" ("Core, main" +:+ String "010" ("router" +:+
          String "034" crlf)))))) +:+
          "Switch1,10.0.0.2,admin,pass456," +:+ crlf)]> ∅,
     Ok tt).
Proof.
  apply (save_inventory_fixed_columns ∅ inventory_csv [router1_quoted; switch1_blank]).
  repeat constructor; unfold has_exactly_five.
  - apply (bool_decide_unpack _). vm_compute. exact I.
  - reflexivity.
Defined.

(** ** Saving, then loading *)

Lemma header_line_enc : header_line = enc_row fieldnames +:+ lineterminator.
Proof. reflexivity. Qed.

Lemma rows_text_crlf (inventory : list record) :
  rows_text inventory = crlf_rows (map row_texts inventory).
Proof.
  induction inventory as [|d l IH]; [done|].
  cbn [rows_text map crlf_rows]. unfold row_line.
  by rewrite writer_writerow_enc, IH, str_app_assoc.
Qed.

Lemma fieldnames_clean : Forall clean fieldnames.
Proof. repeat constructor; by vm_compute. Qed.

Lemma filter_row_texts (inventory : list record) :
  List.filter (λ row, negb (row_is_empty row)) (map row_texts inventory)
  = map row_texts inventory.
Proof. induction inventory as [|d l IH]; [done|]. simpl. by rewrite IH. Qed.

Lemma DictReader_row_texts (d : record) :
  DictReader_row fieldnames (row_texts d) = reloaded d.
Proof. reflexivity. Qed.

(** What [read_inventory] returns on a file that [save_inventory] wrote
    from records whose cell texts are [clean]. *)
Lemma read_inventory_written (fs : gmap string string) (filename : string)
    (inventory : list record) :
  Forall (λ d, Forall clean (row_texts d)) inventory →
  read_inventory (<[filename := header_line +:+ rows_text inventory]> fs) filename
  = Ok (map reloaded inventory).
Proof.
  intros H. unfold read_inventory. rewrite lookup_insert_eq.
  rewrite header_line_enc, rows_text_crlf, str_app_assoc.
  change (enc_row fieldnames +:+ lineterminator +:+ crlf_rows (map row_texts inventory))
    with (crlf_rows (fieldnames :: map row_texts inventory)).
  unfold DictReader_rows. rewrite reader_rows_written.
  2: { constructor; [apply fieldnames_clean|]. by apply Forall_fmap. }
  simpl. rewrite filter_row_texts. f_equal.
  rewrite map_map. apply map_ext. intros d. apply DictReader_row_texts.
Qed.

Lemma dict_rest_None (d : record) : dict_rest d = None ↔ None ∉ dict_keys d.
Proof.
  induction d as [|[k v|vs] d IH]; simpl.
  - split; [intros _; apply not_elem_of_nil | done].
  - rewrite not_elem_of_cons, IH. split; [done | tauto].
  - rewrite not_elem_of_cons. split; [done | intros [? _]; done].
Qed.

(** A record with the five keys, each bound to a text, equals (as a
    dict) the record that comes back from the file. *)
Lemma reloaded_dict_eq (d : record) :
  has_exactly_five d → text_valued d → dict_eq (reloaded d) d.
Proof.
  intros H5 Ht. split.
  - intros k. destruct (decide (k ∈ fieldnames)) as [Hk|Hk].
    + destruct (has_exactly_five_lookup d k H5 Hk) as [v Hv].
      destruct (text_valued_lookup d k v Ht Hv) as [s ->]. rewrite Hv.
      unfold fieldnames in Hk.
      repeat (apply elem_of_cons in Hk as [->|Hk];
              [unfold reloaded, cell_of; rewrite Hv; reflexivity|]).
      by apply elem_of_nil in Hk.
    + transitivity (@None value).
      * apply dict_lookup_None. intros Hin. apply Hk.
        change (dict_keys (reloaded d)) with (map Some fieldnames) in Hin.
        apply list_elem_of_fmap in Hin as (k' & [= ->] & Hin). done.
      * symmetry. apply dict_lookup_None. unfold has_exactly_five in H5.
        rewrite H5. intros Hin.
        apply list_elem_of_fmap in Hin as (k' & [= ->] & Hin). done.
  - transitivity (@None (list string)); [done|].
    symmetry. apply dict_rest_None. unfold has_exactly_five in H5. rewrite H5.
    intros Hin. apply list_elem_of_fmap in Hin as (k' & [=] & _).
Qed.

Lemma row_texts_clean (d : record) :
  has_exactly_five d → text_valued d → values_clean d →
  Forall clean (row_texts d).
Proof.
  intros H5 Ht Hc.
  pose proof (row_cells_bound d H5) as Hb. unfold row_texts.
  apply Forall_fmap.
  induction Hb as [|k v ks vs Hkv _ IH]; constructor; [|done].
  destruct (text_valued_lookup d k v Ht Hkv) as [s ->]. simpl. by apply (Hc k).
Qed.

(** ** What a loaded inventory can hold *)

Lemma lines_of_no_cr (s : string) :
  ∀ cur, no_cr cur → no_cr s → Forall no_cr (lines_of cur s).
Proof.
  unfold no_cr. induction s as [|c t IH]; intros cur Hcur Hs.
  - simpl. destruct cur; by repeat constructor.
  - simpl in Hs. apply orb_false_elim in Hs as [Hc Ht].
    assert (str_contains CR (cur +:+ String c "") = false) as Hcur'.
    { rewrite str_contains_app, Hcur. simpl. by rewrite Hc. }
    cbn [lines_of]. destruct (ch_eqb c LF).
    + constructor; [done|]. by apply IH.
    + by apply IH.
Qed.

Lemma file_lines_no_cr (content : string) : Forall no_cr (file_lines content).
Proof.
  unfold file_lines. apply lines_of_no_cr; [done|].
  apply translate_newlines_no_cr.
Qed.

Lemma parse_save_field_inv (r : ReaderObj) :
  reader_inv r → reader_inv (parse_save_field r).
Proof.
  unfold reader_inv, parse_save_field. simpl.
  intros (Hfs & Hf & Hlen & Hlim). repeat split; [|lia].
  apply Forall_app. split; [done|]. repeat constructor; [done|].
  unfold within_limit. by rewrite <- Hlen.
Qed.

Lemma set_state_inv (st : ParserState) (r : ReaderObj) :
  reader_inv r → reader_inv (set_state st r).
Proof. done. Qed.

Lemma parse_add_char_inv (r r' : ReaderObj) (a : ascii) :
  ch_eqb a CR = false → reader_inv r → parse_add_char r a = Ok r' → reader_inv r'.
Proof.
  unfold reader_inv, parse_add_char. intros Ha (Hfs & Hf & Hlen & Hlim).
  destruct (field_limit <=? rd_field_len r) eqn:E; [done|].
  apply N.leb_gt in E. intros [= <-]. simpl. repeat split; [done| | |lia].
  - unfold no_cr in *. rewrite str_contains_app, Hf. simpl.
    by rewrite Ha.
  - rewrite strlen_app, Hlen. by rewrite strlen_cons, strlen_nil.
Qed.

Lemma parse_process_char_inv (r r' : ReaderObj) (c : pchar) :
  match c with Ch a => ch_eqb a CR = false | EOL => True end →
  reader_inv r → parse_process_char r c = Ok r' → reader_inv r'.
Proof.
  intros Hc Hinv.
  pose proof (parse_save_field_inv r Hinv) as Hsave.
  unfold parse_process_char, parse_start_field.
  destruct (rd_state r), c as [a|];
    repeat match goal with
    | |- context [if ?b then _ else _] => destruct b
    | |- context [parse_add_char ?x ?y] =>
        let E := fresh "E" in
        destruct (parse_add_char x y) as [?|?] eqn:E; simpl;
        [apply (parse_add_char_inv _ _ _ Hc) in E; [|done] | ]
    end;
    intros [= <-]; try done.
Qed.

Lemma parse_chars_inv (s : string) :
  ∀ r r', no_cr s → reader_inv r → parse_chars r s = Ok r' → reader_inv r'.
Proof.
  unfold no_cr. induction s as [|a t IH]; intros r r' Hs Hinv.
  - by intros [= <-].
  - simpl in Hs. apply orb_false_elim in Hs as [Ha Ht]. cbn [parse_chars].
    destruct (parse_process_char r (Ch a)) as [r1|] eqn:E; [|done]. simpl.
    apply (IH r1 r' Ht).
    by apply (parse_process_char_inv r r1 (Ch a)).
Qed.

Lemma parse_line_inv (line : string) (r r' : ReaderObj) :
  no_cr line → reader_inv r → parse_line r line = Ok r' → reader_inv r'.
Proof.
  intros Hline Hinv. unfold parse_line.
  destruct (parse_chars r line) as [r1|] eqn:E; [|done]. simpl.
  apply (parse_process_char_inv r1 r' EOL); [done|].
  by apply (parse_chars_inv line r r1).
Qed.

Lemma parse_reset_inv : reader_inv parse_reset.
Proof. unfold reader_inv, parse_reset. simpl. repeat split; [constructor | lia]. Qed.

(** Read through universal newlines, no cell holds a carriage return or
    exceeds the field size limit. *)
Lemma reader_rows_clean (lines : list string) :
  ∀ r rows,
    Forall no_cr lines → reader_inv r → reader_rows r lines = Ok rows →
    Forall (Forall clean) rows.
Proof.
  induction lines as [|line lines IH]; intros r rows Hlines Hinv.
  - simpl. destruct (_ || _); intros [= <-]; repeat constructor.
    by apply parse_save_field_inv.
  - apply Forall_cons in Hlines as [Hline Hlines]. cbn [reader_rows].
    destruct (parse_line r line) as [r'|] eqn:E; [|done]. simpl.
    pose proof (parse_line_inv line r r' Hline Hinv E) as Hinv'.
    destruct (state_eqb (rd_state r') START_RECORD).
    + destruct (reader_rows parse_reset lines) as [rows'|] eqn:E'; [|done].
      simpl. intros [= <-]. constructor; [apply Hinv'|].
      by apply (IH parse_reset rows' Hlines parse_reset_inv).
    + by apply IH.
Qed.

Lemma dict_set_clean (k : string) (v : value) (d : record) :
  match v with VStr s => clean s | _ => True end →
  entries_clean d → entries_clean (dict_set k v d).
Proof.
  unfold entries_clean. intros Hv. induction 1 as [|e d He Hd IH]; simpl.
  - by repeat constructor.
  - destruct e as [k' v'|vs]; [|by constructor].
    destruct (String.eqb k' k); by constructor.
Qed.

Lemma dict_set_rest_clean (vs : list string) (d : record) :
  entries_clean d → entries_clean (dict_set_rest vs d).
Proof.
  unfold entries_clean. induction 1 as [|e d He Hd IH]; simpl.
  - by repeat constructor.
  - destruct e as [k' v'|vs']; by constructor.
Qed.

Lemma dict_zip_clean (names row : list string) :
  Forall clean row → entries_clean (dict_zip names row).
Proof.
  intros Hrow. unfold dict_zip.
  assert (Forall (λ kv : string * string, clean (snd kv)) (combine names row)) as H.
  { revert names. induction Hrow as [|x row Hx _ IH]; intros [|n names]; simpl;
      constructor; (done || apply IH). }
  assert (entries_clean []) as Hd by constructor.
  revert Hd. generalize (@nil entry).
  induction H as [|kv l Hkv _ IH]; intros d Hd; simpl; [done|].
  apply IH. by apply dict_set_clean.
Qed.

Lemma DictReader_row_clean (names row : list string) :
  Forall clean row → entries_clean (DictReader_row names row).
Proof.
  intros Hrow. pose proof (dict_zip_clean names row Hrow) as H.
  unfold DictReader_row.
  destruct (length names <? length row)%nat; [by apply dict_set_rest_clean|].
  destruct (length row <? length names)%nat; [|done].
  revert H. generalize (dict_zip names row).
  induction (drop (length row) names) as [|k ks IH]; intros d Hd; simpl; [done|].
  apply IH. by apply dict_set_clean.
Qed.

Lemma entries_clean_values (d : record) : entries_clean d → values_clean d.
Proof.
  unfold entries_clean, values_clean. intros H k s Hk.
  apply dict_lookup_elem in Hk. rewrite Forall_forall in H. by apply (H _ Hk).
Qed.

(** Every text of a loaded inventory is [clean]. *)
Lemma read_inventory_clean (fs : gmap string string) (filename : string)
    (inventory : list record) :
  read_inventory fs filename = Ok inventory → Forall values_clean inventory.
Proof.
  unfold read_inventory. destruct (fs !! filename) as [content|]; [|done].
  unfold DictReader_rows.
  destruct (reader_rows parse_reset (file_lines content)) as [rows|] eqn:E; [|done].
  apply reader_rows_clean in E; [|apply file_lines_no_cr | apply parse_reset_inv].
  simpl. destruct rows as [|names rows]; intros [= <-]; [constructor|].
  apply Forall_cons in E as [_ E]. apply Forall_fmap.
  induction E as [|row rows Hrow _ IH]; simpl; [constructor|].
  destruct (row_is_empty row); simpl; [done|]. constructor; [|done].
  by apply entries_clean_values, DictReader_row_clean.
Qed.

(** ** Mutator, Persister and Loader in a row *)

(** The refutation of C6 as stated: a data row that stops short loads as
    a record with the five keys, the missing cells bound to [None]; after
    [add_device], [save_inventory] and [read_inventory] those cells come
    back as empty texts, so the first record is no longer the original
    one. *)
Lemma add_save_load_short_row :
  read_inventory short_row_fs inventory_csv = Ok [router2_short]
  ∧ has_exactly_five router2_short ∧ has_exactly_five switch1
  ∧ add_save_load short_row_fs inventory_csv {[ 0%nat := [router2_short] ]} 0%nat switch1
    = (Ok tt, Ok [router2_blank; switch1])
  ∧ ¬ dict_eq router2_blank router2_short.
Proof.
  split; [reflexivity|].
  split; [unfold has_exactly_five; reflexivity|].
  split; [unfold has_exactly_five; reflexivity|].
  split; [reflexivity|].
  intros [H _]. specialize (H "Username"%string). discriminate.
Qed.

(** A carriage return in a cell does not come back either: written
    inside quotes, it is read as a line feed, because [read_inventory]
    opens the file without [newline=""]. *)
Lemma add_save_load_carriage_return :
  add_save_load sample_fs inventory_csv {[ 0%nat := [router1] ]} 0%nat
    (switch2 two_lines_cr)
  = (Ok tt, Ok [router1; switch2 two_lines_lf]).
Proof. reflexivity. Qed.

(** C6, amended. Take an inventory loaded from a file, whose records
    have exactly the five keys, each bound to a text (no [None] left by
    a short row), and a new record with the five keys bound to texts
    that hold no carriage return and at most [field_limit] characters.
    Then [add_device], [save_inventory] and [read_inventory] on the same
    path succeed and yield, in order, records equal to the original ones
    followed by one record equal to the new one. *)
Theorem add_save_load_roundtrip (fs : gmap string string) (filename : string)
    (h : gmap nat (list record)) (inventory_data : nat)
    (inventory : list record) (new_device : record) :
  read_inventory fs filename = Ok inventory →
  h !! inventory_data = Some inventory →
  Forall has_exactly_five inventory → Forall text_valued inventory →
  has_exactly_five new_device → text_valued new_device → entries_clean new_device →
  ∃ loaded,
    add_save_load fs filename h inventory_data new_device = (Ok tt, Ok loaded)
    ∧ Forall2 dict_eq loaded (inventory ++ [new_device]).
Proof.
  intros Hload Hh H5 Ht H5n Htn Hcn.
  exists (map reloaded (inventory ++ [new_device])).
  assert (Forall has_exactly_five (inventory ++ [new_device])) as H5'.
  { apply Forall_app. split; [done | by constructor]. }
  assert (Forall text_valued (inventory ++ [new_device])) as Ht'.
  { apply Forall_app. split; [done | by constructor]. }
  assert (Forall values_clean (inventory ++ [new_device])) as Hc'.
  { apply Forall_app. split; [by apply (read_inventory_clean fs filename)|].
    constructor; [by apply entries_clean_values | constructor]. }
  split.
  - unfold add_save_load.
    rewrite (add_device_aliased h inventory_data inventory_data inventory new_device
               eq_refl Hh).
    cbn [default]. rewrite save_inventory_ok.
    2: { eapply Forall_impl; [exact H5'|]. apply has_exactly_five_no_extra. }
    cbn [fst snd]. rewrite read_inventory_written; [done|].
    clear -H5' Ht' Hc'.
    induction H5' as [|d l Hd _ IH]; [constructor|].
    apply Forall_cons in Ht' as [Htd Ht']. apply Forall_cons in Hc' as [Hcd Hc'].
    constructor; [by apply row_texts_clean | by apply IH].
  - apply Forall2_fmap_l. clear -H5' Ht'.
    induction H5' as [|d l Hd _ IH]; [constructor|].
    apply Forall_cons in Ht' as [Htd Ht'].
    constructor; [by apply reloaded_dict_eq | by apply IH].
Qed.

Lemma add_save_load_roundtrip_witness :
  ∃ loaded,
    add_save_load sample_fs inventory_csv {[ 0%nat := [router1] ]} 0%nat switch1
    = (Ok tt, Ok loaded)
    ∧ Forall2 dict_eq loaded ([router1] ++ [switch1]).
Proof.
  apply (add_save_load_roundtrip sample_fs inventory_csv {[ 0%nat := [router1] ]}
           0%nat [router1] switch1).
  - reflexivity.
  - reflexivity.
  - repeat constructor.
  - repeat constructor; by eexists.
  - unfold has_exactly_five. reflexivity.
  - repeat constructor; by eexists.
  - repeat constructor; by vm_compute.
Defined.

(** * Further properties *)

(** ** Finder, on any inventory *)

Lemma get_device_data_cons (d : record) (l : list record) (s : string) :
  get_device_data (d :: l) s =
  match dict_lookup "Name" d with
  | None => Raise KeyError
  | Some v => if value_eqb v s then Ok (Some d) else get_device_data l s
  end.
Proof. done. Qed.

(** The search goes on in what follows a part without a match, and
    stops in a part that has one or that raises. *)
Lemma get_device_data_app (l l' : list record) (s : string) :
  get_device_data (l ++ l') s =
  match get_device_data l s with
  | Ok None => get_device_data l' s
  | r => r
  end.
Proof.
  induction l as [|d l IH]; [done|].
  rewrite <- app_comm_cons, !get_device_data_cons.
  destruct (dict_lookup "Name" d) as [v|]; [|done].
  by destruct (value_eqb v s).
Qed.

Lemma get_device_data_total (inventory : list record) (s : string) :
  Forall has_name inventory → ∃ r, get_device_data inventory s = Ok r.
Proof.
  induction 1 as [|d l [v Hv] _ [r IH]]; [by eexists|].
  rewrite get_device_data_cons, Hv. destruct (value_eqb v s); by eexists.
Qed.

(** X1. Whatever the inventory holds, a record that the Finder returns
    is one of its records and its ["Name"] is the target. *)
Theorem get_device_data_returns_member (inventory : list record)
    (device_name : string) (device : record) :
  get_device_data inventory device_name = Ok (Some device) →
  device ∈ inventory ∧ name_is device device_name.
Proof.
  induction inventory as [|d l IH]; [done|].
  rewrite get_device_data_cons.
  destruct (dict_lookup "Name" d) as [v|] eqn:Ev; [|done].
  destruct (value_eqb v device_name) eqn:E.
  - intros [= <-]. apply value_eqb_true in E. subst v. split; [left | done].
  - intros [Hin Hname]%IH. split; [by right | done].
Qed.

Lemma get_device_data_returns_member_witness :
  router1 ∈ [switch1; router1] ∧ name_is router1 "Router1".
Proof.
  apply (get_device_data_returns_member [switch1; router1] "Router1").
  reflexivity.
Defined.

(** X2. The only exception of the Finder is [KeyError], and it is raised
    exactly when a record without the ["Name"] key comes before any
    record with the target name. *)
Theorem get_device_data_raises (inventory : list record) (device_name : string)
    (e : exn) :
  get_device_data inventory device_name = Raise e ↔
  e = KeyError ∧
  ∃ before device after,
    inventory = before ++ device :: after ∧
    dict_lookup "Name" device = None ∧
    Forall (λ d, has_name d ∧ ¬ name_is d device_name) before.
Proof.
  split.
  - induction inventory as [|d l IH]; [done|].
    rewrite get_device_data_cons.
    destruct (dict_lookup "Name" d) as [v|] eqn:Ev.
    + destruct (value_eqb v device_name) eqn:E; [done|].
      intros (-> & before & device & after & -> & Hnone & Hbefore)%IH.
      split; [done|]. exists (d :: before), device, after.
      repeat split; [done|]. constructor; [|done]. split; [by eexists|].
      unfold name_is. rewrite Ev. apply value_eqb_false in E. congruence.
    + intros [= <-]. split; [done|]. exists [], d, l. by repeat split.
  - intros (-> & before & device & after & -> & Hnone & Hbefore).
    rewrite get_device_data_app.
    assert (get_device_data before device_name = Ok None) as ->.
    { induction Hbefore as [|b before [[v Hv] Hb] _ IH]; [done|].
      rewrite get_device_data_cons, Hv.
      assert (value_eqb v device_name = false) as ->; [|done].
      apply value_eqb_false. unfold name_is in Hb. congruence. }
    by rewrite get_device_data_cons, Hnone.
Qed.

Lemma get_device_data_raises_witness :
  get_device_data [switch1; nameless; router1] "Router1" = Raise KeyError.
Proof.
  apply (get_device_data_raises [switch1; nameless; router1] "Router1" KeyError).
  split; [reflexivity|]. exists [switch1], nameless, [router1].
  split; [reflexivity|]. split; [reflexivity|].
  repeat constructor; [by eexists | discriminate].
Defined.

(** X3. Appending a record changes the answer of the Finder only for a
    name that was found nowhere: a record that was found is still the
    one found (a new record with the same name never takes its place),
    an exception is still raised, and a name that was absent is looked
    up in the new record alone. *)
Theorem get_device_data_after_add (h : gmap nat (list record)) (inventory_data : nat)
    (inventory : list record) (new_device : record) (device_name : string) :
  h !! inventory_data = Some inventory →
  add_device h inventory_data new_device !! inventory_data
  = Some (inventory ++ [new_device])
  ∧ (∀ device, get_device_data inventory device_name = Ok (Some device) →
       get_device_data (inventory ++ [new_device]) device_name = Ok (Some device))
  ∧ (∀ e, get_device_data inventory device_name = Raise e →
       get_device_data (inventory ++ [new_device]) device_name = Raise e)
  ∧ (get_device_data inventory device_name = Ok None →
       get_device_data (inventory ++ [new_device]) device_name
       = get_device_data [new_device] device_name).
Proof.
  intros Hh. split; [by apply add_device_aliased|].
  rewrite get_device_data_app.
  repeat split; [intros device H | intros e H | intros H]; by rewrite H.
Qed.

Lemma get_device_data_after_add_witness :
  get_device_data ([router1; switch1] ++ [router1_again]) "Router1"
  = Ok (Some router1).
Proof.
  apply (get_device_data_after_add {[ 0%nat := [router1; switch1] ]} 0%nat
           [router1; switch1] router1_again "Router1"); reflexivity.
Defined.

(** ** Loader *)

Lemma dict_set_Forall (P : entry → Prop) (k : string) (v : value) (d : record) :
  P (Field k v) → Forall P d → Forall P (dict_set k v d).
Proof.
  intros Hv. induction 1 as [|e d He Hd IH]; simpl; [by repeat constructor|].
  destruct e as [k' v'|vs]; [|by constructor].
  destruct (String.eqb k' k) eqn:E; [|by constructor].
  apply String.eqb_eq in E. subst k'. by constructor.
Qed.

Lemma dict_set_rest_Forall (P : entry → Prop) (vs : list string) (d : record) :
  P (Rest vs) → Forall P d → Forall P (dict_set_rest vs d).
Proof.
  intros Hv. induction 1 as [|e d He Hd IH]; simpl; [by repeat constructor|].
  destruct e as [k' v'|vs']; by constructor.
Qed.

Lemma dict_set_keys (x : option string) (k : string) (v : value) (d : record) :
  x ∈ dict_keys (dict_set k v d) ↔ x ∈ dict_keys d ∨ x = Some k.
Proof.
  induction d as [|[k' v'|vs] d IH]; simpl.
  - rewrite list_elem_of_singleton. split; [by right | intros [?%elem_of_nil|]; done].
  - destruct (String.eqb k' k) eqn:E; simpl.
    + apply String.eqb_eq in E. subst k'. rewrite !elem_of_cons. tauto.
    + rewrite !elem_of_cons, IH. tauto.
  - rewrite !elem_of_cons, IH. tauto.
Qed.

Lemma dict_set_rest_keys (x : option string) (vs : list string) (d : record) :
  x ∈ dict_keys (dict_set_rest vs d) ↔ x ∈ dict_keys d ∨ x = None.
Proof.
  induction d as [|[k' v'|vs'] d IH]; simpl.
  - rewrite list_elem_of_singleton. split; [by right | intros [?%elem_of_nil|]; done].
  - rewrite !elem_of_cons, IH. tauto.
  - rewrite !elem_of_cons. tauto.
Qed.

Lemma dict_set_NoDup (k : string) (v : value) (d : record) :
  NoDup (dict_keys d) → NoDup (dict_keys (dict_set k v d)).
Proof.
  induction d as [|[k' v'|vs] d IH]; simpl.
  - intros _. apply NoDup_singleton.
  - intros [Hnot Hnd]%NoDup_cons. destruct (String.eqb k' k) eqn:E; simpl.
    + by apply NoDup_cons.
    + apply NoDup_cons. split; [|by apply IH].
      rewrite (dict_set_keys (Some k') k v d). intros [?|[= ->]]; [done|].
      by rewrite String.eqb_refl in E.
  - intros [Hnot Hnd]%NoDup_cons. apply NoDup_cons. split; [|by apply IH].
    rewrite (dict_set_keys None k v d). by intros [?|?].
Qed.

Lemma dict_set_rest_NoDup (vs : list string) (d : record) :
  NoDup (dict_keys d) → NoDup (dict_keys (dict_set_rest vs d)).
Proof.
  induction d as [|[k' v'|vs'] d IH]; simpl.
  - intros _. apply NoDup_singleton.
  - intros [Hnot Hnd]%NoDup_cons. apply NoDup_cons. split; [|by apply IH].
    rewrite (dict_set_rest_keys (Some k') vs d). by intros [?|?].
  - done.
Qed.

Lemma is_Some_dict_lookup (k : string) (d : record) :
  is_Some (dict_lookup k d) ↔ Some k ∈ dict_keys d.
Proof.
  rewrite <- not_eq_None_Some, dict_lookup_None.
  split; [apply dec_stable | by intros ??].
Qed.

(** One invariant [P] of records and the keys, through the folds of
    [DictReader]. *)
Lemma fold_dict_set_spec (P : entry → Prop) (f : string * string → value)
    (l : list (string * string)) :
  ∀ d : record,
    Forall (λ kv, P (Field (fst kv) (f kv))) l →
    Forall P d → NoDup (dict_keys d) →
    let d' := fold_left (λ d kv, dict_set (fst kv) (f kv) d) l d in
    Forall P d' ∧ NoDup (dict_keys d') ∧
    ∀ x, x ∈ dict_keys d' ↔ x ∈ dict_keys d ∨ x ∈ map Some (map fst l).
Proof.
  induction l as [|kv l IH]; intros d Hl Hd Hnd; simpl.
  - split_and!; [done..|]. intros x. rewrite elem_of_nil. tauto.
  - apply Forall_cons in Hl as [Hkv Hl].
    destruct (IH (dict_set (fst kv) (f kv) d) Hl) as (H1 & H2 & H3).
    { by apply dict_set_Forall. }
    { by apply dict_set_NoDup. }
    split_and!; [done..|]. intros x.
    rewrite H3, dict_set_keys, elem_of_cons. tauto.
Qed.

Lemma combine_fst (names row : list string) :
  map fst (combine names row) = take (length row) names.
Proof.
  revert row. induction names as [|n names IH]; intros [|x row]; simpl; try done.
  by rewrite IH.
Qed.

Lemma combine_snd_Forall (P : string → Prop) (names row : list string) :
  Forall P row → Forall (λ kv : string * string, P (snd kv)) (combine names row).
Proof.
  intros H. revert names.
  induction H as [|x row Hx _ IH]; intros [|n names]; simpl; constructor;
    (done || apply IH).
Qed.

(** The record of a row: its entries are as [entry_loaded] says, its keys
    are distinct, and its columns are those of the header. *)
Lemma DictReader_row_spec (names row : list string) :
  Forall clean row →
  let d := DictReader_row names row in
  Forall entry_loaded d ∧ NoDup (dict_keys d) ∧
  ∀ k, is_Some (dict_lookup k d) ↔ k ∈ names.
Proof.
  intros Hrow.
  destruct (fold_dict_set_spec entry_loaded (λ kv, VStr (snd kv))
              (combine names row) []) as (Z1 & Z2 & Z3);
    [by apply combine_snd_Forall | constructor | apply NoDup_nil_2 |].
  fold (dict_zip names row) in Z1, Z2, Z3. rewrite combine_fst in Z3.
  unfold DictReader_row.
  destruct (length names <? length row)%nat eqn:E1.
  - apply Nat.ltb_lt in E1. split_and!.
    + apply dict_set_rest_Forall; [|done]. split.
      * intros Hnil. apply (f_equal length) in Hnil.
        rewrite length_drop in Hnil. simpl in Hnil. lia.
      * by apply Forall_drop.
    + by apply dict_set_rest_NoDup.
    + intros k. rewrite is_Some_dict_lookup, dict_set_rest_keys, Z3.
      rewrite take_ge by lia. rewrite list_elem_of_fmap. split.
      * intros [[H|(y & [= ->] & Hy)]|H]; [by apply elem_of_nil in H|done|done].
      * intros H. left. right. by exists k.
  - apply Nat.ltb_ge in E1. destruct (length row <? length names)%nat eqn:E2.
    + destruct (fold_dict_set_spec entry_loaded (λ _, VNone)
                  (map (λ k, (k, ""%string)) (drop (length row) names))
                  (dict_zip names row)) as (Y1 & Y2 & Y3); [|done|done|].
      { apply Forall_fmap. by apply Forall_true. }
      assert (∀ l (d : record),
        fold_left (λ d kv, dict_set (fst kv) VNone d)
          (map (λ k, (k, ""%string)) l) d
        = fold_left (λ d key, dict_set key VNone d) l d) as Hfold.
      { induction l as [|x l IH]; intros d; simpl; [done | apply IH]. }
      rewrite Hfold in Y1, Y2, Y3. split_and!; [done..|].
      intros k. rewrite is_Some_dict_lookup, Y3, Z3.
      assert (∀ l : list string, map fst (map (λ k, (k, ""%string)) l) = l) as Hfst.
      { induction l as [|x l IH]; simpl; [done | by rewrite IH]. }
      rewrite Hfst.
      rewrite <- (take_drop (length row) names) at 3.
      rewrite elem_of_app, !list_elem_of_fmap. split.
      * intros [[H|(y & [= ->] & Hy)]|(y & [= ->] & Hy)];
          [by apply elem_of_nil in H | by left | by right].
      * intros [H|H]; [left; right | right]; by exists k.
    + apply Nat.ltb_ge in E2. split_and!; [done..|].
      intros k. rewrite is_Some_dict_lookup, Z3.
      rewrite take_ge by lia. rewrite list_elem_of_fmap. split.
      * intros [H|(y & [= ->] & Hy)]; [by apply elem_of_nil in H | done].
      * intros H. right. by exists k.
Qed.

(** What [read_inventory] returns, in terms of the rows of the reader. *)
Lemma read_inventory_rows (fs : gmap string string) (filename : string)
    (inventory : list record) :
  read_inventory fs filename = Ok inventory →
  inventory = [] ∨
  ∃ names rows,
    Forall (Forall clean) rows ∧
    inventory = map (DictReader_row names) rows.
Proof.
  unfold read_inventory. destruct (fs !! filename) as [content|]; [|done].
  unfold DictReader_rows.
  destruct (reader_rows parse_reset (file_lines content)) as [rows|] eqn:E; [|done].
  apply reader_rows_clean in E; [|apply file_lines_no_cr | apply parse_reset_inv].
  simpl. destruct rows as [|names rows]; intros [= <-]; [by left|].
  right. apply Forall_cons in E as [_ E].
  exists names, (List.filter (λ row, negb (row_is_empty row)) rows).
  split; [|done].
  induction E as [|row rows Hrow _ IH]; simpl; [constructor|].
  destruct (row_is_empty row); simpl; [done | by constructor].
Qed.

(** X4. Every value of a loaded record is [None] or a text that holds
    no carriage return and at most [field_limit] characters, never a
    list; the key [None], when a record has it, is bound to a list, not
    empty, of such texts. *)
Theorem read_inventory_values (fs : gmap string string) (filename : string)
    (inventory : list record) :
  read_inventory fs filename = Ok inventory →
  Forall (Forall entry_loaded) inventory.
Proof.
  intros [->|(names & rows & Hrows & ->)]%read_inventory_rows; [constructor|].
  apply Forall_fmap. eapply Forall_impl; [exact Hrows|].
  intros row Hrow. by destruct (DictReader_row_spec names row Hrow) as (? & ? & ?).
Qed.

Lemma read_inventory_values_witness :
  Forall (Forall entry_loaded) three_columns_inventory.
Proof.
  apply (read_inventory_values three_columns_fs inventory_csv). reflexivity.
Defined.

(** X5. The keys of a loaded record are distinct, and all the records of
    one load have the same columns, those of the header row: a column
    that one record has, every record has. *)
Theorem read_inventory_columns (fs : gmap string string) (filename : string)
    (inventory : list record) :
  read_inventory fs filename = Ok inventory →
  Forall (λ d, NoDup (dict_keys d)) inventory
  ∧ ∃ names : list string,
      Forall (λ d, ∀ k, is_Some (dict_lookup k d) ↔ k ∈ names) inventory.
Proof.
  intros [->|(names & rows & Hrows & ->)]%read_inventory_rows.
  { split; [constructor | exists []; constructor]. }
  split; [|exists names]; apply Forall_fmap; (eapply Forall_impl; [exact Hrows|]);
    intros row Hrow; by destruct (DictReader_row_spec names row Hrow) as (? & ? & ?).
Qed.

Lemma read_inventory_columns_witness :
  Forall (λ d, NoDup (dict_keys d)) three_columns_inventory
  ∧ ∃ names : list string,
      Forall (λ d, ∀ k, is_Some (dict_lookup k d) ↔ k ∈ names) three_columns_inventory.
Proof.
  apply (read_inventory_columns three_columns_fs inventory_csv). reflexivity.
Defined.

(** X6. On a loaded inventory whose first record has a ["Name"], the
    Finder never raises: every record of the load has the column. *)
Theorem get_device_data_on_loaded (fs : gmap string string) (filename : string)
    (first : record) (others : list record) (device_name : string) :
  read_inventory fs filename = Ok (first :: others) →
  has_name first →
  Forall has_name (first :: others)
  ∧ ∃ found, get_device_data (first :: others) device_name = Ok found.
Proof.
  intros Hload Hfirst.
  assert (Forall has_name (first :: others)) as Hall.
  { destruct (read_inventory_rows _ _ _ Hload) as [?|(names & rows & Hrows & E)];
      [done|].
    assert (Forall (λ d, ∀ k, is_Some (dict_lookup k d) ↔ k ∈ names)
              (first :: others)) as Hcols.
    { rewrite E. apply Forall_fmap. eapply Forall_impl; [exact Hrows|].
      intros row Hrow. by destruct (DictReader_row_spec names row Hrow) as (? & ? & ?). }
    pose proof (Forall_inv Hcols) as H0. apply H0 in Hfirst.
    eapply Forall_impl; [exact Hcols|]. intros d Hd. by apply Hd. }
  split; [done | by apply get_device_data_total].
Qed.

Lemma get_device_data_on_loaded_witness :
  ∃ found, get_device_data three_columns_inventory "Switch1" = Ok found.
Proof.
  apply (get_device_data_on_loaded three_columns_fs inventory_csv); [reflexivity|].
  by eexists.
Defined.

(** ** Persister, on any inventory *)



Lemma clean_empty : clean "".
Proof. by vm_compute. Qed.

Lemma values_clean_row_texts (d : record) :
  values_clean d → Forall clean (row_texts d).
Proof.
  intros H.
  assert (∀ k, clean (cell_text (cell_of d k))) as Hk.
  { intros k. unfold cell_of. destruct (dict_lookup k d) as [[|s|]|] eqn:E; simpl.
    - apply clean_empty.
    - by apply (H k).
    - by vm_compute.
    - apply clean_empty. }
  unfold row_texts, row_cells. simpl. repeat (constructor; [apply Hk|]). constructor.
Qed.

Lemma reloaded_no_extra (d : record) : ¬ has_extra_key (reloaded d).
Proof. by apply wrong_fields_nil. Qed.

Lemma rows_text_reloaded (inventory : list record) :
  rows_text (map reloaded inventory) = rows_text inventory.
Proof.
  induction inventory as [|d l IH]; [done|].
  cbn [map rows_text]. rewrite IH.
  replace (row_line (reloaded d)) with (row_line d); [done|].
  unfold row_line. rewrite !writer_writerow_enc.
  by change (map cell_text (row_cells (reloaded d))) with (row_texts d).
Qed.


(** X8. Persister, then Loader, on any inventory that can be stored:
    when no record has a key besides the five column names and every
    text in a record is without carriage return and within the field
    size limit, the save succeeds and the load of the saved file gives,
    record by record, the five columns in header order, each bound to
    the text of its cell: a missing column and a [None] come back as the
    empty text. *)
Theorem save_inventory_then_read (fs : gmap string string) (filename : string)
    (inventory : list record) :
  Forall (λ d, ¬ has_extra_key d) inventory →
  Forall values_clean inventory →
  snd (save_inventory fs filename inventory) = Ok tt
  ∧ read_inventory (fst (save_inventory fs filename inventory)) filename
    = Ok (map reloaded inventory).
Proof.
  intros Hx Hc. rewrite (save_inventory_ok _ _ _ Hx). cbn [fst snd].
  split; [done|]. apply read_inventory_written.
  eapply Forall_impl; [exact Hc|]. apply values_clean_row_texts.
Qed.

Lemma save_inventory_then_read_witness :
  snd (save_inventory ∅ inventory_csv [router1_no_password; router2_short]) = Ok tt
  ∧ read_inventory
      (fst (save_inventory ∅ inventory_csv [router1_no_password; router2_short]))
      inventory_csv
    = Ok (map reloaded [router1_no_password; router2_short]).
Proof.
  apply (save_inventory_then_read ∅ inventory_csv [router1_no_password; router2_short]).
  - repeat (constructor; [by apply wrong_fields_nil|]). constructor.
  - repeat (constructor; [apply entries_clean_values; repeat constructor; by vm_compute|]).
    constructor.
Defined.

(** X9. One cycle of Loader and Persister settles a file: when a loaded
    inventory has no key besides the five column names, saving it
    succeeds, the saved file loads as the records in their stored form,
    and saving those again leaves the file system exactly as it is. *)
Theorem load_save_stable (fs : gmap string string) (filename : string)
    (inventory : list record) :
  read_inventory fs filename = Ok inventory →
  Forall (λ d, ¬ has_extra_key d) inventory →
  let fs1 := fst (save_inventory fs filename inventory) in
  snd (save_inventory fs filename inventory) = Ok tt
  ∧ read_inventory fs1 filename = Ok (map reloaded inventory)
  ∧ save_inventory fs1 filename (map reloaded inventory) = (fs1, Ok tt).
Proof.
  intros Hload Hx. cbn zeta.
  rewrite (save_inventory_ok _ _ _ Hx). cbn [fst snd].
  split; [done|]. split.
  - apply read_inventory_written.
    eapply Forall_impl; [exact (read_inventory_clean _ _ _ Hload)|].
    apply values_clean_row_texts.
  - rewrite save_inventory_ok.
    2: { apply Forall_fmap, Forall_true. intros d. apply reloaded_no_extra. }
    by rewrite rows_text_reloaded, insert_insert_eq.
Qed.

Lemma load_save_stable_witness :
  read_inventory (fst (save_inventory short_row_fs inventory_csv [router2_short]))
    inventory_csv
  = Ok (map reloaded [router2_short]).
Proof.
  apply (load_save_stable short_row_fs inventory_csv [router2_short]).
  - reflexivity.
  - repeat (constructor; [by apply wrong_fields_nil|]). constructor.
Defined.

(** ** Command line, on flags and values *)

Lemma parse_optional_plain (tbl : list (string * Action)) (s : string) :
  plain s → _parse_optional tbl s = Got None.
Proof. destruct s as [|c t]; simpl; [done|]. by intros ->. Qed.

Lemma plain_not_dashes (s : string) : plain s → String.eqb s "--" = false.
Proof.
  destruct s as [|c t]; [done|]. simpl. unfold is_dash, ch_eqb. by intros ->.
Qed.

Lemma classify_cons (tbl : list (string * Action)) (s : string)
    (o : option (option Action * string * option string))
    (rest : list string) (l : list (string * arg_class)) :
  String.eqb s "--" = false →
  _parse_optional tbl s = Got o →
  classify tbl false rest = Got l →
  classify tbl false (s :: rest)
  = Got ((s, match o with
             | None => ArgA
             | Some (a, os, e) => ArgO a os e
             end) :: l).
Proof. intros H1 H2 H3. cbn [classify]. by rewrite H1, H2, H3. Qed.

(** The letters of flags and values, for a parser that takes the flag
    of [d] for the action [a d]. *)
Lemma classify_flag_args (tbl : list (string * Action)) (a : Dest → option Action)
    (flags : list (Dest * string)) :
  (∀ d, _parse_optional tbl (flag_of d) = Got (Some (a d, flag_of d, None))) →
  Forall (λ f, plain (snd f)) flags →
  classify tbl false (flag_args flags)
  = Got (flat_map (λ f, [(flag_of (fst f), ArgO (a (fst f)) (flag_of (fst f)) None);
                         (snd f, ArgA)]) flags).
Proof.
  intros Ha. induction 1 as [|[d v] flags Hv _ IH]; [done|].
  cbn [flag_args flat_map app fst snd]. fold (flag_args flags).
  rewrite (classify_cons tbl (flag_of d) (Some (a d, flag_of d, None))
             (v :: flag_args flags) _ ltac:(by destruct d) (Ha d)
             (classify_cons tbl v None (flag_args flags) _
                (plain_not_dashes v Hv) (parse_optional_plain tbl v Hv) IH)).
  done.
Qed.

Lemma consume_args_flags (flags : list (Dest * string)) :
  Forall (λ f, plain (snd f)) flags →
  ∀ (seen : list Dest) (ns : Namespace) (extras : list string),
    consume_args (option_string_actions add_parser)
      (flat_map (λ f, [(flag_of (fst f),
                        ArgO (Some (StoreAction (fst f))) (flag_of (fst f)) None);
                       (snd f, ArgA)]) flags) seen ns extras
    = Got (rev (map fst flags) ++ seen,
           fold_left (λ ns f, ns_set (fst f) (VStr (snd f)) ns) flags ns,
           extras).
Proof.
  induction 1 as [|[d v] flags Hv _ IH]; intros seen ns extras; [done|].
  cbn [flat_map app fst snd consume_args consume_optional consume_following nargs
       take_actions _get_values map rev fold_left].
  rewrite (plain_not_dashes v Hv), IH. by rewrite <- app_assoc.
Qed.

Lemma existsb_rev {A : Type} (f : A → bool) (l : list A) :
  existsb f (rev l) = existsb f l.
Proof.
  induction l as [|x l IH]; [done|].
  simpl. rewrite existsb_app, IH. simpl. rewrite orb_false_r. apply orb_comm.
Qed.

Lemma required_actions_add (seen : list Dest) :
  required_actions (option_string_actions add_parser) seen
  = map flag_of (List.filter (λ d, negb (existsb (dest_eqb d) seen)) all_dests).
Proof.
  unfold all_dests. simpl.
  destruct (existsb (dest_eqb d_name) seen), (existsb (dest_eqb d_ip) seen),
    (existsb (dest_eqb d_user) seen), (existsb (dest_eqb d_password) seen),
    (existsb (dest_eqb d_desc) seen); reflexivity.
Qed.

Lemma parse_known_args_flags (flags : list (Dest * string)) :
  Forall (λ f, plain (snd f)) flags →
  parse_known_args add_parser (flag_args flags)
  = match missing_flags flags with
    | [] => Got (ns_of flags, [])
    | names => ExitError (ErrRequired names)
    end.
Proof.
  intros Hv. unfold parse_known_args.
  rewrite (classify_flag_args (option_string_actions add_parser)
             (λ d, Some (StoreAction d)) flags ltac:(intros []; reflexivity) Hv).
  rewrite (consume_args_flags flags Hv), required_actions_add, app_nil_r.
  replace (map flag_of (List.filter _ all_dests)) with (missing_flags flags).
  2: { unfold missing_flags, given. f_equal. apply List.filter_ext.
       intros d. by rewrite existsb_rev. }
  by destruct (missing_flags flags).
Qed.

Lemma parse_args_flags (flags : list (Dest * string)) :
  Forall (λ f, plain (snd f)) flags →
  parse_args setup_cli ("add"%string :: flag_args flags)
  = match missing_flags flags with
    | [] => Got (ns_set_command "add" (ns_of flags))
    | names => ExitError (ErrRequired names)
    end.
Proof.
  intros Hv. rewrite parse_args_add.
  rewrite (classify_flag_args (option_string_actions (top_parser setup_cli))
             (λ _, None) flags ltac:(intros []; reflexivity) Hv).
  rewrite (parse_known_args_flags flags Hv).
  by destruct (missing_flags flags).
Qed.

(** X10. The [add] command line made of flags written in full, in any
    order and any number, each followed by a value that does not start
    with a dash: when each of the five flags is given, [parse_args]
    returns the namespace with the command [add] and, for each flag, the
    last value given for it; otherwise it ends with the usage error that
    lists the missing flags in the order of their declaration. *)
Theorem parse_args_add_flags (flags : list (Dest * string)) :
  Forall (λ f, plain (snd f)) flags →
  parse_args setup_cli ("add"%string :: flag_args flags)
  = match missing_flags flags with
    | [] => Got (ns_set_command "add" (ns_of flags))
    | names => ExitError (ErrRequired names)
    end.
Proof. apply parse_args_flags. Qed.

Lemma parse_args_add_flags_witness :
  parse_args setup_cli
    ("add"%string :: flag_args ((d_name, "Router9"%string) :: switch1_flags))
  = Got (mkNs (Some "add"%string) (VStr "Switch1") (VStr "10.0.0.2") (VStr "admin")
           (VStr "pass456") (VStr "Access switch"))
  ∧ parse_args setup_cli
      ("add"%string :: flag_args [(d_desc, "Access switch"%string);
                                  (d_name, "Switch1"%string)])
    = ExitError (ErrRequired ["--ip"; "--user"; "--password"]%string).
Proof.
  split.
  - apply (parse_args_add_flags ((d_name, "Router9"%string) :: switch1_flags)).
    repeat constructor.
  - apply (parse_args_add_flags [(d_desc, "Access switch"%string);
                                 (d_name, "Switch1"%string)]).
    repeat constructor.
Defined.

(** ** Command line, what [parse_args] can return *)

Lemma lookup_option_in (tbl : list (string * Action)) (s : string) (a : Action) :
  lookup_option tbl s = Some a → (s, a) ∈ tbl.
Proof.
  induction tbl as [|[os a'] tbl IH]; simpl; [done|].
  destruct (String.eqb os s) eqn:E.
  - apply String.eqb_eq in E. intros [= ->]. subst. left.
  - intros H. right. by apply IH.
Qed.

Lemma get_option_tuples_in (tbl : list (string * Action)) (s os : string)
    (a : Action) (e : option string) :
  (a, os, e) ∈ _get_option_tuples tbl s → (os, a) ∈ tbl.
Proof.
  unfold _get_option_tuples. intros H.
  destruct (second_is_dash s).
  - destruct (match split_eq s with Some (p, e0) => (p, Some e0) | None => (s, None) end)
      as [prefix explicit].
    apply list_elem_of_In, in_flat_map in H as ([os' a'] & Hin & H).
    destruct (String.prefix prefix os'); [|done].
    destruct H as [[= -> -> <-]|[]]. by apply list_elem_of_In.
  - apply list_elem_of_In, in_flat_map in H as ([os' a'] & Hin & H).
    destruct (String.eqb os' (str_take2 s)).
    + destruct H as [[= -> -> <-]|[]]. by apply list_elem_of_In.
    + destruct (String.prefix s os'); [|done].
      destruct H as [[= -> -> <-]|[]]. by apply list_elem_of_In.
Qed.

(** An arg string is taken for an option of the parser only with one of
    the parser's option strings and the action declared for it. *)
Lemma parse_optional_in (tbl : list (string * Action)) (s os : string)
    (a : Action) (e : option string) :
  _parse_optional tbl s = Got (Some (Some a, os, e)) → (os, a) ∈ tbl.
Proof.
  unfold _parse_optional. destruct s as [|c t]; [done|].
  destruct (negb (is_dash c)); [done|].
  destruct (lookup_option tbl (String c t)) as [a0|] eqn:E0.
  { intros [= -> <- <-]. by apply lookup_option_in. }
  destruct t as [|c' t']; [done|].
  destruct (split_eq (String c (String c' t'))) as [[os1 e1]|] eqn:Es.
  - destruct (lookup_option tbl os1) as [a1|] eqn:E1.
    { intros [= -> <- <-]. by apply lookup_option_in. }
    destruct (_get_option_tuples tbl _) as [|[[a2 os2] e2] [|]] eqn:Et.
    + repeat case_match; done.
    + intros [= -> -> ->].
      apply (get_option_tuples_in tbl (String c (String c' t')) os a e).
      rewrite Et. left.
    + done.
  - destruct (_get_option_tuples tbl _) as [|[[a2 os2] e2] [|]] eqn:Et.
    + repeat case_match; done.
    + intros [= -> -> ->].
      apply (get_option_tuples_in tbl (String c (String c' t')) os a e).
      rewrite Et. left.
    + done.
Qed.

Lemma consume_optional_store (tbl : list (string * Action)) (d : Dest)
    (os : string) (e next : option string) (tuples : list (Action * list string))
    (u : bool) :
  consume_optional tbl (StoreAction d) os e next = Take tuples u →
  ∃ args, tuples = [(StoreAction d, args)].
Proof.
  unfold consume_optional. destruct e as [x|].
  - rewrite consume_explicit_store. intros [= <- <-]. by eexists.
  - unfold consume_following. simpl. destruct next; [|discriminate].
    intros [= <- <-]. by eexists.
Qed.

Lemma get_values_not_none (arg_strings : list string) :
  _get_values arg_strings ≠ VNone.
Proof.
  destruct arg_strings as [|s [|]]; simpl; [done| |done].
  by destruct (String.eqb s "--").
Qed.

Lemma ns_get_set (d d' : Dest) (v : value) (ns : Namespace) :
  ns_get d' (ns_set d v ns) = if dest_eqb d d' then v else ns_get d' ns.
Proof. by destruct d, d'. Qed.

(** Every action seen by the main loop has its attribute set. *)
Lemma consume_args_stored (tbl : list (string * Action)) (n : nat) :
  ∀ (l : list (string * arg_class)) (seen : list Dest) (ns : Namespace)
    (extras : list string),
    (length l ≤ n)%nat →
    (∀ d, d ∈ seen → ns_get d ns ≠ VNone) →
    match consume_args tbl l seen ns extras with
    | Got (seen', ns', _) => ∀ d, d ∈ seen' → ns_get d ns' ≠ VNone
    | _ => True
    end.
Proof.
  induction n as [|n IH]; intros l seen ns extras Hlen Hinv.
  { destruct l; [|simpl in Hlen; lia]. done. }
  destruct l as [|[s c] rest]; [done|].
  simpl in Hlen.
  destruct c as [| |[action|] os e]; simpl; try (apply IH; [lia | done]).
  destruct (consume_optional tbl action os e _) as [tuples u|] eqn:Ec; [|done].
  destruct action as [|d0].
  - by rewrite (consume_optional_take _ _ _ _ _ _ _ seen ns Ec).
  - apply consume_optional_store in Ec as [args ->]. simpl.
    assert (∀ d, d ∈ d0 :: seen →
              ns_get d (ns_set d0 (_get_values args) ns) ≠ VNone) as Hinv'.
    { intros d Hd. rewrite ns_get_set. destruct (dest_eqb d0 d) eqn:E.
      - apply get_values_not_none.
      - apply elem_of_cons in Hd as [->|Hd]; [|by apply Hinv].
        by rewrite (proj2 (dest_eqb_eq d0 d0) eq_refl) in E. }
    destruct u, rest as [|x rest']; apply IH; simpl in *; (lia || done).
Qed.

Lemma parse_known_args_stored (arg_strings : list string) (ns : Namespace)
    (extras : list string) :
  parse_known_args add_parser arg_strings = Got (ns, extras) →
  ∀ d, ns_get d ns ≠ VNone.
Proof.
  unfold parse_known_args.
  destruct (classify _ false arg_strings) as [l| |]; [|done|done].
  pose proof (consume_args_stored (option_string_actions add_parser) (length l)
                l [] ns_default [] ltac:(lia)) as H.
  destruct (consume_args _ l [] ns_default []) as [[[seen ns'] extras']| |];
    [|done|done].
  destruct (required_actions _ seen) eqn:Er; [|done].
  intros [= -> ->] d. apply H.
  - by intros d' ?%elem_of_nil.
  - pose proof (required_actions_nil _ _ Er) as Hreq.
    destruct d; eapply Hreq; simpl; rewrite !elem_of_cons; eauto 10.
Qed.

Lemma subparsers_action_got (s : string) (arg_strings : list string)
    (ns : Namespace) (extras : list string) :
  subparsers_action setup_cli s arg_strings = Got (ns, extras) →
  s = "add"%string ∧
  ∃ ns0, parse_known_args add_parser arg_strings = Got (ns0, extras)
         ∧ ns = ns_set_command "add" ns0.
Proof.
  unfold subparsers_action, setup_cli. cbn [name_parser_map lookup_parser].
  destruct (String.eqb_spec "add" s) as [<-|]; [|done].
  destruct (parse_known_args add_parser arg_strings) as [[ns0 extras']| |];
    [|done|done].
  intros [= <- <-]. split; [done|]. by exists ns0.
Qed.

(** The main loop of the top-level parser returns only on no arg string
    at all, or through the sub-parser of a command that comes first. *)
Lemma top_consume_got (args : list (string * arg_class)) :
  (∀ s a os e, (s, ArgO (Some a) os e) ∈ args → a = HelpAction) →
  ∀ (extras : list string) (ns : Namespace),
    top_consume setup_cli args extras = Got ns →
    extras = [] ∧
    (args = [] ∧ ns = ns_default
     ∨ ∃ c rest ns0,
         args = ("add"%string, c) :: rest ∧
         parse_known_args add_parser (map fst rest) = Got (ns0, [])
         ∧ ns = ns_set_command "add" ns0).
Proof.
  assert (∀ s (rest : list (string * arg_class)) extras ns,
    match subparsers_action setup_cli s (map fst rest) with
    | Got (ns', extras') => finish_parse (ns', extras ++ extras')
    | ExitHelp => ExitHelp
    | ExitError e => ExitError e
    end = Got ns →
    extras = [] ∧
    ∃ ns0, s = "add"%string ∧
           parse_known_args add_parser (map fst rest) = Got (ns0, [])
           ∧ ns = ns_set_command "add" ns0) as Hsub.
  { intros s rest extras ns.
    destruct (subparsers_action setup_cli s (map fst rest)) as [[ns' extras']| |] eqn:E;
      [|done|done].
    apply subparsers_action_got in E as (-> & ns0 & Hp & ->).
    unfold finish_parse. cbn [fst snd].
    destruct (extras ++ extras') eqn:Ex; [|done].
    apply app_eq_nil in Ex as [-> ->]. intros [= <-].
    split; [done|]. by exists ns0. }
  induction args as [|[s c] rest IH]; intros Hhelp extras ns.
  - cbn [top_consume]. unfold finish_parse. cbn [fst snd]. destruct extras; [|done].
    intros [= <-]. by split; [|left].
  - destruct c as [| |[action|] os e].
    + cbn [top_consume]. intros (-> & ns0 & -> & Hp & ->)%Hsub.
      split; [done|]. right. by eexists _, _, _.
    + cbn [top_consume]. destruct rest as [|x rest'].
      { unfold finish_parse. cbn [fst snd]. by destruct extras. }
      intros (-> & ns0 & -> & Hp & ->)%Hsub.
      split; [done|]. right. by eexists _, _, _.
    + rewrite (Hhelp s action os e) by left. cbn [top_consume].
      destruct (consume_optional _ HelpAction os e _) as [tuples u|] eqn:Ec; [|done].
      by rewrite (consume_optional_take _ _ _ _ _ _ _ [] ns_default Ec).
    + cbn [top_consume]. intros H. apply IH in H as [Hnil _].
      * by destruct extras.
      * intros s' a' os' e' Hin. apply (Hhelp s' a' os' e'). by right.
Qed.

Lemma parse_args_got (argv : list string) (args : Namespace) :
  parse_args setup_cli argv = Got args →
  argv = [] ∧ args = ns_default
  ∨ ∃ rest ns0,
      argv = "add"%string :: rest ∧
      parse_known_args add_parser rest = Got (ns0, []) ∧
      args = ns_set_command "add" ns0.
Proof.
  unfold parse_args.
  destruct (classify _ false argv) as [l| |] eqn:Ec; [|done|done].
  apply classify_spec in Ec as [<- Hcls]. intros H.
  apply top_consume_got in H as [_ [[-> ->]|(c & rest & ns0 & -> & Hp & ->)]].
  - by left.
  - right. by exists (map fst rest), ns0.
  - intros s a os e Hin. apply Hcls, parse_optional_in in Hin.
    simpl in Hin. by repeat (apply elem_of_cons in Hin as [[= _ <-]|Hin]; [done|]);
      apply elem_of_nil in Hin.
Qed.

(** X11. [parse_args] returns a namespace in two cases only: on no arg
    string at all, with no command and every attribute [None]; or when
    the first arg string is [add], with the command [add] and none of
    the five attributes left [None].  So no other command reaches the
    program, and the record of the new device never holds a [None]. *)
Theorem parse_args_returns (argv : list string) (args : Namespace) :
  parse_args setup_cli argv = Got args →
  argv = [] ∧ args = ns_default
  ∨ ∃ rest, argv = "add"%string :: rest ∧ ns_command args = Some "add"%string
            ∧ ∀ d, ns_get d args ≠ VNone.
Proof.
  intros [?|(rest & ns0 & -> & Hp & ->)]%parse_args_got; [by left | right].
  exists rest. split; [done|]. split; [done|].
  intros d. pose proof (parse_known_args_stored _ _ _ Hp d) as H. by destruct d.
Qed.

Lemma parse_args_returns_witness :
  [ "add"; "--name=--"; "--ip"; "10.0.0.2"; "--user"; "admin"; "--password"; "pass456";
    "--desc"; "Access switch" ]%string = []
  ∧ mkNs (Some "add"%string) VEmptyList (VStr "10.0.0.2") (VStr "admin")
      (VStr "pass456") (VStr "Access switch") = ns_default
  ∨ ∃ rest,
      [ "add"; "--name=--"; "--ip"; "10.0.0.2"; "--user"; "admin"; "--password";
        "pass456"; "--desc"; "Access switch" ]%string = "add"%string :: rest
      ∧ ns_command (mkNs (Some "add"%string) VEmptyList (VStr "10.0.0.2") (VStr "admin")
                      (VStr "pass456") (VStr "Access switch")) = Some "add"%string
      ∧ ∀ d, ns_get d (mkNs (Some "add"%string) VEmptyList (VStr "10.0.0.2")
                         (VStr "admin") (VStr "pass456") (VStr "Access switch"))
             ≠ VNone.
Proof.
  apply (parse_args_returns
           [ "add"; "--name=--"; "--ip"; "10.0.0.2"; "--user"; "admin"; "--password";
             "pass456"; "--desc"; "Access switch" ]%string).
  reflexivity.
Defined.

(** ** The program, on any command line *)

(** A run whose arguments parse to the command [add]. *)
Lemma main_got_add (fs : gmap string string) (argv : list string)
    (inventory : list record) (ns0 : Namespace) :
  read_inventory fs inventory_csv = Ok inventory →
  parse_args setup_cli argv = Got (ns_set_command "add" ns0) →
  main fs argv =
  match save_inventory fs inventory_csv (inventory ++ [new_device_of ns0]) with
  | (fs', Ok _) => mkOutcome fs' [added_message (ns_name ns0)] [] 0
  | (fs', Raise e) => mkOutcome fs' [] [Traceback e] 1
  end.
Proof.
  intros Hload Hparse. unfold main. rewrite Hload, Hparse.
  cbn [ns_command ns_set_command]. rewrite String.eqb_refl.
  rewrite (add_device_aliased {[ 0%nat := inventory ]} 0%nat 0%nat inventory _
             eq_refl (lookup_singleton_eq _ _)).
  done.
Qed.

Lemma new_device_no_extra (ns : Namespace) : ¬ has_extra_key (new_device_of ns).
Proof. by apply wrong_fields_nil. Qed.

(** The attribute of a given flag is a text, one of the values. *)
Lemma ns_fold_get (Q : string → Prop) (flags : list (Dest * string)) :
  Forall (λ f, Q (snd f)) flags →
  ∀ (ns : Namespace) (d : Dest),
    existsb (dest_eqb d) (map fst flags) = true
    ∨ (∃ s, ns_get d ns = VStr s ∧ Q s) →
    ∃ s, ns_get d (fold_left (λ ns f, ns_set (fst f) (VStr (snd f)) ns) flags ns)
         = VStr s ∧ Q s.
Proof.
  induction 1 as [|[d0 v] flags Hv _ IH]; intros ns d; simpl.
  - by intros [?|?].
  - intros H. apply IH. rewrite ns_get_set.
    destruct (dest_eqb d d0) eqn:E.
    + apply dest_eqb_eq in E. subst d0.
      rewrite (proj2 (dest_eqb_eq d d) eq_refl). right. by exists v.
    + destruct (dest_eqb d0 d) eqn:E'.
      { apply dest_eqb_eq in E'. subst d0.
        by rewrite (proj2 (dest_eqb_eq d d) eq_refl) in E. }
      simpl in H. done.
Qed.

Lemma missing_flags_nil (flags : list (Dest * string)) :
  missing_flags flags = [] → ∀ d, given flags d = true.
Proof.
  unfold missing_flags, all_dests. simpl.
  destruct (given flags d_name) eqn:E1, (given flags d_ip) eqn:E2,
    (given flags d_user) eqn:E3, (given flags d_password) eqn:E4,
    (given flags d_desc) eqn:E5; try discriminate.
  by intros _ [].
Qed.

Lemma ns_of_texts (Q : string → Prop) (flags : list (Dest * string)) :
  Forall (λ f, Q (snd f)) flags → missing_flags flags = [] →
  ∀ d, ∃ s, ns_get d (ns_of flags) = VStr s ∧ Q s.
Proof.
  intros HQ Hm d. apply (ns_fold_get Q flags HQ). left.
  by apply missing_flags_nil.
Qed.

Lemma get_device_data_found (inventory : list record) (s : string) (d : record) :
  get_device_data inventory s = Ok (Some d) → name_is d s.
Proof.
  induction inventory as [|x l IH]; [done|].
  rewrite get_device_data_cons.
  destruct (dict_lookup "Name" x) as [v|] eqn:E; [|done].
  destruct (value_eqb v s) eqn:Ev; [|done].
  intros [= <-]. unfold name_is. rewrite E.
  destruct v as [|t|]; try done. simpl in Ev. apply String.eqb_eq in Ev. by subst.
Qed.

Lemma rows_text_app (a b : list record) :
  rows_text (a ++ b) = rows_text a +:+ rows_text b.
Proof.
  induction a as [|d l IH]; [done|].
  rewrite <- app_comm_cons. cbn [rows_text]. by rewrite IH, str_app_assoc.
Qed.

Lemma rows_text_one (d : record) : rows_text [d] = row_line d.
Proof. cbn [rows_text]. apply str_app_nil_r. Qed.

(** X12. [add] with all five flags, on an inventory that loads and has
    no key besides the five column names: the run leaves in
    [inventory.csv] the header, the rows of the loaded records and the
    row of the new device, whose columns hold the last value of each
    flag; it prints the message with the name, nothing on standard
    error, and exits with status 0. *)
Theorem main_add_saves (fs : gmap string string) (inventory : list record)
    (flags : list (Dest * string)) :
  read_inventory fs inventory_csv = Ok inventory →
  Forall (λ d, ¬ has_extra_key d) inventory →
  Forall (λ f, plain (snd f)) flags →
  missing_flags flags = [] →
  main fs ("add"%string :: flag_args flags)
  = mkOutcome
      (<[inventory_csv := header_line +:+ rows_text inventory
                          +:+ row_line (new_device_of (ns_of flags))]> fs)
      [added_message (ns_name (ns_of flags))] [] 0.
Proof.
  intros Hload Hx Hv Hm.
  rewrite (main_got_add fs _ inventory (ns_of flags) Hload).
  2: { by rewrite (parse_args_flags flags Hv), Hm. }
  rewrite save_inventory_ok.
  2: { apply Forall_app. split; [done|].
       constructor; [apply new_device_no_extra | constructor]. }
  by rewrite rows_text_app, rows_text_one.
Qed.

Lemma main_add_saves_witness :
  main sample_fs ("add"%string :: flag_args switch1_flags)
  = mkOutcome
      (<[inventory_csv := header_line +:+ rows_text [router1]
                          +:+ row_line (new_device_of (ns_of switch1_flags))]> sample_fs)
      [added_message (ns_name (ns_of switch1_flags))] [] 0.
Proof.
  apply (main_add_saves sample_fs [router1] switch1_flags).
  - reflexivity.
  - repeat (constructor; [by apply wrong_fields_nil|]). constructor.
  - repeat constructor.
  - reflexivity.
Defined.

(** X13. [add] on a loaded inventory in which some record has a key
    besides the five column names (a row longer than the header, or a
    header with another column) loses data: whatever the arguments,
    when they parse, the run ends with the traceback of [ValueError] and
    exit status 1, prints nothing on standard output, and leaves in
    [inventory.csv] only the header and the rows of the records before
    the first such record. *)
Theorem main_add_extra_key (fs : gmap string string) (before after : list record)
    (d : record) (argv : list string) (args : Namespace) :
  read_inventory fs inventory_csv = Ok (before ++ d :: after) →
  Forall (λ d, ¬ has_extra_key d) before →
  has_extra_key d →
  parse_args setup_cli argv = Got args →
  argv ≠ [] →
  main fs argv
  = mkOutcome (<[inventory_csv := header_line +:+ rows_text before]> fs)
      [] [Traceback ValueError] 1.
Proof.
  intros Hload Hb Hd Hparse Hne.
  destruct (parse_args_got argv args Hparse) as [[-> _]|(rest & ns0 & -> & _ & ->)];
    [done|].
  rewrite (main_got_add fs _ _ ns0 Hload Hparse).
  by rewrite <- app_assoc, <- app_comm_cons, (save_inventory_raise _ _ _ _ _ Hb Hd).
Qed.

Lemma main_add_extra_key_witness :
  main corner_fs ("add"%string :: flag_args switch1_flags)
  = mkOutcome
      (<[inventory_csv := header_line +:+ rows_text [router1_corner; router2_short]]>
         corner_fs)
      [] [Traceback ValueError] 1.
Proof.
  apply (main_add_extra_key corner_fs [router1_corner; router2_short] [] router3_long
           ("add"%string :: flag_args switch1_flags)
           (ns_set_command "add" (ns_of switch1_flags))).
  - reflexivity.
  - repeat (constructor; [by apply wrong_fields_nil|]). constructor.
  - exists None. split; [|done]. unfold router3_long. simpl.
    rewrite !elem_of_cons. tauto.
  - reflexivity.
  - done.
Defined.


(** X15. A device added in one run is there in the next: after [add]
    with all five flags, their values without carriage return and within
    the field size limit, on an inventory that loads and has no key
    besides the five column names, a run without arguments prints the
    earlier records in their stored form followed by the record of the
    new device, and the Finder finds in that list a record with the new
    name. *)
Theorem main_add_then_list (fs : gmap string string) (inventory : list record)
    (flags : list (Dest * string)) :
  read_inventory fs inventory_csv = Ok inventory →
  Forall (λ d, ¬ has_extra_key d) inventory →
  Forall (λ f, plain (snd f)) flags →
  Forall (λ f, clean (snd f)) flags →
  missing_flags flags = [] →
  let fs' := final_fs (main fs ("add"%string :: flag_args flags)) in
  let listed := map reloaded inventory ++ [new_device_of (ns_of flags)] in
  main fs' [] = mkOutcome fs' [PrintInventory listed] [] 0
  ∧ ∃ name found,
      ns_name (ns_of flags) = VStr name
      ∧ get_device_data listed name = Ok (Some found)
      ∧ name_is found name.
Proof.
  intros Hload Hx Hv Hc Hm. cbn zeta.
  pose proof (ns_of_texts clean flags Hc Hm) as Htexts.
  destruct (Htexts d_name) as (n & Hn & _). destruct (Htexts d_ip) as (i & Hi & _).
  destruct (Htexts d_user) as (u & Hu & _).
  destruct (Htexts d_password) as (p & Hp & _).
  destruct (Htexts d_desc) as (t & Ht & _).
  assert (reloaded (new_device_of (ns_of flags)) = new_device_of (ns_of flags)) as Hre.
  { unfold reloaded, new_device_of, cell_of. simpl in Hn, Hi, Hu, Hp, Ht. simpl.
    by rewrite Hn, Hi, Hu, Hp, Ht. }
  rewrite (main_got_add fs _ inventory (ns_of flags) Hload).
  2: { by rewrite (parse_args_flags flags Hv), Hm. }
  rewrite save_inventory_ok.
  2: { apply Forall_app. split; [done|].
       constructor; [apply new_device_no_extra | constructor]. }
  cbn [final_fs].
  assert (read_inventory
            (<[inventory_csv := header_line +:+
                 rows_text (inventory ++ [new_device_of (ns_of flags)])]> fs)
            inventory_csv
          = Ok (map reloaded inventory ++ [new_device_of (ns_of flags)])) as Hread.
  { rewrite read_inventory_written.
    - by rewrite map_app, (map_cons reloaded), Hre.
    - apply Forall_app. split.
      + eapply Forall_impl; [exact (read_inventory_clean _ _ _ Hload)|].
        apply values_clean_row_texts.
      + constructor; [|constructor]. apply values_clean_row_texts.
        apply entries_clean_values. simpl in Hn, Hi, Hu, Hp, Ht.
        unfold new_device_of. rewrite Hn, Hi, Hu, Hp, Ht.
        destruct (Htexts d_name) as (n' & Hn' & Hcn).
        destruct (Htexts d_ip) as (i' & Hi' & Hci).
        destruct (Htexts d_user) as (u' & Hu' & Hcu).
        destruct (Htexts d_password) as (p' & Hp' & Hcp).
        destruct (Htexts d_desc) as (t' & Ht' & Hct).
        simpl in Hn', Hi', Hu', Hp', Ht'.
        rewrite Hn in Hn'. rewrite Hi in Hi'. rewrite Hu in Hu'.
        rewrite Hp in Hp'. rewrite Ht in Ht'.
        injection Hn' as <-. injection Hi' as <-. injection Hu' as <-.
        injection Hp' as <-. injection Ht' as <-.
        unfold entries_clean. by repeat (constructor; [done|]). }
  split.
  - unfold main. rewrite Hread. cbn. by rewrite lookup_singleton_eq.
  - exists n. simpl in Hn.
    assert (name_is (new_device_of (ns_of flags)) n) as Hnew.
    { unfold name_is, new_device_of. simpl. by rewrite Hn. }
    rewrite get_device_data_app.
    destruct (get_device_data_total (map reloaded inventory) n) as [r Hr].
    { apply Forall_fmap, Forall_true. intros d. by eexists. }
    rewrite Hr. destruct r as [found|].
    + exists found. split; [done|]. split; [done|].
      by apply (get_device_data_found (map reloaded inventory)).
    + exists (new_device_of (ns_of flags)). split; [done|]. split; [|done].
      rewrite get_device_data_cons, Hnew. simpl. by rewrite String.eqb_refl.
Qed.

Lemma main_add_then_list_witness :
  main (final_fs (main short_row_fs ("add"%string :: flag_args switch1_flags))) []
  = mkOutcome (final_fs (main short_row_fs ("add"%string :: flag_args switch1_flags)))
      [PrintInventory (map reloaded [router2_short]
                       ++ [new_device_of (ns_of switch1_flags)])] [] 0
  ∧ ∃ name found,
      ns_name (ns_of switch1_flags) = VStr name
      ∧ get_device_data (map reloaded [router2_short]
                         ++ [new_device_of (ns_of switch1_flags)]) name
        = Ok (Some found)
      ∧ name_is found name.
Proof.
  apply (main_add_then_list short_row_fs [router2_short] switch1_flags).
  - reflexivity.
  - repeat (constructor; [by apply wrong_fields_nil|]). constructor.
  - repeat constructor.
  - repeat (constructor; [by vm_compute|]). constructor.
  - reflexivity.
Defined.

(** ** Loader, on files that are not large *)

Lemma lf_at_end_snoc (cur : string) (c : ascii) :
  str_contains LF cur = false → lf_at_end (cur +:+ String c "").
Proof.
  induction cur as [|a cur IH]; simpl.
  - intros _. by split.
  - intros [Ha Hcur]%orb_false_elim. rewrite ?str_app_cons. simpl. split.
    + by rewrite Ha.
    + by apply IH.
Qed.

Lemma lf_at_end_free (cur : string) :
  str_contains LF cur = false → lf_at_end cur.
Proof.
  induction cur as [|a cur IH]; simpl; [done|].
  intros [Ha Hcur]%orb_false_elim. split; [by rewrite Ha | by apply IH].
Qed.

Lemma lines_of_lf_at_end (s : string) :
  ∀ cur, str_contains LF cur = false → Forall lf_at_end (lines_of cur s).
Proof.
  induction s as [|c t IH]; intros cur Hcur.
  - simpl. destruct cur as [|a cur'] eqn:E; [constructor|]. rewrite <- E in *.
    constructor; [by apply lf_at_end_free | constructor].
  - cbn [lines_of]. destruct (ch_eqb c LF) eqn:E.
    + constructor; [by apply lf_at_end_snoc | by apply IH].
    + apply IH. rewrite str_contains_app, Hcur. simpl. by rewrite E.
Qed.

Lemma lines_of_len (s : string) :
  ∀ cur, lines_len (lines_of cur s) = strlen cur + strlen s.
Proof.
  induction s as [|c t IH]; intros cur.
  - destruct cur; cbn [lines_of lines_len]; rewrite ?strlen_nil; lia.
  - cbn [lines_of]. destruct (ch_eqb c LF).
    + cbn [lines_len]. rewrite IH, strlen_app, !strlen_cons, !strlen_nil. lia.
    + rewrite IH, strlen_app, !strlen_cons, strlen_nil. lia.
Qed.

Lemma translate_newlines_len (b : bool) (s : string) :
  strlen (translate_newlines b s) ≤ strlen s.
Proof.
  revert b. induction s as [|c t IH]; intros b; [done|].
  cbn [translate_newlines]. rewrite (strlen_cons c t).
  pose proof (IH true) as H1. pose proof (IH false) as H2.
  destruct (ch_eqb c CR); [rewrite strlen_cons; lia|].
  destruct (ch_eqb c LF); [destruct b|]; rewrite ?strlen_cons; lia.
Qed.

(** One character, away from the field size limit. *)
Lemma parse_process_char_small (r : ReaderObj) (c : ascii) :
  rd_state r ≠ EAT_CRNL → rd_field_len r < field_limit →
  ∃ r1, parse_process_char r (Ch c) = Ok r1
        ∧ rd_field_len r1 ≤ rd_field_len r + 1
        ∧ (rd_state r1 = EAT_CRNL → is_newline c = true).
Proof.
  intros Hst Hlen.
  assert (∀ r0, rd_field_len r0 = rd_field_len r →
            parse_add_char r0 c
            = Ok (mkReader (rd_fields r0) (rd_field r0 +:+ String c "")
                    (rd_field_len r0 + 1) (rd_state r0))) as Hadd.
  { intros r0 E. unfold parse_add_char. rewrite E.
    destruct (N.leb_spec field_limit (rd_field_len r)); [lia | done]. }
  destruct r as [fs f n st]. simpl in *.
  unfold parse_process_char, parse_start_field. simpl.
  destruct st; try done;
    repeat (match goal with
            | |- context [if ?b then _ else _] => destruct b eqn:?
            end; simpl);
    rewrite ?Hadd by done; simpl;
    eexists; (split; [reflexivity|]); simpl; (split; [lia | done]).
Qed.

Lemma parse_process_char_eol (r : ReaderObj) :
  ∃ r2, parse_process_char r EOL = Ok r2
        ∧ rd_field_len r2 ≤ rd_field_len r ∧ rd_state r2 ≠ EAT_CRNL.
Proof.
  destruct r as [fs f n st].
  destruct st; unfold parse_process_char; simpl; eexists;
    (split; [reflexivity|]); simpl; (split; [lia | done]).
Qed.

Lemma parse_chars_small (line : string) :
  ∀ r, no_cr line → lf_at_end line →
    rd_state r ≠ EAT_CRNL → rd_field_len r + strlen line ≤ field_limit →
    ∃ r', parse_chars r line = Ok r' ∧ rd_field_len r' ≤ rd_field_len r + strlen line.
Proof.
  unfold no_cr. induction line as [|c t IH]; intros r Hcr Hlf Hst Hlen.
  - exists r. split; [done|]. lia.
  - rewrite strlen_cons in Hlen. simpl in Hcr, Hlf.
    apply orb_false_elim in Hcr as [Hc Hcr]. destruct Hlf as [Hlast Hlf].
    destruct (parse_process_char_small r c Hst ltac:(lia)) as (r1 & E1 & Hlen1 & Hst1).
    cbn [parse_chars]. rewrite E1. simpl.
    destruct (ch_eqb c LF) eqn:Elf.
    + rewrite (Hlast eq_refl). exists r1. split; [done|]. rewrite strlen_cons. lia.
    + destruct (IH r1 Hcr Hlf) as (r' & E' & Hlen'); [| lia |].
      * intros H. apply Hst1 in H. unfold is_newline in H.
        rewrite Elf in H. simpl in H. congruence.
      * exists r'. split; [done|]. rewrite strlen_cons. lia.
Qed.

Lemma reader_rows_small (lines : list string) :
  ∀ r, Forall no_cr lines → Forall lf_at_end lines →
    rd_state r ≠ EAT_CRNL → rd_field_len r + lines_len lines ≤ field_limit →
    ∃ rows, reader_rows r lines = Ok rows.
Proof.
  induction lines as [|line lines IH]; intros r Hcr Hlf Hst Hlen.
  - simpl. destruct (_ || _); by eexists.
  - apply Forall_cons in Hcr as [Hcr1 Hcr]. apply Forall_cons in Hlf as [Hlf1 Hlf].
    cbn [lines_len] in Hlen.
    destruct (parse_chars_small line r Hcr1 Hlf1 Hst ltac:(lia)) as (r' & E' & Hlen').
    destruct (parse_process_char_eol r') as (r2 & E2 & Hlen2 & Hst2).
    cbn [reader_rows]. unfold parse_line. rewrite E'. simpl. rewrite E2. simpl.
    destruct (state_eqb (rd_state r2) START_RECORD).
    + destruct (IH parse_reset Hcr Hlf) as [rows ->]; [done | simpl; lia|].
      by eexists.
    + apply (IH r2 Hcr Hlf Hst2). lia.
Qed.

(** X16. The reading loop accepts every text that is not large: once
    the file is open and its text has at most [field_limit] characters,
    [read_inventory] returns a list, whatever the text holds: stray
    quotes, an unclosed quote, blank lines, a header of any shape, rows
    of any length. *)
Theorem read_inventory_small_text (fs : gmap string string) (filename : string)
    (content : string) :
  fs !! filename = Some content →
  strlen content ≤ field_limit →
  ∃ inventory, read_inventory fs filename = Ok inventory.
Proof.
  intros Hfile Hsmall. unfold read_inventory. rewrite Hfile. unfold DictReader_rows.
  destruct (reader_rows_small (file_lines content) parse_reset) as [rows ->].
  - apply file_lines_no_cr.
  - unfold file_lines. by apply lines_of_lf_at_end.
  - done.
  - unfold file_lines. rewrite lines_of_len. simpl.
    pose proof (translate_newlines_len false content). unfold universal_newlines.
    rewrite strlen_nil. lia.
  - simpl. destruct rows; by eexists.
Qed.

Lemma read_inventory_small_text_witness :
  ∃ inventory, read_inventory corner_fs inventory_csv = Ok inventory.
Proof.
  apply (read_inventory_small_text corner_fs inventory_csv corner_csv).
  - reflexivity.
  - by vm_compute.
Defined.

(** ** JSON formatter *)


Lemma str_forallb_app (p : ascii → bool) (a b : string) :
  str_forallb p (a +:+ b) = str_forallb p a && str_forallb p b.
Proof.
  induction a as [|c a IH]; [done|].
  rewrite str_app_cons. cbn [str_forallb]. by rewrite IH, andb_assoc.
Qed.

Lemma escape_char_json (c : ascii) : str_forallb json_char (escape_char c) = true.
Proof. destruct c as [[] [] [] [] [] [] [] []]; reflexivity. Qed.


Lemma escape_ascii_json (s : string) : str_forallb json_char (escape_ascii s) = true.
Proof.
  induction s as [|c t IH]; [done|].
  cbn [escape_ascii]. by rewrite str_forallb_app, escape_char_json, IH.
Qed.

Lemma encode_basestring_ascii_json (s : string) :
  str_forallb json_char (encode_basestring_ascii s) = true.
Proof.
  unfold encode_basestring_ascii. cbn [str_forallb].
  by rewrite str_forallb_app, escape_ascii_json.
Qed.

Lemma indent_times_json (level : nat) :
  str_forallb json_char (indent_times level) = true.
Proof.
  induction level as [|n IH]; [done|].
  cbn [indent_times]. by rewrite str_forallb_app, IH.
Qed.

Lemma join_items_json (separator : string) (items : list string) (first : bool) :
  str_forallb json_char separator = true →
  Forall (λ item, str_forallb json_char item = true) items →
  str_forallb json_char (join_items separator first items) = true.
Proof.
  intros Hsep H. revert first. induction H as [|x l Hx _ IH]; intros first; [done|].
  cbn [join_items]. rewrite !str_forallb_app, Hx, IH.
  by destruct first; rewrite ?Hsep.
Qed.

Lemma iterencode_list_json {A : Type} (encode : A → nat → string) (lst : list A)
    (level : nat) :
  (∀ v l, str_forallb json_char (encode v l) = true) →
  str_forallb json_char (_iterencode_list encode lst level) = true.
Proof.
  intros Henc. unfold _iterencode_list. destruct lst as [|x l]; [done|].
  rewrite !str_forallb_app. unfold newline_indent. cbn [str_forallb].
  rewrite !indent_times_json, join_items_json; [done | |].
  - unfold item_separator. rewrite str_forallb_app. cbn [str_forallb].
    by rewrite indent_times_json.
  - apply Forall_fmap, Forall_true. intros v. apply Henc.
Qed.

Lemma encode_item_json (e : entry) (level : nat) :
  str_forallb json_char (encode_item e level) = true.
Proof.
  destruct e as [k v|vs]; unfold encode_item; rewrite !str_forallb_app,
    encode_basestring_ascii_json.
  - destruct v; [done | apply encode_basestring_ascii_json | done].
  - rewrite iterencode_list_json; [done|].
    intros s l. apply encode_basestring_ascii_json.
Qed.

Lemma iterencode_dict_json (dct : record) (level : nat) :
  str_forallb json_char (_iterencode_dict dct level) = true.
Proof.
  unfold _iterencode_dict. destruct dct as [|x l]; [done|].
  rewrite !str_forallb_app. unfold newline_indent. cbn [str_forallb].
  rewrite !indent_times_json, join_items_json; [done | |].
  - unfold item_separator. rewrite str_forallb_app. cbn [str_forallb].
    by rewrite indent_times_json.
  - apply Forall_fmap, Forall_true. intros e. apply encode_item_json.
Qed.

(** X17. The JSON text of any inventory is plain ASCII: each of its
    characters is a line feed or lies between the space and the tilde,
    whatever characters the keys and the values hold. *)
Theorem format_inventory_json_ascii (inventory_data : list record) :
  str_forallb json_char (format_inventory_json inventory_data) = true.
Proof.
  unfold format_inventory_json, json_dumps. apply iterencode_list_json.
  apply iterencode_dict_json.
Qed.













(** Without the condition the text can be the same: the key [None]
    bound to the empty list is written like the column ["null"] bound to
    an empty list. *)
Example format_inventory_json_null_key :
  format_inventory_json [[Rest []]]
  = format_inventory_json [[Field "null" VEmptyList]].
Proof. reflexivity. Qed.

(** ** Command line, commands and help *)

(** The top-level parser has no two options that one arg string could
    abbreviate: its first loop never ends the run. *)
Lemma parse_optional_top (s : string) :
  ∃ o, _parse_optional (option_string_actions (top_parser setup_cli)) s = Got o.
Proof.
  unfold _parse_optional. destruct s as [|c t]; [by eexists|].
  destruct (is_dash c) eqn:Ec; [|by eexists]. cbn [negb].
  destruct (lookup_option _ (String c t)); [by eexists|].
  destruct t as [|c' t']; [by eexists|].
  match goal with
  | |- context [match ?x with Some tuple => Got (Some tuple) | None => _ end] =>
      destruct x; [by eexists|]
  end.
  apply ch_eqb_eq in Ec. subst c.
  assert (length (_get_option_tuples (option_string_actions (top_parser setup_cli))
                    (String "-" (String c' t'))) ≤ 1)%nat as Hlen.
  { unfold _get_option_tuples. destruct (second_is_dash _) eqn:E2.
    - cbn [second_is_dash] in E2. apply ch_eqb_eq in E2. subst c'.
      assert (∀ p, String.prefix (String "-" (String "-" p)) "-h" = false) as Hp.
      { intros p. reflexivity. }
      destruct (split_eq (String "-" (String "-" t'))) as [[p e]|] eqn:Es.
      + cbn [split_eq] in Es.
        change (ch_eqb "-" "=") with false in Es. cbn iota in Es.
        destruct (split_eq t') as [[a b]|]; [|done]. injection Es as <- <-.
        cbn [setup_cli top_parser option_string_actions flat_map]. rewrite Hp.
        destruct (String.prefix _ _); simpl; lia.
      + cbn [setup_cli top_parser option_string_actions flat_map]. rewrite Hp.
        destruct (String.prefix _ _); simpl; lia.
    - cbn [second_is_dash] in E2.
      assert (String.eqb "--help" (str_take2 (String "-" (String c' t'))) = false) as H1.
      { cbn [str_take2 String.eqb]. unfold is_dash, ch_eqb in E2.
        rewrite (Ascii.eqb_sym "-"%char c').
        rewrite E2. by destruct (Ascii.eqb "-" "-"). }
      assert (String.prefix (String "-" (String c' t')) "--help" = false) as H2.
      { cbn [String.prefix]. destruct (ascii_dec "-" "-"); [|done].
        destruct (ascii_dec c' "-") as [->|]; [discriminate E2 | done]. }
      cbn [setup_cli top_parser option_string_actions flat_map]. rewrite H1, H2.
      repeat (match goal with |- context [if ?b then _ else _] => destruct b end);
        simpl; lia. }
  destruct (_get_option_tuples _ _) as [|[[a os] e] [|x l]]; [| by eexists |].
  - repeat case_match; by eexists.
  - simpl in Hlen. lia.
Qed.

Lemma classify_top (arg_strings : list string) (after_dashes : bool) :
  ∃ l, classify (option_string_actions (top_parser setup_cli)) after_dashes arg_strings
       = Got l.
Proof.
  revert after_dashes. induction arg_strings as [|s rest IH]; intros b; [by eexists|].
  cbn [classify]. destruct (IH true) as [l1 ->]. destruct (IH false) as [l2 ->].
  destruct (parse_optional_top s) as [o ->].
  destruct b; [by eexists|]. destruct (String.eqb s "--"); by eexists.
Qed.

Lemma parse_args_command (command : string) (rest : list string) :
  plain command → command ≠ "add"%string →
  parse_args setup_cli (command :: rest) = ExitError (ErrInvalidChoice command).
Proof.
  intros Hp Hne. unfold parse_args. cbn [classify].
  rewrite (plain_not_dashes _ Hp), (parse_optional_plain _ _ Hp).
  destruct (classify_top rest false) as [l ->].
  cbn [top_consume]. unfold subparsers_action, setup_cli.
  cbn [name_parser_map lookup_parser].
  destruct (String.eqb_spec "add" command) as [<-|]; done.
Qed.

Lemma parse_args_help (h : string) (rest : list string) :
  h = "-h"%string ∨ h = "--help"%string →
  parse_args setup_cli (h :: rest) = ExitHelp.
Proof.
  intros Hh. unfold parse_args. destruct (classify_top rest false) as [l Hl].
  assert (classify (option_string_actions (top_parser setup_cli)) false (h :: rest)
          = Got ((h, ArgO (Some HelpAction) h None) :: l)) as Hc.
  { by destruct Hh as [-> | ->]; cbn [classify]; rewrite Hl. }
  by rewrite Hc.
Qed.

(** X19. A first argument that is no option and is not [add] (such as
    [remove]) is no command of the tool: when the inventory loads, the
    run ends with the usage error of an invalid choice on standard
    error and exit status 2, whatever follows, and changes no file. *)
Theorem main_unknown_command (fs : gmap string string) (inventory : list record)
    (command : string) (rest : list string) :
  read_inventory fs inventory_csv = Ok inventory →
  plain command → command ≠ "add"%string →
  main fs (command :: rest)
  = mkOutcome fs [] [UsageError (ErrInvalidChoice command)] 2.
Proof.
  intros Hload Hp Hne. unfold main.
  by rewrite Hload, (parse_args_command command rest Hp Hne).
Qed.

Lemma main_unknown_command_witness :
  main sample_fs ["remove"; "--name"; "Router1"]%string
  = mkOutcome sample_fs [] [UsageError (ErrInvalidChoice "remove")] 2.
Proof.
  apply (main_unknown_command sample_fs [router1] "remove"
           ["--name"; "Router1"]%string).
  - reflexivity.
  - reflexivity.
  - discriminate.
Defined.

(** X20. A help flag as first argument: when the inventory loads, the
    run prints the help on standard output and exits with status 0,
    whatever follows the flag, and changes no file. *)
Theorem main_help_first (fs : gmap string string) (inventory : list record)
    (h : string) (rest : list string) :
  read_inventory fs inventory_csv = Ok inventory →
  h = "-h"%string ∨ h = "--help"%string →
  main fs (h :: rest) = mkOutcome fs [PrintHelp] [] 0.
Proof.
  intros Hload Hh. unfold main. by rewrite Hload, (parse_args_help h rest Hh).
Qed.

Lemma main_help_first_witness :
  main sample_fs ["--help"; "add"; "--bogus"]%string
  = mkOutcome sample_fs [PrintHelp] [] 0.
Proof.
  apply (main_help_first sample_fs [router1] "--help" ["add"; "--bogus"]%string).
  - reflexivity.
  - by right.
Defined.
